(** * EventManager: a shallow embedding of the Arduino event dispatcher

    The development follows [EventManager.h] and [EventManager.cpp]:
    the ring buffer [EventManager::EventQueue], the dispatch table
    [EventManager::ListenerList] and the coordinating [EventManager].

    Conventions of the embedding.
    - The C++ type [int] is [Z].  Event codes and parameters are only
      stored and compared.  Indices and counts stay between 0 and the
      array capacities (theorem [C9_public_operations_keep_invariant]),
      and a handled count is at most the number of listeners called, so
      the arithmetic of the program stays in range for capacities that
      fit an [int].
    - The operator [%] is C++'s truncated remainder, [Z.rem].
    - A fixed-size array is a [list]; indexing outside it is undefined
      behaviour in C++ and yields [Undefined] here, as does reading an
      uninitialised local.
    - A function pointer [EventListener] is its address, [0] being the
      null pointer.  What a listener does to the dispatcher when it is
      called is a parameter of the model ([run]); the calls made are
      recorded in a history.
    - The two capacities are parameters, as the macros
      [EVENTMANAGER_EVENT_QUEUE_SIZE] and
      [EVENTMANAGER_LISTENER_LIST_SIZE] are for the build.
    - The model is sequential: no interrupt arrives during a call, so
      the masking done with [cli]/[sei]/[SREG] is not represented. *)

From Stdlib Require Import ZArith Lia List Bool.
From stdpp Require Import base tactics option list.

#[local] Open Scope Z_scope.
#[local] Unset Default Proof Using.

(** ** Results of running a piece of the program *)

Inductive outcome (A : Type) : Type :=
| Ok (a : A)      (* the call returns [a] *)
| Undefined       (* out-of-bounds access or read of an uninitialised local *)
| OutOfFuel.      (* a [while] loop did not finish within the given bound *)

Arguments Ok {A} a.
Arguments Undefined {A}.
Arguments OutOfFuel {A}.

Definition bind {A B : Type} (m : outcome A) (k : A -> outcome B) : outcome B :=
  match m with
  | Ok a => k a
  | Undefined => Undefined
  | OutOfFuel => OutOfFuel
  end.

Notation "'do' p <- m ; k" := (bind m (fun p => k))
  (at level 10, p pattern, m at level 100, k at level 200,
   format "'[v' 'do'  p  <-  m ; '/' k ']'").

(** ** Arrays *)

(** [a[i]] as an rvalue. *)
Definition array_get {A : Type} (a : list A) (i : Z) : outcome A :=
  if 0 <=? i then
    match a !! Z.to_nat i with
    | Some x => Ok x
    | None => Undefined
    end
  else Undefined.

(** [a[i] = x]. *)
Definition array_set {A : Type} (a : list A) (i : Z) (x : A) : outcome (list A) :=
  if (0 <=? i) && (i <? Z.of_nat (length a))
  then Ok (<[Z.to_nat i := x]> a)
  else Undefined.

(** A local [int] variable or the target of an [int*]: [None] while it is
    uninitialised. *)
Definition int_cell : Type := option Z.

Definition read_cell (c : int_cell) : outcome Z :=
  match c with
  | Some v => Ok v
  | None => Undefined
  end.

(** What a call of [popEvent] delivered: the pair left in its two output
    cells when it returned [true], nothing when it returned [false]. *)
Definition popped (r : bool) (eventCode eventParam : int_cell) : option (Z * Z) :=
  if r then
    match eventCode, eventParam with
    | Some c, Some p => Some (c, p)
    | _, _ => None
    end
  else None.

(** [EventManager::EventType::kEventNone] *)
Definition kEventNone : Z := 200.

(** ** EventManager::EventQueue *)

Module EventQueue.

Record EventElement : Type := mkEventElement {
  code : Z;
  param : Z
}.

Record t : Type := mkEventQueue {
  mEventQueue : list EventElement;
  mEventQueueHead : Z;
  mEventQueueTail : Z;
  mNumEvents : Z;
  mInterruptSafeMode : bool
}.

Definition set_code (c : Z) (e : EventElement) : EventElement :=
  {| code := c; param := param e |}.
Definition set_param (p : Z) (e : EventElement) : EventElement :=
  {| code := code e; param := p |}.

Section WithSize.

(** [EVENTMANAGER_EVENT_QUEUE_SIZE], 8 unless the build overrides it. *)
Variable kEventQueueSize : Z.

(** [EventQueue::EventQueue( boolean beSafe )]: the loop stores
    [(kEventNone, 0)] in each of the [kEventQueueSize] slots. *)
Definition EventQueue (beSafe : bool) : t :=
  {| mEventQueue :=
       replicate (Z.to_nat kEventQueueSize) {| code := kEventNone; param := 0 |};
     mEventQueueHead := 0;
     mEventQueueTail := 0;
     mNumEvents := 0;
     mInterruptSafeMode := beSafe |}.

Definition isEmpty (q : t) : bool := mNumEvents q =? 0.
Definition isFull (q : t) : bool := mNumEvents q =? kEventQueueSize.
Definition getNumEvents (q : t) : Z := mNumEvents q.

(** [boolean EventQueue::queueEvent( int eventCode, int eventParam )] *)
Definition queueEvent (eventCode eventParam : Z) (q : t) : outcome (bool * t) :=
  if negb (isFull q) then
    do slot <- array_get (mEventQueue q) (mEventQueueTail q);
    do a1 <- array_set (mEventQueue q) (mEventQueueTail q) (set_code eventCode slot);
    do slot <- array_get a1 (mEventQueueTail q);
    do a2 <- array_set a1 (mEventQueueTail q) (set_param eventParam slot);
    Ok (true,
        {| mEventQueue := a2;
           mEventQueueHead := mEventQueueHead q;
           mEventQueueTail := Z.rem (mEventQueueTail q + 1) kEventQueueSize;
           mNumEvents := mNumEvents q + 1;
           mInterruptSafeMode := mInterruptSafeMode q |})
  else Ok (false, q).

(** [boolean EventQueue::popEvent( int* eventCode, int* eventParam )].
    The two cells are the contents of [*eventCode] and [*eventParam];
    their contents after the call are returned with the result. *)
Definition popEvent (eventCode eventParam : int_cell) (q : t)
  : outcome (bool * int_cell * int_cell * t) :=
  if isEmpty q then Ok (false, eventCode, eventParam, q)
  else
    do slot <- array_get (mEventQueue q) (mEventQueueHead q);
    let eventCode' := Some (code slot) in
    do slot <- array_get (mEventQueue q) (mEventQueueHead q);
    let eventParam' := Some (param slot) in
    do slot <- array_get (mEventQueue q) (mEventQueueHead q);
    do a1 <- array_set (mEventQueue q) (mEventQueueHead q) (set_code kEventNone slot);
    Ok (true, eventCode', eventParam',
        {| mEventQueue := a1;
           mEventQueueHead := Z.rem (mEventQueueHead q + 1) kEventQueueSize;
           mEventQueueTail := mEventQueueTail q;
           mNumEvents := mNumEvents q - 1;
           mInterruptSafeMode := mInterruptSafeMode q |}).

(** The structural invariant of the ring buffer: the array has its
    declared size, the count is between 0 and the capacity, and both
    indices are inside the array. *)
Record bounded (q : t) : Prop := mkBounded {
  bounded_size : 0 < kEventQueueSize;
  bounded_length : Z.of_nat (length (mEventQueue q)) = kEventQueueSize;
  bounded_head : 0 <= mEventQueueHead q < kEventQueueSize;
  bounded_tail : 0 <= mEventQueueTail q < kEventQueueSize;
  bounded_count : 0 <= mNumEvents q <= kEventQueueSize
}.

(** The data-model invariant: moreover the tail is [mNumEvents] slots
    past the head, circularly. *)
Record wf (q : t) : Prop := mkWf {
  wf_bounded : bounded q;
  wf_ring : mEventQueueTail q = (mEventQueueHead q + mNumEvents q) mod kEventQueueSize
}.

(** The queued events, oldest first: the [mNumEvents] slots from
    [mEventQueueHead] on, circularly. *)
Definition slot_at (q : t) (j : nat) : option EventElement :=
  mEventQueue q !! Z.to_nat ((mEventQueueHead q + Z.of_nat j) mod kEventQueueSize).

Definition contents (q : t) : list EventElement :=
  omap (slot_at q) (seq 0 (Z.to_nat (mNumEvents q))).

Definition event_pair (e : EventElement) : Z * Z := (code e, param e).

(** Sequences of calls on one queue: [queueEvent] for each pair of a
    list in turn, and [popEvent] a number of times, each time into two
    fresh uninitialised locals; the results are collected in call order. *)
Fixpoint queueEvents (events : list (Z * Z)) (q : t) : outcome (list bool * t) :=
  match events with
  | [] => Ok ([], q)
  | (c, p) :: rest =>
      do (r, q) <- queueEvent c p q;
      do (rs, q) <- queueEvents rest q;
      Ok (r :: rs, q)
  end.

Fixpoint popEvents (n : nat) (q : t) : outcome (list (option (Z * Z)) * t) :=
  match n with
  | O => Ok ([], q)
  | S n =>
      do (r, c, p, q) <- popEvent None None q;
      do (rs, q) <- popEvents n q;
      Ok (popped r c p :: rs, q)
  end.

(** The queue states that the constructor and the two operations produce. *)
Inductive reachable : t -> Prop :=
| reachable_ctor (beSafe : bool) : reachable (EventQueue beSafe)
| reachable_queueEvent (q q' : t) (c p : Z) (r : bool) :
    reachable q -> queueEvent c p q = Ok (r, q') -> reachable q'
| reachable_popEvent (q q' : t) (c p c' p' : int_cell) (r : bool) :
    reachable q -> popEvent c p q = Ok (r, c', p', q') -> reachable q'.

End WithSize.

End EventQueue.

(** ** EventManager::ListenerList *)

Module ListenerList.

(** [typedef void ( *EventListener )( int eventCode, int eventParam )] *)
Definition EventListener : Type := Z.

Record ListenerItem : Type := mkListenerItem {
  callback : EventListener;
  eventCode : Z;
  enabled : bool
}.

Record t : Type := mkListenerList {
  mNumListeners : Z;
  mListeners : list ListenerItem;
  mDefaultCallback : EventListener;
  mDefaultCallbackEnabled : bool
}.

Definition set_callback (f : EventListener) (it : ListenerItem) : ListenerItem :=
  {| callback := f; eventCode := eventCode it; enabled := enabled it |}.
Definition set_eventCode (c : Z) (it : ListenerItem) : ListenerItem :=
  {| callback := callback it; eventCode := c; enabled := enabled it |}.
Definition set_enabled (b : bool) (it : ListenerItem) : ListenerItem :=
  {| callback := callback it; eventCode := eventCode it; enabled := b |}.

Definition with_listeners (n : Z) (a : list ListenerItem) (l : t) : t :=
  {| mNumListeners := n;
     mListeners := a;
     mDefaultCallback := mDefaultCallback l;
     mDefaultCallbackEnabled := mDefaultCallbackEnabled l |}.

(** [a[i].f = v] for one field [f] of a [ListenerItem]. *)
Definition store_field (set : ListenerItem -> ListenerItem)
    (a : list ListenerItem) (i : Z) : outcome (list ListenerItem) :=
  do it <- array_get a i;
  array_set a i (set it).

(** The body of the compaction loops:
    [mListeners[i].callback = mListeners[i+1].callback], then the same
    for [eventCode] and [enabled]. *)
Definition copy_down (a : list ListenerItem) (i : Z) : outcome (list ListenerItem) :=
  do src <- array_get a (i + 1);
  do a <- store_field (set_callback (callback src)) a i;
  do src <- array_get a (i + 1);
  do a <- store_field (set_eventCode (eventCode src)) a i;
  do src <- array_get a (i + 1);
  store_field (set_enabled (enabled src)) a i.

(** [for ( int i = k; i < mNumListeners - 1; i++ )] with the body above;
    [steps] is the number of iterations, [mNumListeners - 1 - k]. *)
Fixpoint shift_down (steps : nat) (i : Z) (a : list ListenerItem)
  : outcome (list ListenerItem) :=
  match steps with
  | O => Ok a
  | S n => do a <- copy_down a i; shift_down n (i + 1) a
  end.

(** The three search loops [for ( int i = 0; i < mNumListeners; i++ )]
    differ in their test only; [steps] is the number of iterations left. *)
Fixpoint search_loop (test : ListenerItem -> bool) (a : list ListenerItem)
    (steps : nat) (i : Z) : outcome Z :=
  match steps with
  | O => Ok (-1)
  | S n =>
      do it <- array_get a i;
      if test it then Ok i else search_loop test a n (i + 1)
  end.

(** [int searchListeners( int eventCode, EventListener listener )] *)
Definition searchListeners (code : Z) (listener : EventListener) (l : t) : outcome Z :=
  search_loop (fun it => (eventCode it =? code) && (callback it =? listener))
    (mListeners l) (Z.to_nat (mNumListeners l)) 0.

(** [int searchListeners( EventListener listener )] *)
Definition searchListeners' (listener : EventListener) (l : t) : outcome Z :=
  search_loop (fun it => callback it =? listener)
    (mListeners l) (Z.to_nat (mNumListeners l)) 0.

(** [int searchEventCode( int eventCode )] *)
Definition searchEventCode (code : Z) (l : t) : outcome Z :=
  search_loop (fun it => eventCode it =? code)
    (mListeners l) (Z.to_nat (mNumListeners l)) 0.

(** [while ((k = searchListeners( listener )) >= 0 )] of
    [removeListener( EventListener )].  Every iteration but the last
    decrements [mNumListeners], which is positive whenever the search
    succeeds, so [S (Z.to_nat mNumListeners)] evaluations of the loop
    test always suffice (lemma [remove_all_loop_fuel]). *)
Fixpoint remove_all_loop (fuel : nat) (listener : EventListener)
    (removed : Z) (l : t) : outcome (Z * t) :=
  match fuel with
  | O => OutOfFuel
  | S n =>
      do k <- searchListeners' listener l;
      if 0 <=? k then
        do a <- shift_down (Z.to_nat (mNumListeners l - 1 - k)) k (mListeners l);
        remove_all_loop n listener (removed + 1)
          (with_listeners (mNumListeners l - 1) a l)
      else Ok (removed, l)
  end.

Section WithSize.

(** [EVENTMANAGER_LISTENER_LIST_SIZE], 8 unless the build overrides it. *)
Variable kMaxListeners : Z.

(** [ListenerList::ListenerList()] initialises [mNumListeners] and
    [mDefaultCallback] only: the array and [mDefaultCallbackEnabled]
    start with indeterminate contents, given here by [junk] and
    [junk_enabled]. *)
Definition ListenerList (junk : nat -> ListenerItem) (junk_enabled : bool) : t :=
  {| mNumListeners := 0;
     mListeners := map junk (seq 0 (Z.to_nat kMaxListeners));
     mDefaultCallback := 0;
     mDefaultCallbackEnabled := junk_enabled |}.

Definition numListeners (l : t) : Z := mNumListeners l.
Definition isEmpty (l : t) : bool := mNumListeners l =? 0.
Definition isFull (l : t) : bool := mNumListeners l =? kMaxListeners.
Definition getNumEntries (l : t) : Z := mNumListeners l.

(** [boolean addListener( int eventCode, EventListener listener )] *)
Definition addListener (code : Z) (listener : EventListener) (l : t)
  : outcome (bool * t) :=
  if listener =? 0 then Ok (false, l)
  else if isFull l then Ok (false, l)
  else
    do a <- store_field (set_callback listener) (mListeners l) (mNumListeners l);
    do a <- store_field (set_eventCode code) a (mNumListeners l);
    do a <- store_field (set_enabled true) a (mNumListeners l);
    Ok (true, with_listeners (mNumListeners l + 1) a l).

(** [boolean removeListener( int eventCode, EventListener listener )] *)
Definition removeListener (code : Z) (listener : EventListener) (l : t)
  : outcome (bool * t) :=
  if mNumListeners l =? 0 then Ok (false, l)
  else
    do k <- searchListeners code listener l;
    if k <? 0 then Ok (false, l)
    else
      do a <- shift_down (Z.to_nat (mNumListeners l - 1 - k)) k (mListeners l);
      Ok (true, with_listeners (mNumListeners l - 1) a l).

(** [int removeListener( EventListener listener )] *)
Definition removeListener' (listener : EventListener) (l : t) : outcome (Z * t) :=
  if mNumListeners l =? 0 then Ok (0, l)
  else remove_all_loop (S (Z.to_nat (mNumListeners l))) listener 0 l.

(** [boolean enableListener( int eventCode, EventListener listener, boolean enable )] *)
Definition enableListener (code : Z) (listener : EventListener) (enable : bool)
    (l : t) : outcome (bool * t) :=
  if mNumListeners l =? 0 then Ok (false, l)
  else
    do k <- searchListeners code listener l;
    if k <? 0 then Ok (false, l)
    else
      do a <- store_field (set_enabled enable) (mListeners l) k;
      Ok (true, with_listeners (mNumListeners l) a l).

(** [boolean isListenerEnabled( int eventCode, EventListener listener )] *)
Definition isListenerEnabled (code : Z) (listener : EventListener) (l : t)
  : outcome bool :=
  if mNumListeners l =? 0 then Ok false
  else
    do k <- searchListeners code listener l;
    if k <? 0 then Ok false
    else
      do it <- array_get (mListeners l) k;
      Ok (enabled it).

(** [boolean setDefaultListener( EventListener listener )] *)
Definition setDefaultListener (listener : EventListener) (l : t) : bool * t :=
  if listener =? 0 then (false, l)
  else
    (true,
     {| mNumListeners := mNumListeners l;
        mListeners := mListeners l;
        mDefaultCallback := listener;
        mDefaultCallbackEnabled := true |}).

(** [void removeDefaultListener()] *)
Definition removeDefaultListener (l : t) : t :=
  {| mNumListeners := mNumListeners l;
     mListeners := mListeners l;
     mDefaultCallback := 0;
     mDefaultCallbackEnabled := false |}.

(** [void enableDefaultListener( boolean enable )] *)
Definition enableDefaultListener (enable : bool) (l : t) : t :=
  {| mNumListeners := mNumListeners l;
     mListeners := mListeners l;
     mDefaultCallback := mDefaultCallback l;
     mDefaultCallbackEnabled := enable |}.

(** *** Dispatch

    The list is a member of a larger program state [W] (the
    dispatcher and whatever else the listeners can reach).  Calling
    through a function pointer, [invoke], may change all of it, so
    the scan reads [mNumListeners] and [mListeners[i]] afresh from
    the current state in every iteration, as the C++ loop does. *)
Section Dispatch.

Variable W : Type.
Variable registry : W -> t.
Variable invoke : EventListener -> Z -> Z -> W -> W.

(** [for ( int i = 0; i < mNumListeners; i++ )] of [sendEvent].
    [steps] is [kMaxListeners - i]: when it is exhausted while the
    loop test still holds, [mListeners[i]] lies outside the array. *)
Fixpoint sendEvent_loop (steps : nat) (i : Z) (code param : Z)
    (handlerCount : Z) (w : W) : outcome (Z * W) :=
  if i <? mNumListeners (registry w) then
    match steps with
    | O => Undefined
    | S n =>
        do it <- array_get (mListeners (registry w)) i;
        if negb (callback it =? 0) && (eventCode it =? code) && enabled it
        then sendEvent_loop n (i + 1) code param (handlerCount + 1)
               (invoke (callback it) code param w)
        else sendEvent_loop n (i + 1) code param handlerCount w
    end
  else Ok (handlerCount, w).

(** [int sendEvent( int eventCode, int param )] *)
Definition sendEvent (code param : Z) (w : W) : outcome (Z * W) :=
  do (handlerCount, w) <-
    sendEvent_loop (Z.to_nat kMaxListeners) 0 code param 0 w;
  if handlerCount =? 0 then
    if negb (mDefaultCallback (registry w) =? 0)
       && mDefaultCallbackEnabled (registry w)
    then Ok (handlerCount + 1,
             invoke (mDefaultCallback (registry w)) code param w)
    else Ok (handlerCount, w)
  else Ok (handlerCount, w).

(** The state after calling the listeners of a list in turn with the
    same two arguments. *)
Definition invoke_all (code param : Z) (w : W) (listeners : list EventListener) : W :=
  foldl (fun w listener => invoke listener code param w) w listeners.

End Dispatch.

(** The registrations in use, oldest first: entries [0 .. mNumListeners). *)
Definition live (l : t) : list ListenerItem :=
  take (Z.to_nat (mNumListeners l)) (mListeners l).

(** The data-model invariant of the dispatch table. *)
Record wf (l : t) : Prop := mkWf {
  wf_size : 0 < kMaxListeners;
  wf_length : Z.of_nat (length (mListeners l)) = kMaxListeners;
  wf_count : 0 <= mNumListeners l <= kMaxListeners;
  wf_live : Forall (fun it => callback it <> 0) (live l)
}.

End WithSize.

End ListenerList.

(** ** EventManager *)

Module EventManager.

Import ListenerList (EventListener).

Inductive SafetyMode : Type := kNotInterruptSafe | kInterruptSafe.
Inductive EventPriority : Type := kHighPriority | kLowPriority.

Definition SafetyMode_eqb (a b : SafetyMode) : bool :=
  match a, b with
  | kNotInterruptSafe, kNotInterruptSafe | kInterruptSafe, kInterruptSafe => true
  | _, _ => false
  end.

Record t : Type := mkEventManager {
  mHighPriorityQueue : EventQueue.t;
  mLowPriorityQueue : EventQueue.t;
  mListeners : ListenerList.t
}.

(** What a run of the dispatcher does that its caller can observe: the
    calls of [popEvent] on either queue with the event they yielded
    ([None] when the queue was empty), and the calls made through
    listener pointers with their two arguments. *)
Inductive action : Type :=
| PopEvent (pri : EventPriority) (popped : option (Z * Z))
| Call (listener : EventListener) (eventCode eventParam : Z).

(** The dispatcher together with the history of its actions, oldest first. *)
Record world : Type := mkWorld {
  manager : t;
  trace : list action
}.

Definition queue_of (pri : EventPriority) (m : t) : EventQueue.t :=
  match pri with
  | kHighPriority => mHighPriorityQueue m
  | kLowPriority => mLowPriorityQueue m
  end.

Definition with_queue (pri : EventPriority) (q : EventQueue.t) (m : t) : t :=
  match pri with
  | kHighPriority =>
      {| mHighPriorityQueue := q;
         mLowPriorityQueue := mLowPriorityQueue m;
         mListeners := mListeners m |}
  | kLowPriority =>
      {| mHighPriorityQueue := mHighPriorityQueue m;
         mLowPriorityQueue := q;
         mListeners := mListeners m |}
  end.

Definition with_listeners (l : ListenerList.t) (m : t) : t :=
  {| mHighPriorityQueue := mHighPriorityQueue m;
     mLowPriorityQueue := mLowPriorityQueue m;
     mListeners := l |}.

Section WithSizes.

Variable kEventQueueSize : Z.
Variable kMaxListeners : Z.

(** The effect on the dispatcher of the function behind a listener
    pointer, called with an event code and parameter.  Listeners are
    assumed to return. *)
Variable run : EventListener -> Z -> Z -> t -> t.

(** [EventManager::EventManager( SafetyMode safety )] *)
Definition EventManager (safety : SafetyMode)
    (junk : nat -> ListenerList.ListenerItem) (junk_enabled : bool) : t :=
  {| mHighPriorityQueue :=
       EventQueue.EventQueue kEventQueueSize (SafetyMode_eqb safety kInterruptSafe);
     mLowPriorityQueue :=
       EventQueue.EventQueue kEventQueueSize (SafetyMode_eqb safety kInterruptSafe);
     mListeners := ListenerList.ListenerList kMaxListeners junk junk_enabled |}.

(** *** The inline forwarding members of [EventManager.h] *)

Definition on_listeners {A : Type}
    (f : ListenerList.t -> outcome (A * ListenerList.t)) (m : t) : outcome (A * t) :=
  do (r, l) <- f (mListeners m);
  Ok (r, with_listeners l m).

Definition addListener (code : Z) (listener : EventListener) : t -> outcome (bool * t) :=
  on_listeners (ListenerList.addListener kMaxListeners code listener).

Definition removeListener (code : Z) (listener : EventListener) : t -> outcome (bool * t) :=
  on_listeners (ListenerList.removeListener code listener).

Definition removeListener' (listener : EventListener) : t -> outcome (Z * t) :=
  on_listeners (ListenerList.removeListener' listener).

Definition enableListener (code : Z) (listener : EventListener) (enable : bool)
  : t -> outcome (bool * t) :=
  on_listeners (ListenerList.enableListener code listener enable).

Definition isListenerEnabled (code : Z) (listener : EventListener) (m : t) : outcome bool :=
  ListenerList.isListenerEnabled code listener (mListeners m).

Definition setDefaultListener (listener : EventListener) (m : t) : bool * t :=
  let (r, l) := ListenerList.setDefaultListener listener (mListeners m) in
  (r, with_listeners l m).

Definition removeDefaultListener (m : t) : t :=
  with_listeners (ListenerList.removeDefaultListener (mListeners m)) m.

Definition enableDefaultListener (enable : bool) (m : t) : t :=
  with_listeners (ListenerList.enableDefaultListener enable (mListeners m)) m.

Definition isListenerListEmpty (m : t) : bool := ListenerList.isEmpty (mListeners m).
Definition isListenerListFull (m : t) : bool :=
  ListenerList.isFull kMaxListeners (mListeners m).
Definition numListeners (m : t) : Z := ListenerList.numListeners (mListeners m).

Definition isEventQueueEmpty (pri : EventPriority) (m : t) : bool :=
  EventQueue.isEmpty (queue_of pri m).
Definition isEventQueueFull (pri : EventPriority) (m : t) : bool :=
  EventQueue.isFull kEventQueueSize (queue_of pri m).
Definition getNumEventsInQueue (pri : EventPriority) (m : t) : Z :=
  EventQueue.getNumEvents (queue_of pri m).

(** [boolean queueEvent( int eventCode, int eventParam, EventPriority pri )] *)
Definition queueEvent (code param : Z) (pri : EventPriority) (m : t)
  : outcome (bool * t) :=
  do (r, q) <- EventQueue.queueEvent kEventQueueSize code param (queue_of pri m);
  Ok (r, with_queue pri q m).

(** *** Processing *)

(** A call through a listener pointer: it is recorded, and the
    listener does to the dispatcher whatever [run] says. *)
Definition invoke (listener : EventListener) (code param : Z) (w : world) : world :=
  {| manager := run listener code param (manager w);
     trace := trace w ++ [Call listener code param] |}.

(** [mListeners.sendEvent( eventCode, param )] *)
Definition sendEvent (code param : Z) (w : world) : outcome (Z * world) :=
  ListenerList.sendEvent kMaxListeners world (fun w => mListeners (manager w)) invoke
    code param w.

(** [mHighPriorityQueue.popEvent( &eventCode, &param )] and
    [mLowPriorityQueue.popEvent( &eventCode, &param )]: the queue's
    [popEvent], recorded in the history. *)
Definition popEvent (pri : EventPriority) (eventCode param : int_cell) (w : world)
  : outcome (bool * int_cell * int_cell * world) :=
  do (r, eventCode', param', q) <-
    EventQueue.popEvent kEventQueueSize eventCode param (queue_of pri (manager w));
  Ok (r, eventCode', param',
      {| manager := with_queue pri q (manager w);
         trace := trace w ++ [PopEvent pri (popped r eventCode' param')] |}).

(** [int EventManager::processEvent()] *)
Definition processEvent (w : world) : outcome (Z * world) :=
  let eventCode : int_cell := None in
  let param : int_cell := None in
  let handledCount := 0 in
  do (r, eventCode, param, w) <- popEvent kHighPriority eventCode param w;
  do (handledCount, w) <-
    (if r then
       do c <- read_cell eventCode;
       do p <- read_cell param;
       sendEvent c p w
     else Ok (handledCount, w));
  if handledCount =? 0 then
    do (r, eventCode, param, w) <- popEvent kLowPriority eventCode param w;
    if r then
      do c <- read_cell eventCode;
      do p <- read_cell param;
      sendEvent c p w
    else Ok (handledCount, w)
  else Ok (handledCount, w).

(** [while ( queue.popEvent( &eventCode, &param ) )
       handledCount += mListeners.sendEvent( eventCode, param );]
    of [processAllEvents], for either queue.  The loop need not end
    when listeners queue events, hence the bound [fuel] on the number
    of times its test is evaluated. *)
Fixpoint drain (pri : EventPriority) (fuel : nat) (eventCode param : int_cell)
    (handledCount : Z) (w : world) : outcome (int_cell * int_cell * Z * world) :=
  match fuel with
  | O => OutOfFuel
  | S n =>
      do (r, eventCode, param, w) <- popEvent pri eventCode param w;
      if r then
        do c <- read_cell eventCode;
        do p <- read_cell param;
        do (k, w) <- sendEvent c p w;
        drain pri n eventCode param (handledCount + k) w
      else Ok (eventCode, param, handledCount, w)
  end.

(** [int EventManager::processAllEvents()] *)
Definition processAllEvents (fuel : nat) (w : world) : outcome (Z * world) :=
  let eventCode : int_cell := None in
  let param : int_cell := None in
  let handledCount := 0 in
  do (eventCode, param, handledCount, w) <-
    drain kHighPriority fuel eventCode param handledCount w;
  do (eventCode, param, handledCount, w) <-
    drain kLowPriority fuel eventCode param handledCount w;
  Ok (handledCount, w).

(** An invariant of the whole dispatcher, given one for a queue: both
    queues satisfy it and the table is well formed. *)
Record invariant_with (Q : EventQueue.t -> Prop) (m : t) : Prop := mkInvariant {
  inv_high : Q (mHighPriorityQueue m);
  inv_low : Q (mLowPriorityQueue m);
  inv_listeners : ListenerList.wf kMaxListeners (mListeners m)
}.

(** The structural invariant of the dispatcher: counts and indices of
    both queues within their bounds. *)
Definition invariant : t -> Prop := invariant_with (EventQueue.bounded kEventQueueSize).

(** Its data-model invariant: the queues are moreover proper rings. *)
Definition wf : t -> Prop := invariant_with (EventQueue.wf kEventQueueSize).

(** *** The public member functions as data

    [perform] runs one of them on the dispatcher and forgets what it
    returns; [CallProcessAllEvents] carries the bound for its loops. *)
Inductive call : Type :=
| CallQueueEvent (code param : Z) (pri : EventPriority)
| CallAddListener (code : Z) (listener : EventListener)
| CallRemoveListener (code : Z) (listener : EventListener)
| CallRemoveListener' (listener : EventListener)
| CallEnableListener (code : Z) (listener : EventListener) (enable : bool)
| CallSetDefaultListener (listener : EventListener)
| CallRemoveDefaultListener
| CallEnableDefaultListener (enable : bool)
| CallProcessEvent
| CallProcessAllEvents (fuel : nat).

Definition with_manager (w : world) (m : t) : world :=
  {| manager := m; trace := trace w |}.

Definition perform (c : call) (w : world) : outcome world :=
  match c with
  | CallQueueEvent code param pri =>
      do (_, m) <- queueEvent code param pri (manager w); Ok (with_manager w m)
  | CallAddListener code listener =>
      do (_, m) <- addListener code listener (manager w); Ok (with_manager w m)
  | CallRemoveListener code listener =>
      do (_, m) <- removeListener code listener (manager w); Ok (with_manager w m)
  | CallRemoveListener' listener =>
      do (_, m) <- removeListener' listener (manager w); Ok (with_manager w m)
  | CallEnableListener code listener enable =>
      do (_, m) <- enableListener code listener enable (manager w); Ok (with_manager w m)
  | CallSetDefaultListener listener =>
      Ok (with_manager w (setDefaultListener listener (manager w)).2)
  | CallRemoveDefaultListener =>
      Ok (with_manager w (removeDefaultListener (manager w)))
  | CallEnableDefaultListener enable =>
      Ok (with_manager w (enableDefaultListener enable (manager w)))
  | CallProcessEvent =>
      do (_, w) <- processEvent w; Ok w
  | CallProcessAllEvents fuel =>
      do (_, w) <- processAllEvents fuel w; Ok w
  end.

(** The states of the dispatcher and its history that the constructor
    and the public member functions produce. *)
Inductive reachable : world -> Prop :=
| reachable_ctor (safety : SafetyMode) (junk : nat -> ListenerList.ListenerItem)
    (junk_enabled : bool) :
    reachable {| manager := EventManager safety junk junk_enabled; trace := [] |}
| reachable_perform (w w' : world) (c : call) :
    reachable w -> perform c w = Ok w' -> reachable w'.

End WithSizes.

(** *** Reading a history *)

Definition EventPriority_eqb (a b : EventPriority) : bool :=
  match a, b with
  | kHighPriority, kHighPriority | kLowPriority, kLowPriority => true
  | _, _ => false
  end.

(** The calls of the listeners of a list, in order, for one event. *)
Definition calls (code param : Z) (listeners : list EventListener) : list action :=
  (fun listener => Call listener code param) <$> listeners.

(** One attempt on a queue: the call of [popEvent] with what it yielded
    and, if it yielded an event, the listener calls made for it. *)
Definition attempt (pri : EventPriority) (popped : option (Z * Z))
    (listeners : list EventListener) : list action :=
  PopEvent pri popped ::
    match popped with
    | Some (c, p) => calls c p listeners
    | None => []
    end.

(** The number of events taken from a queue in a history. *)
Fixpoint consumed (pri : EventPriority) (tr : list action) : nat :=
  match tr with
  | [] => 0
  | PopEvent pri' (Some _) :: tr =>
      if EventPriority_eqb pri pri' then S (consumed pri tr) else consumed pri tr
  | _ :: tr => consumed pri tr
  end.

End EventManager.

(** ** Reference functions for the statements *)

(** Position of the first element of a list passing a test. *)
Fixpoint find_index {A : Type} (test : A -> bool) (l : list A) : option nat :=
  match l with
  | [] => None
  | x :: l => if test x then Some 0%nat else S <$> find_index test l
  end.

(** What a search loop returns for the outcome of [find_index]. *)
Definition index_or_minus1 (o : option nat) : Z :=
  match o with
  | Some k => Z.of_nat k
  | None => -1
  end.

(** The test of [searchListeners( eventCode, listener )]. *)
Definition same_pair (code : Z) (listener : ListenerList.EventListener)
    (it : ListenerList.ListenerItem) : bool :=
  (ListenerList.eventCode it =? code) && (ListenerList.callback it =? listener).

(** The array of a table after entry [k] of its [n] live entries was
    removed: the entries behind [k] moved one place down, and everything
    from position [n - 1] on is as before. *)
Definition compacted (k n : nat) (a : list ListenerList.ListenerItem)
  : list ListenerList.ListenerItem :=
  take k a ++ take (n - 1 - k) (drop (S k) a) ++ drop (n - 1) a.

(** The listeners that the specification says [dispatch] calls, in call
    order: the callbacks of the live entries for the code that are
    enabled, in registration order; if there is none, the default
    callback if one is installed and enabled. *)
Definition spec_matching (code : Z) (l : ListenerList.t) : list ListenerList.EventListener :=
  ListenerList.callback <$>
    List.filter (fun it => (ListenerList.eventCode it =? code) && ListenerList.enabled it)
      (ListenerList.live l).

Definition spec_default (l : ListenerList.t) : list ListenerList.EventListener :=
  if negb (ListenerList.mDefaultCallback l =? 0) && ListenerList.mDefaultCallbackEnabled l
  then [ListenerList.mDefaultCallback l]
  else [].

Definition spec_dispatch (code : Z) (l : ListenerList.t) : list ListenerList.EventListener :=
  match spec_matching code l with
  | [] => spec_default l
  | listeners => listeners
  end.



(** ** Concrete configurations

    The default build ([EVENTMANAGER_EVENT_QUEUE_SIZE] and
    [EVENTMANAGER_LISTENER_LIST_SIZE] both 8) with listeners that leave
    the dispatcher alone; used to run the model on examples. *)

Module Examples.

Definition run_id : ListenerList.EventListener -> Z -> Z -> EventManager.t -> EventManager.t :=
  fun _ _ _ m => m.

Definition junk (i : nat) : ListenerList.ListenerItem :=
  {| ListenerList.callback := 0; ListenerList.eventCode := 0; ListenerList.enabled := false |}.

(** A fresh queue of capacity 8. *)
Definition queue0 : EventQueue.t := EventQueue.EventQueue 8 true.

(** The queue after the given submissions to a fresh queue. *)
Definition queue_after (events : list (Z * Z)) : EventQueue.t :=
  match EventQueue.queueEvents 8 events queue0 with
  | Ok (_, q) => q
  | _ => queue0
  end.

(** Eight events: the queue is full. *)
Definition queue_full : EventQueue.t :=
  queue_after [(1, 10); (2, 20); (3, 30); (4, 40); (5, 50); (6, 60); (7, 70); (8, 80)].

(** A fresh dispatcher, with an empty history. *)
Definition world0 : EventManager.world :=
  {| EventManager.manager :=
       EventManager.EventManager 8 8 EventManager.kInterruptSafe junk false;
     EventManager.trace := [] |}.

(** The state after a sequence of public calls. *)
Definition after (cs : list EventManager.call) (w : EventManager.world) : EventManager.world :=
  foldl (fun w c =>
           match EventManager.perform 8 8 run_id c w with
           | Ok w' => w'
           | _ => w
           end) w cs.

(** One event in each queue and no listener at all. *)
Definition world_unheard : EventManager.world :=
  after [EventManager.CallQueueEvent 1 10 EventManager.kHighPriority;
         EventManager.CallQueueEvent 2 20 EventManager.kLowPriority] world0.

(** One event in each queue, listener 77 registered for code 1. *)
Definition world_heard : EventManager.world :=
  after [EventManager.CallAddListener 1 77] world_unheard.

(** What [processEvent] returns, given that it returns. *)
Definition processEvent_result (w : EventManager.world) : Z * EventManager.world :=
  match EventManager.processEvent 8 8 run_id w with
  | Ok r => r
  | _ => (0, w)
  end.

(** Three low-priority and two high-priority events; listeners 77 and
    78 registered for code 100, listener 79 for code 101. *)
Definition world_busy : EventManager.world :=
  after [EventManager.CallAddListener 100 77;
         EventManager.CallAddListener 100 78;
         EventManager.CallAddListener 101 79;
         EventManager.CallQueueEvent 100 1 EventManager.kLowPriority;
         EventManager.CallQueueEvent 101 2 EventManager.kLowPriority;
         EventManager.CallQueueEvent 102 3 EventManager.kLowPriority;
         EventManager.CallQueueEvent 101 4 EventManager.kHighPriority;
         EventManager.CallQueueEvent 100 5 EventManager.kHighPriority] world0.



(** A fresh dispatch table of capacity 8. *)
Definition listeners0 : ListenerList.t := ListenerList.ListenerList 8 junk false.

(** The table after registering the same pair a number of times. *)
Fixpoint registered (times : nat) (code : Z) (listener : ListenerList.EventListener)
  : ListenerList.t :=
  match times with
  | O => listeners0
  | S n =>
      match ListenerList.addListener 8 code listener (registered n code listener) with
      | Ok (_, l) => l
      | _ => listeners0
      end
  end.

End Examples.

(** ** Further reference functions and configurations *)

(** [k] is what a search loop over [l] returns for a test: [-1] when no
    element passes the test, and otherwise the least index of one that
    does. *)
Definition is_first_match {A : Type} (test : A -> bool) (l : list A) (k : Z) : Prop :=
  (k = -1 /\ Forall (fun x => test x = false) l) \/
  (0 <= k /\
   exists x, l !! Z.to_nat k = Some x /\ test x = true /\
     forall j y, (j < Z.to_nat k)%nat -> l !! j = Some y -> test y = false).

(** The handled count of one event for a table: the number of listeners
    that the specification says are called for it. *)
Definition handled_count (l : ListenerList.t) (e : Z * Z) : Z :=
  Z.of_nat (length (spec_dispatch e.1 l)).

Definition other_priority (pri : EventManager.EventPriority) : EventManager.EventPriority :=
  match pri with
  | EventManager.kHighPriority => EventManager.kLowPriority
  | EventManager.kLowPriority => EventManager.kHighPriority
  end.

Module MoreExamples.

(** The dispatch table of a state reached by public calls. *)
Definition table_after (cs : list EventManager.call) : ListenerList.t :=
  EventManager.mListeners (EventManager.manager (Examples.after cs Examples.world0)).

(** Listener 77 for codes 5 and 6, listener 78 for code 5 in between. *)
Definition table_mixed : ListenerList.t :=
  table_after [EventManager.CallAddListener 5 77;
               EventManager.CallAddListener 5 78;
               EventManager.CallAddListener 6 77].

(** The same, with the entry [(5, 77)] disabled. *)
Definition table_disabled : ListenerList.t :=
  table_after [EventManager.CallAddListener 5 77;
               EventManager.CallAddListener 5 78;
               EventManager.CallAddListener 6 77;
               EventManager.CallEnableListener 5 77 false].

(** A full table: eight registrations of the pair [(5, 77)]. *)
Definition table_full : ListenerList.t := Examples.registered 8 5 77.

End MoreExamples.

(** * Properties *)

(** Closed goals about concrete configurations: evaluate, then close
    the comparisons that are left. *)
Ltac by_computation :=
  vm_compute;
  repeat match goal with
         | |- _ /\ _ => split
         | |- Forall _ _ => constructor
         end;
  first [reflexivity | discriminate | lia].

(** ** Arrays and the outcome monad *)

Lemma array_get_ok {A : Type} (a : list A) (i : Z) (x : A) :
  0 <= i -> a !! Z.to_nat i = Some x -> array_get a i = Ok x.
Proof.
  intros Hi Hx. unfold array_get.
  destruct (Z.leb_spec 0 i); [|lia]. by rewrite Hx.
Qed.

Lemma array_get_inv {A : Type} (a : list A) (i : Z) (x : A) :
  array_get a i = Ok x -> 0 <= i /\ a !! Z.to_nat i = Some x.
Proof.
  unfold array_get. destruct (Z.leb_spec 0 i); [|done].
  destruct (a !! Z.to_nat i); [|done]. intros [= ->]. done.
Qed.

Lemma array_set_ok {A : Type} (a : list A) (i : Z) (x : A) :
  0 <= i < Z.of_nat (length a) -> array_set a i x = Ok (<[Z.to_nat i := x]> a).
Proof.
  intros Hi. unfold array_set.
  destruct (Z.leb_spec 0 i); [|lia].
  destruct (Z.ltb_spec i (Z.of_nat (length a))); [done|lia].
Qed.

Lemma array_index_lookup {A : Type} (a : list A) (i : Z) :
  0 <= i < Z.of_nat (length a) -> exists x, a !! Z.to_nat i = Some x.
Proof.
  intros Hi. apply lookup_lt_is_Some_2. lia.
Qed.

Lemma bind_Ok_inv {A B : Type} (m : outcome A) (k : A -> outcome B) (b : B) :
  bind m k = Ok b -> exists a, m = Ok a /\ k a = Ok b.
Proof. destruct m; simpl; [eauto|done|done]. Qed.

(** Two indices of a ring at different offsets below the capacity differ. *)
Lemma ring_index_ne (size base d1 d2 : Z) :
  0 < size -> 0 <= d1 < d2 -> d2 < size ->
  (base + d1) mod size <> (base + d2) mod size.
Proof.
  intros Hs Hd Hlt Heq.
  assert (Hz : (d2 - d1) mod size = 0).
  { replace (d2 - d1) with ((base + d2) - (base + d1)) by lia.
    rewrite Zminus_mod, Heq, Z.sub_diag. by apply Z.mod_0_l; lia. }
  rewrite Z.mod_small in Hz; lia.
Qed.

Lemma omap_cons {A B : Type} (f : A -> option B) (x : A) (l : list A) :
  omap f (x :: l) =
    match f x with
    | Some y => y :: omap f l
    | None => omap f l
    end.
Proof. reflexivity. Qed.

Lemma omap_seq_ext {B : Type} (f g : nat -> option B) (a n : nat) :
  (forall j, (a <= j < a + n)%nat -> f j = g j) ->
  omap f (seq a n) = omap g (seq a n).
Proof.
  revert a. induction n as [|n IH]; intros a Hfg; [done|].
  cbn [seq]. rewrite !omap_cons, (Hfg a) by lia. rewrite (IH (S a)); [done|].
  intros j Hj. apply Hfg. lia.
Qed.

Lemma omap_seq_S {B : Type} (f : nat -> option B) (a n : nat) :
  omap f (seq (S a) n) = omap (fun j => f (S j)) (seq a n).
Proof.
  revert a. induction n as [|n IH]; intros a; [done|].
  cbn [seq]. by rewrite !omap_cons, IH.
Qed.

(** ** The ring buffer *)

Section EventQueueFacts.

Import EventQueue.

Variable kEventQueueSize : Z.

#[local] Abbreviation bounded := (EventQueue.bounded kEventQueueSize).
#[local] Abbreviation wf := (EventQueue.wf kEventQueueSize).
#[local] Abbreviation queueEvent := (EventQueue.queueEvent kEventQueueSize).
#[local] Abbreviation popEvent := (EventQueue.popEvent kEventQueueSize).
#[local] Abbreviation contents := (EventQueue.contents kEventQueueSize).
#[local] Abbreviation slot_at := (EventQueue.slot_at kEventQueueSize).

Lemma EventQueue_ctor_wf (beSafe : bool) :
  0 < kEventQueueSize -> wf (EventQueue.EventQueue kEventQueueSize beSafe).
Proof.
  intros Hs. split; [constructor|]; simpl; try lia.
  - rewrite length_replicate. lia.
  - rewrite Z.add_0_r. by rewrite Z.mod_0_l; lia.
Qed.

Lemma queueEvent_full (q : t) (c p : Z) :
  mNumEvents q = kEventQueueSize -> queueEvent c p q = Ok (false, q).
Proof.
  intros Hfull. unfold EventQueue.queueEvent, isFull.
  rewrite Hfull, Z.eqb_refl. done.
Qed.

Lemma queueEvent_not_full (q : t) (c p : Z) :
  bounded q -> mNumEvents q <> kEventQueueSize ->
  queueEvent c p q =
    Ok (true,
        {| mEventQueue :=
             <[Z.to_nat (mEventQueueTail q) := {| code := c; param := p |}]> (mEventQueue q);
           mEventQueueHead := mEventQueueHead q;
           mEventQueueTail := (mEventQueueTail q + 1) mod kEventQueueSize;
           mNumEvents := mNumEvents q + 1;
           mInterruptSafeMode := mInterruptSafeMode q |}).
Proof.
  intros [Hs Hlen Hh Ht Hc] Hnf. unfold EventQueue.queueEvent, isFull.
  destruct (Z.eqb_spec (mNumEvents q) kEventQueueSize) as [|_]; [done|]. simpl.
  destruct (array_index_lookup (mEventQueue q) (mEventQueueTail q)) as [e He]; [lia|].
  rewrite (array_get_ok _ _ e) by (done || lia). simpl.
  rewrite array_set_ok by lia. simpl.
  rewrite (array_get_ok _ _ (set_code c e)).
  2: lia.
  2: { apply list_lookup_insert_eq. lia. }
  simpl. rewrite array_set_ok by (rewrite length_insert; lia). simpl.
  rewrite list_insert_insert_eq.
  rewrite Z.rem_mod_nonneg by lia. done.
Qed.

Lemma queueEvent_bounded (q : t) (c p : Z) :
  bounded q -> exists r q', queueEvent c p q = Ok (r, q') /\ bounded q'.
Proof.
  intros Hb. destruct (Z.eq_dec (mNumEvents q) kEventQueueSize) as [Hf|Hnf].
  - rewrite queueEvent_full by done. eauto.
  - rewrite queueEvent_not_full by done. eexists _, _. split; [done|].
    destruct Hb as [Hs Hlen Hh Ht Hc].
    constructor; simpl; try lia.
    + rewrite length_insert. lia.
    + apply Z.mod_pos_bound. lia.
Qed.

Lemma queueEvent_wf (q q' : t) (c p : Z) (r : bool) :
  wf q -> queueEvent c p q = Ok (r, q') -> wf q'.
Proof.
  intros [Hb Hr] Hq. split.
  - destruct (queueEvent_bounded q c p Hb) as (r1 & q1 & Hq1 & Hb1). congruence.
  - revert Hq. destruct (Z.eq_dec (mNumEvents q) kEventQueueSize) as [Hf|Hnf].
    + rewrite queueEvent_full by done. by intros [= _ <-].
    + rewrite queueEvent_not_full by done. intros [= _ <-]. simpl.
      rewrite Hr. rewrite Zplus_mod_idemp_l. f_equal. lia.
Qed.

Lemma popEvent_empty (q : t) (eventCode eventParam : int_cell) :
  mNumEvents q = 0 -> popEvent eventCode eventParam q = Ok (false, eventCode, eventParam, q).
Proof.
  intros He. unfold EventQueue.popEvent, isEmpty. rewrite He. done.
Qed.

Lemma popEvent_not_empty (q : t) (eventCode eventParam : int_cell) :
  bounded q -> mNumEvents q <> 0 ->
  exists e,
    mEventQueue q !! Z.to_nat (mEventQueueHead q) = Some e /\
    popEvent eventCode eventParam q =
      Ok (true, Some (code e), Some (param e),
          {| mEventQueue :=
               <[Z.to_nat (mEventQueueHead q) := set_code kEventNone e]> (mEventQueue q);
             mEventQueueHead := (mEventQueueHead q + 1) mod kEventQueueSize;
             mEventQueueTail := mEventQueueTail q;
             mNumEvents := mNumEvents q - 1;
             mInterruptSafeMode := mInterruptSafeMode q |}).
Proof.
  intros [Hs Hlen Hh Ht Hc] Hne.
  destruct (array_index_lookup (mEventQueue q) (mEventQueueHead q)) as [e He]; [lia|].
  exists e. split; [done|].
  unfold EventQueue.popEvent, isEmpty.
  destruct (Z.eqb_spec (mNumEvents q) 0) as [|_]; [done|].
  rewrite (array_get_ok _ _ e) by (done || lia). simpl.
  rewrite array_set_ok by lia. simpl.
  rewrite Z.rem_mod_nonneg by lia. done.
Qed.

Lemma popEvent_bounded (q : t) (c p : int_cell) :
  bounded q -> exists r c' p' q', popEvent c p q = Ok (r, c', p', q') /\ bounded q'.
Proof.
  intros Hb. destruct (Z.eq_dec (mNumEvents q) 0) as [He|Hne].
  - rewrite popEvent_empty by done. eauto 10.
  - destruct (popEvent_not_empty q c p Hb Hne) as (e & _ & ->).
    eexists _, _, _, _. split; [done|].
    destruct Hb as [Hs Hlen Hh Ht Hc].
    constructor; simpl; try lia.
    + rewrite length_insert. lia.
    + apply Z.mod_pos_bound. lia.
Qed.

Lemma popEvent_wf (q q' : t) (c p c' p' : int_cell) (r : bool) :
  wf q -> popEvent c p q = Ok (r, c', p', q') -> wf q'.
Proof.
  intros [Hb Hr] Hp. split.
  - destruct (popEvent_bounded q c p Hb) as (r1 & c1 & p1 & q1 & Hq1 & Hb1). congruence.
  - revert Hp. destruct (Z.eq_dec (mNumEvents q) 0) as [He|Hne].
    + rewrite popEvent_empty by done. by intros [= _ _ _ <-].
    + destruct (popEvent_not_empty q c p Hb Hne) as (e & _ & ->). intros [= _ _ _ <-].
      simpl. rewrite Hr. rewrite Zplus_mod_idemp_l. f_equal. lia.
Qed.

(** What a call of [popEvent] that returns has done, whatever the queue. *)
Lemma popEvent_inv (q q' : t) (c p c' p' : int_cell) (r : bool) :
  popEvent c p q = Ok (r, c', p', q') ->
  (r = false /\ mNumEvents q = 0 /\ c' = c /\ p' = p /\ q' = q) \/
  (r = true /\ mNumEvents q <> 0 /\ mNumEvents q' = mNumEvents q - 1 /\
   exists e, mEventQueue q !! Z.to_nat (mEventQueueHead q) = Some e /\
             c' = Some (code e) /\ p' = Some (param e)).
Proof.
  unfold EventQueue.popEvent, isEmpty.
  destruct (Z.eqb_spec (mNumEvents q) 0) as [He|Hne].
  - intros [= <- <- <- <-]. left. done.
  - intros H. right.
    apply bind_Ok_inv in H as (e & Hget & H).
    apply array_get_inv in Hget as [Hh He]. simpl in H.
    rewrite (array_get_ok _ _ e) in H by done. simpl in H.
    apply bind_Ok_inv in H as (a1 & _ & [= <- <- <- <-]).
    split; [done|]. split; [done|]. split; [done|]. exists e. done.
Qed.

Lemma slot_at_is_Some (q : t) (j : nat) :
  wf q -> is_Some (slot_at q j).
Proof.
  intros [[Hs Hlen Hh Ht Hc] Hr]. unfold EventQueue.slot_at.
  apply lookup_lt_is_Some_2.
  pose proof (Z.mod_pos_bound (mEventQueueHead q + Z.of_nat j) kEventQueueSize Hs). lia.
Qed.

Lemma contents_length (q : t) :
  wf q -> length (contents q) = Z.to_nat (mNumEvents q).
Proof.
  intros Hwf. unfold EventQueue.contents.
  generalize (Z.to_nat (mNumEvents q)) as n. intros n.
  generalize 0%nat as a. induction n as [|n IH]; intros a; [done|].
  simpl. destruct (slot_at_is_Some q a Hwf) as [e ->]. simpl. by rewrite IH.
Qed.

Lemma contents_empty (q : t) : mNumEvents q = 0 -> contents q = [].
Proof. intros He. unfold EventQueue.contents. by rewrite He. Qed.

(** A successful [queueEvent] appends the event to the queued ones. *)
Lemma contents_queueEvent (q q' : t) (c p : Z) :
  wf q -> queueEvent c p q = Ok (true, q') ->
  contents q' = contents q ++ [{| code := c; param := p |}].
Proof.
  intros Hwf. destruct (Z.eq_dec (mNumEvents q) kEventQueueSize) as [Hf|Hnf].
  { by rewrite queueEvent_full. }
  rewrite queueEvent_not_full by (done || apply Hwf). intros [= <-].
  destruct Hwf as [[Hs Hlen Hh Ht Hc] Hr].
  unfold EventQueue.contents. simpl.
  replace (Z.to_nat (mNumEvents q + 1)) with (Z.to_nat (mNumEvents q) + 1)%nat by lia.
  rewrite seq_app, omap_app. f_equal.
  - apply omap_seq_ext. intros j Hj. unfold EventQueue.slot_at. simpl.
    apply list_lookup_insert_ne. rewrite Hr.
    intros Heq. apply Z2Nat.inj in Heq.
    + revert Heq. apply not_eq_sym, ring_index_ne; lia.
    + apply Z.mod_pos_bound; lia.
    + apply Z.mod_pos_bound; lia.
  - simpl. unfold EventQueue.slot_at. simpl.
    rewrite Z2Nat.id by lia. rewrite <- Hr.
    rewrite list_lookup_insert_eq by lia. done.
Qed.

(** A successful [popEvent] returns the oldest queued event and leaves
    the others queued, in their order. *)
Lemma contents_popEvent (q q' : t) (c0 p0 c p : int_cell) :
  wf q -> popEvent c0 p0 q = Ok (true, c, p, q') ->
  exists e, c = Some (code e) /\ p = Some (param e) /\ contents q = e :: contents q'.
Proof.
  intros Hwf. destruct (Z.eq_dec (mNumEvents q) 0) as [He|Hne].
  { by rewrite popEvent_empty. }
  destruct (popEvent_not_empty q c0 p0 (wf_bounded _ _ Hwf) Hne) as (e & Hhd & ->).
  intros [= <- <- <-].
  exists e. split; [done|]. split; [done|].
  destruct Hwf as [[Hs Hlen Hh Ht Hc] Hr].
  unfold EventQueue.contents. simpl.
  replace (Z.to_nat (mNumEvents q)) with (S (Z.to_nat (mNumEvents q - 1))) by lia.
  simpl. unfold EventQueue.slot_at at 1. simpl.
  rewrite Z.add_0_r, Z.mod_small by lia. rewrite Hhd. f_equal.
  rewrite omap_seq_S. apply omap_seq_ext. intros j Hj.
  unfold EventQueue.slot_at. simpl.
  rewrite Zplus_mod_idemp_l.
  replace (mEventQueueHead q + 1 + Z.of_nat j) with (mEventQueueHead q + Z.of_nat (S j)) by lia.
  symmetry. apply list_lookup_insert_ne.
  intros Heq.
  assert (Hm : (mEventQueueHead q + 0) mod kEventQueueSize
               = (mEventQueueHead q + Z.of_nat (S j)) mod kEventQueueSize).
  { rewrite Z.add_0_r, Z.mod_small by lia.
    apply Z2Nat.inj in Heq; [done|lia|]. apply Z.mod_pos_bound; lia. }
  revert Hm. apply ring_index_ne; lia.
Qed.

Lemma EventQueue_reachable_wf (q : t) :
  0 < kEventQueueSize -> EventQueue.reachable kEventQueueSize q -> wf q.
Proof.
  intros Hs. induction 1 as [b|q q' c p r _ IH Hq|q q' c p c' p' r _ IH Hp].
  - by apply EventQueue_ctor_wf.
  - by eapply queueEvent_wf.
  - by eapply popEvent_wf.
Qed.

Lemma queueEvents_contents (events : list (Z * Z)) (q q' : t) (rs : list bool) :
  wf q -> EventQueue.queueEvents kEventQueueSize events q = Ok (rs, q') ->
  Forall (eq true) rs ->
  wf q' /\
  event_pair <$> contents q' = (event_pair <$> contents q) ++ events.
Proof.
  revert q rs. induction events as [|[c p] events IH]; intros q rs Hwf; simpl.
  - intros [= <- <-] _. by rewrite app_nil_r.
  - intros H. apply bind_Ok_inv in H as ([r q1] & Hq & H).
    apply bind_Ok_inv in H as ([rs1 q2] & Hrest & [= <- <-]).
    intros Hall. apply Forall_cons in Hall as [<- Hall].
    pose proof (queueEvent_wf _ _ _ _ _ Hwf Hq) as Hwf1.
    destruct (IH _ _ Hwf1 Hrest Hall) as [Hwf2 ->].
    split; [done|].
    rewrite (contents_queueEvent _ _ _ _ Hwf Hq).
    rewrite fmap_app, <- app_assoc. done.
Qed.

Lemma popEvents_contents (q : t) :
  wf q ->
  exists q',
    EventQueue.popEvents kEventQueueSize (length (contents q)) q
      = Ok (Some <$> (event_pair <$> contents q), q') /\
    wf q' /\ mNumEvents q' = 0.
Proof.
  remember (length (contents q)) as n eqn:Hn. revert q Hn.
  induction n as [|n IH]; intros q Hn Hwf.
  - symmetry in Hn. pose proof (nil_length_inv _ Hn) as Hnil.
    rewrite contents_length in Hn by done.
    exists q. simpl. rewrite Hnil. split; [done|]. split; [done|].
    destruct Hwf as [[] ?]. lia.
  - assert (Hne : mNumEvents q <> 0).
    { intros He. rewrite contents_empty in Hn by done. done. }
    destruct (popEvent_not_empty q None None (wf_bounded _ _ Hwf) Hne) as (e & _ & Hpop).
    pose proof (popEvent_wf _ _ _ _ _ _ _ Hwf Hpop) as Hwf1.
    destruct (contents_popEvent _ _ _ _ _ _ Hwf Hpop) as (e' & [= He1] & [= He2] & Hc).
    rewrite Hc in Hn. simpl in Hn. injection Hn as Hn.
    destruct (IH _ Hn Hwf1) as (q' & Hrest & Hwf' & Hz).
    exists q'. split; [|done].
    cbn [EventQueue.popEvents]. rewrite Hpop. simpl. rewrite Hrest. simpl.
    rewrite Hc. simpl. unfold event_pair at 2. by rewrite He1, He2.
Qed.

End EventQueueFacts.

(** ** The dispatch table *)

Lemma find_index_Some {A : Type} (test : A -> bool) (l : list A) (k : nat) :
  find_index test l = Some k ->
  exists x, l !! k = Some x /\ test x = true /\
    forall j y, (j < k)%nat -> l !! j = Some y -> test y = false.
Proof.
  revert k. induction l as [|x l IH]; intros k; simpl; [done|].
  destruct (test x) eqn:Hx.
  - intros [= <-]. exists x. split; [done|]. split; [done|]. intros j y Hj. lia.
  - destruct (find_index test l) as [k'|]; [|done]. simpl. intros [= <-].
    destruct (IH k' eq_refl) as (y & Hy & Hty & Hbefore).
    exists y. split; [done|]. split; [done|].
    intros [|j] z Hj; simpl.
    + by intros [= <-].
    + apply Hbefore. lia.
Qed.

Lemma find_index_None {A : Type} (test : A -> bool) (l : list A) :
  find_index test l = None -> Forall (fun x => test x = false) l.
Proof.
  induction l as [|x l IH]; simpl; [by constructor|].
  destruct (test x) eqn:Hx; [done|].
  destruct (find_index test l); [done|]. intros _. constructor; [done|by apply IH].
Qed.

Lemma find_index_lt {A : Type} (test : A -> bool) (l : list A) (k : nat) :
  find_index test l = Some k -> (k < length l)%nat.
Proof.
  intros H. destruct (find_index_Some _ _ _ H) as (x & Hx & _).
  by eapply lookup_lt_Some.
Qed.

Lemma find_index_first {A : Type} (test : A -> bool) (l : list A) (k : nat) (x : A) :
  l !! k = Some x -> test x = true ->
  (forall j y, (j < k)%nat -> l !! j = Some y -> test y = false) ->
  find_index test l = Some k.
Proof.
  revert k. induction l as [|a l IH]; intros k Hk Hx Hbefore; [done|].
  destruct k as [|k]; simpl in *.
  - injection Hk as ->. by rewrite Hx.
  - rewrite (Hbefore 0%nat a) by (done || lia).
    rewrite (IH k Hk Hx); [done|].
    intros j y Hj Hy. apply (Hbefore (S j)); [lia|done].
Qed.

Lemma find_index_absent {A : Type} (test : A -> bool) (l : list A) :
  Forall (fun x => test x = false) l -> find_index test l = None.
Proof.
  induction 1 as [|x l Hx _ IH]; [done|]. simpl. by rewrite Hx, IH.
Qed.

Lemma find_index_app_hit {A : Type} (test : A -> bool) (l r : list A) (x : A) :
  find_index test l = None -> test x = true ->
  find_index test (l ++ x :: r) = Some (length l).
Proof.
  intros Hl Hx. apply find_index_None in Hl.
  apply (find_index_first _ _ _ x).
  - by rewrite list_lookup_middle.
  - done.
  - intros j y Hj Hy. rewrite lookup_app_l in Hy by done.
    by eapply (Forall_lookup_1 _ _ j y) in Hl.
Qed.

Section ListenerListFacts.

Import ListenerList.

Variable kMaxListeners : Z.

#[local] Abbreviation wf := (ListenerList.wf kMaxListeners).
#[local] Abbreviation addListener := (ListenerList.addListener kMaxListeners).

Lemma store_field_ok (set : ListenerItem -> ListenerItem) (a : list ListenerItem)
    (i : Z) (it : ListenerItem) :
  0 <= i -> a !! Z.to_nat i = Some it ->
  store_field set a i = Ok (<[Z.to_nat i := set it]> a).
Proof.
  intros Hi Hit. unfold store_field.
  rewrite (array_get_ok _ _ it) by done. simpl.
  apply array_set_ok. apply lookup_lt_Some in Hit. lia.
Qed.

(** *** Search *)

Lemma search_loop_spec (test : ListenerItem -> bool) (a : list ListenerItem)
    (steps i : nat) :
  (i + steps <= length a)%nat ->
  search_loop test a steps (Z.of_nat i) =
    Ok (match find_index test (take steps (drop i a)) with
        | Some k => Z.of_nat (i + k)
        | None => -1
        end).
Proof.
  revert i. induction steps as [|steps IH]; intros i Hlen; simpl.
  { done. }
  destruct (lookup_lt_is_Some_2 a i) as [it Hit]; [lia|].
  rewrite (array_get_ok _ _ it) by (rewrite ?Nat2Z.id; done || lia). simpl.
  rewrite (drop_S _ _ _ Hit). simpl.
  destruct (test it).
  - do 2 f_equal. lia.
  - replace (Z.of_nat i + 1) with (Z.of_nat (S i)) by lia.
    rewrite IH by lia.
    destruct (find_index test (take steps (drop (S i) a))); simpl; [|done].
    do 2 f_equal. lia.
Qed.

Lemma searchListeners_spec (code : Z) (listener : EventListener) (l : t) :
  wf l ->
  searchListeners code listener l
    = Ok (index_or_minus1 (find_index (same_pair code listener) (live l))).
Proof.
  intros [Hs Hlen Hc Hl]. unfold searchListeners.
  change 0 with (Z.of_nat 0).
  rewrite search_loop_spec by lia.
  unfold live. rewrite drop_0. simpl.
  by destruct (find_index _ _).
Qed.

Lemma searchListeners'_spec (listener : EventListener) (l : t) :
  wf l ->
  searchListeners' listener l
    = Ok (index_or_minus1 (find_index (fun it => callback it =? listener) (live l))).
Proof.
  intros [Hs Hlen Hc Hl]. unfold searchListeners'.
  change 0 with (Z.of_nat 0).
  rewrite search_loop_spec by lia.
  unfold live. rewrite drop_0. simpl.
  by destruct (find_index _ _).
Qed.

Lemma live_length (l : t) : wf l -> length (live l) = Z.to_nat (mNumListeners l).
Proof.
  intros [Hs Hlen Hc Hl]. unfold live. rewrite length_take. lia.
Qed.

(** *** Compaction *)

Lemma copy_down_ok (a : list ListenerItem) (i : nat) (src : ListenerItem) :
  (i < length a)%nat -> a !! S i = Some src ->
  copy_down a (Z.of_nat i) = Ok (<[i := src]> a).
Proof.
  intros Hi Hsrc. unfold copy_down.
  destruct (lookup_lt_is_Some_2 a i) as [dst Hdst]; [done|].
  replace (Z.of_nat i + 1) with (Z.of_nat (S i)) by lia.
  assert (Hne : i <> S i) by lia.
  rewrite (array_get_ok _ _ src) by (rewrite ?Nat2Z.id; done || lia). simpl.
  rewrite (store_field_ok _ _ _ dst) by (rewrite ?Nat2Z.id; done || lia). simpl.
  rewrite Nat2Z.id.
  rewrite (array_get_ok _ _ src).
  2: lia.
  2: { rewrite Nat2Z.id, list_lookup_insert_ne by done. done. }
  simpl.
  rewrite (store_field_ok _ _ _ (set_callback (callback src) dst)).
  2: lia.
  2: { rewrite Nat2Z.id. by apply list_lookup_insert_eq. }
  simpl. rewrite Nat2Z.id, list_insert_insert_eq.
  rewrite (array_get_ok _ _ src).
  2: lia.
  2: { rewrite Nat2Z.id, list_lookup_insert_ne by done. done. }
  simpl.
  rewrite (store_field_ok _ _ _ (set_eventCode (eventCode src) (set_callback (callback src) dst))).
  2: lia.
  2: { rewrite Nat2Z.id. by apply list_lookup_insert_eq. }
  rewrite Nat2Z.id, list_insert_insert_eq.
  by destruct src.
Qed.

(** The loop moves the entries [i+1 .. i+steps] one place down and
    leaves the rest of the array as it was. *)
Lemma shift_down_ok (steps i : nat) (a : list ListenerItem) :
  (i + steps < length a)%nat ->
  shift_down steps (Z.of_nat i) a
    = Ok (take i a ++ take steps (drop (S i) a) ++ drop (i + steps) a).
Proof.
  revert i a. induction steps as [|steps IH]; intros i a Hlen; simpl.
  - rewrite Nat.add_0_r, take_drop. done.
  - destruct (lookup_lt_is_Some_2 a (S i)) as [src Hsrc]; [lia|].
    rewrite (copy_down_ok _ _ src) by (done || lia). simpl.
    replace (Z.of_nat i + 1) with (Z.of_nat (S i)) by lia.
    rewrite IH by (rewrite length_insert; lia). f_equal.
    rewrite (take_S_r _ i src) by (apply list_lookup_insert_eq; lia).
    rewrite take_insert_ge by lia.
    rewrite !drop_insert_lt by lia.
    rewrite (drop_S a src (S i) Hsrc). simpl.
    rewrite <- app_assoc. simpl.
    by rewrite Nat.add_succ_r.
Qed.

Lemma compacted_length (k n : nat) (a : list ListenerItem) :
  (k < n <= length a)%nat -> length (compacted k n a) = length a.
Proof.
  intros H. unfold compacted.
  rewrite !length_app, !length_take, !length_drop. lia.
Qed.

Lemma compacted_live (k n : nat) (a : list ListenerItem) :
  (k < n <= length a)%nat -> take (n - 1) (compacted k n a) = delete k (take n a).
Proof.
  intros H. unfold compacted.
  rewrite app_assoc, take_app_length'.
  2: { rewrite length_app, !length_take, length_drop. lia. }
  rewrite delete_take_drop, take_take. f_equal.
  - f_equal. lia.
  - rewrite take_drop_commute. do 2 f_equal. lia.
Qed.

Lemma shift_down_compacted (k : Z) (l : t) :
  wf l -> 0 <= k < mNumListeners l ->
  shift_down (Z.to_nat (mNumListeners l - 1 - k)) k (mListeners l)
    = Ok (compacted (Z.to_nat k) (Z.to_nat (mNumListeners l)) (mListeners l)).
Proof.
  intros [Hs Hlen Hc Hl] Hk.
  rewrite <- (Z2Nat.id k) at 2 by lia.
  rewrite shift_down_ok by lia.
  unfold compacted.
  replace (Z.to_nat (mNumListeners l) - 1 - Z.to_nat k)%nat
    with (Z.to_nat (mNumListeners l - 1 - k)) by lia.
  replace (Z.to_nat k + Z.to_nat (mNumListeners l - 1 - k))%nat
    with (Z.to_nat (mNumListeners l) - 1)%nat by lia.
  done.
Qed.

Lemma with_listeners_wf (n : Z) (a : list ListenerItem) (l : t) :
  0 < kMaxListeners ->
  Z.of_nat (length a) = kMaxListeners ->
  0 <= n <= kMaxListeners ->
  Forall (fun it => callback it <> 0) (take (Z.to_nat n) a) ->
  wf (with_listeners n a l).
Proof. intros. by constructor. Qed.

(** *** The operations on a well-formed table *)

Lemma addListener_null (code : Z) (l : t) : addListener code 0 l = Ok (false, l).
Proof. done. Qed.

Lemma addListener_full (code : Z) (listener : EventListener) (l : t) :
  mNumListeners l = kMaxListeners -> addListener code listener l = Ok (false, l).
Proof.
  intros Hf. unfold ListenerList.addListener, isFull. rewrite Hf, Z.eqb_refl.
  by destruct (listener =? 0).
Qed.

Lemma addListener_ok (code : Z) (listener : EventListener) (l : t) :
  wf l -> listener <> 0 -> mNumListeners l <> kMaxListeners ->
  addListener code listener l =
    Ok (true,
        with_listeners (mNumListeners l + 1)
          (<[Z.to_nat (mNumListeners l) :=
               {| callback := listener; eventCode := code; enabled := true |}]>
             (mListeners l)) l).
Proof.
  intros [Hs Hlen Hc Hl] Hn Hnf. unfold ListenerList.addListener, isFull.
  destruct (Z.eqb_spec listener 0) as [|_]; [done|].
  destruct (Z.eqb_spec (mNumListeners l) kMaxListeners) as [|_]; [done|].
  destruct (lookup_lt_is_Some_2 (mListeners l) (Z.to_nat (mNumListeners l)))
    as [it Hit]; [lia|].
  rewrite (store_field_ok _ _ _ it) by (done || lia). simpl.
  rewrite (store_field_ok _ _ _ (set_callback listener it)).
  2: lia.
  2: { apply list_lookup_insert_eq. lia. }
  simpl. rewrite list_insert_insert_eq.
  rewrite (store_field_ok _ _ _ (set_eventCode code (set_callback listener it))).
  2: lia.
  2: { apply list_lookup_insert_eq. lia. }
  simpl. rewrite list_insert_insert_eq. done.
Qed.

Lemma addListener_live (code : Z) (listener : EventListener) (l l' : t) :
  wf l -> addListener code listener l = Ok (true, l') ->
  listener <> 0 /\
  mNumListeners l' = mNumListeners l + 1 /\
  live l' = live l ++ [{| callback := listener; eventCode := code; enabled := true |}].
Proof.
  intros Hwf. destruct (Z.eq_dec listener 0) as [->|Hn].
  { by rewrite addListener_null. }
  destruct (Z.eq_dec (mNumListeners l) kMaxListeners) as [Hf|Hnf].
  { by rewrite addListener_full. }
  rewrite addListener_ok by done. intros [= <-].
  destruct Hwf as [Hs Hlen Hc Hl].
  split; [done|]. split; [done|]. unfold live. simpl.
  replace (Z.to_nat (mNumListeners l + 1)) with (S (Z.to_nat (mNumListeners l))) by lia.
  rewrite (take_S_r _ _ {| callback := listener; eventCode := code; enabled := true |}).
  2: { apply list_lookup_insert_eq. lia. }
  by rewrite take_insert_ge.
Qed.

Lemma addListener_wf (code : Z) (listener : EventListener) (l l' : t) (r : bool) :
  wf l -> addListener code listener l = Ok (r, l') -> wf l'.
Proof.
  intros Hwf. destruct (Z.eq_dec listener 0) as [->|Hn].
  { rewrite addListener_null. by intros [= _ <-]. }
  destruct (Z.eq_dec (mNumListeners l) kMaxListeners) as [Hf|Hnf].
  { rewrite addListener_full by done. by intros [= _ <-]. }
  intros Hadd. assert (r = true) as ->.
  { rewrite addListener_ok in Hadd by done. by injection Hadd. }
  destruct (addListener_live _ _ _ _ Hwf Hadd) as (_ & Hcount & Hlive).
  rewrite addListener_ok in Hadd by done. injection Hadd as <-.
  destruct Hwf as [Hs Hlen Hc Hl].
  constructor; simpl; try lia.
  - rewrite length_insert. done.
  - rewrite Hlive. apply Forall_app. split; [done|]. by repeat constructor.
Qed.

Lemma removeListener_spec (code : Z) (listener : EventListener) (l : t) :
  wf l ->
  removeListener code listener l =
    match find_index (same_pair code listener) (live l) with
    | Some k =>
        Ok (true,
            with_listeners (mNumListeners l - 1)
              (compacted k (Z.to_nat (mNumListeners l)) (mListeners l)) l)
    | None => Ok (false, l)
    end.
Proof.
  intros Hwf. unfold removeListener.
  rewrite searchListeners_spec by done. simpl.
  destruct (Z.eqb_spec (mNumListeners l) 0) as [Hz|Hnz].
  { unfold live. rewrite Hz. simpl. done. }
  destruct (find_index _ _) as [k|] eqn:Hfind; simpl; [|done].
  apply find_index_lt in Hfind. rewrite live_length in Hfind by done.
  destruct (Z.ltb_spec (Z.of_nat k) 0) as [|_]; [lia|].
  rewrite shift_down_compacted by (done || lia). simpl.
  by rewrite Nat2Z.id.
Qed.

Lemma removed_wf (k : nat) (l : t) :
  wf l -> (k < Z.to_nat (mNumListeners l))%nat ->
  wf (with_listeners (mNumListeners l - 1)
        (compacted k (Z.to_nat (mNumListeners l)) (mListeners l)) l) /\
  live (with_listeners (mNumListeners l - 1)
          (compacted k (Z.to_nat (mNumListeners l)) (mListeners l)) l)
    = delete k (live l).
Proof.
  intros [Hs Hlen Hc Hl] Hk.
  assert (Hlive : take (Z.to_nat (mNumListeners l - 1))
                    (compacted k (Z.to_nat (mNumListeners l)) (mListeners l))
                  = delete k (live l)).
  { replace (Z.to_nat (mNumListeners l - 1)) with (Z.to_nat (mNumListeners l) - 1)%nat by lia.
    apply compacted_live. lia. }
  split; [|done].
  apply with_listeners_wf; try lia.
  - rewrite compacted_length by lia. done.
  - rewrite Hlive. by apply Forall_delete.
Qed.

(** Removing the first match: the count drops by one, the live entries
    lose exactly that one, and the default listener is untouched. *)
Lemma removeListener_found (code : Z) (listener : EventListener) (l : t) (k : nat) :
  wf l -> find_index (same_pair code listener) (live l) = Some k ->
  exists l',
    removeListener code listener l = Ok (true, l') /\
    wf l' /\
    mNumListeners l' = mNumListeners l - 1 /\
    live l' = delete k (live l) /\
    mDefaultCallback l' = mDefaultCallback l /\
    mDefaultCallbackEnabled l' = mDefaultCallbackEnabled l.
Proof.
  intros Hwf Hfind. rewrite removeListener_spec, Hfind by done.
  apply find_index_lt in Hfind. rewrite live_length in Hfind by done.
  destruct (removed_wf k l Hwf Hfind) as [Hwf' Hlive].
  eexists. split; [done|]. split; [done|]. split; [done|]. split; [done|]. done.
Qed.

Lemma removeListener_absent (code : Z) (listener : EventListener) (l : t) :
  wf l -> find_index (same_pair code listener) (live l) = None ->
  removeListener code listener l = Ok (false, l).
Proof. intros Hwf Hfind. by rewrite removeListener_spec, Hfind. Qed.

Lemma addListener_inv (code : Z) (listener : EventListener) (l l' : t) :
  wf l -> addListener code listener l = Ok (true, l') ->
  wf l' /\
  live l' = live l ++ [{| callback := listener; eventCode := code; enabled := true |}].
Proof.
  intros Hwf Hadd. split.
  - by eapply addListener_wf.
  - by apply (addListener_live _ _ _ _ Hwf Hadd).
Qed.

(** Registering a pair twice and removing it twice restores the live
    entries; a third removal finds nothing. *)
Lemma register_twice_remove_twice (code : Z) (listener : EventListener) (l l1 l2 : t) :
  wf l -> find_index (same_pair code listener) (live l) = None ->
  addListener code listener l = Ok (true, l1) ->
  addListener code listener l1 = Ok (true, l2) ->
  exists l3 l4,
    removeListener code listener l2 = Ok (true, l3) /\
    removeListener code listener l3 = Ok (true, l4) /\
    live l4 = live l /\
    removeListener code listener l4 = Ok (false, l4).
Proof.
  intros Hwf Hnone Hadd1 Hadd2.
  destruct (addListener_inv _ _ _ _ Hwf Hadd1) as [Hwf1 Hlive1].
  destruct (addListener_inv _ _ _ _ Hwf1 Hadd2) as [Hwf2 Hlive2].
  set (it := {| callback := listener; eventCode := code; enabled := true |}) in *.
  assert (Hit : same_pair code listener it = true).
  { unfold same_pair. simpl. by rewrite !Z.eqb_refl. }
  rewrite Hlive1, <- app_assoc in Hlive2. simpl in Hlive2.
  destruct (removeListener_found code listener l2 (length (live l)) Hwf2)
    as (l3 & Hrm3 & Hwf3 & _ & Hlive3 & _).
  { rewrite Hlive2. by apply find_index_app_hit. }
  rewrite Hlive2, delete_middle in Hlive3.
  destruct (removeListener_found code listener l3 (length (live l)) Hwf3)
    as (l4 & Hrm4 & Hwf4 & _ & Hlive4 & _).
  { rewrite Hlive3. by apply find_index_app_hit. }
  rewrite Hlive3, delete_middle, app_nil_r in Hlive4.
  exists l3, l4. split; [done|]. split; [done|]. split; [done|].
  apply removeListener_absent; [done|]. by rewrite Hlive4.
Qed.

Lemma removeListener_wf (code : Z) (listener : EventListener) (l l' : t) (r : bool) :
  wf l -> removeListener code listener l = Ok (r, l') -> wf l'.
Proof.
  intros Hwf. rewrite removeListener_spec by done.
  destruct (find_index _ _) as [k|] eqn:Hfind.
  - intros [= _ <-]. apply removed_wf; [done|].
    apply find_index_lt in Hfind. by rewrite live_length in Hfind.
  - by intros [= _ <-].
Qed.

Lemma removeListener_returns (code : Z) (listener : EventListener) (l : t) :
  wf l -> exists r l', removeListener code listener l = Ok (r, l').
Proof.
  intros Hwf. rewrite removeListener_spec by done.
  destruct (find_index _ _); eauto.
Qed.

(** The bound given to the [while] loop of [removeListener( listener )]
    is never exhausted, in any state of the table. *)
Lemma search_loop_found (test : ListenerItem -> bool) (a : list ListenerItem)
    (steps : nat) (i k : Z) :
  search_loop test a steps i = Ok k -> 0 <= k -> (0 < steps)%nat.
Proof. destruct steps; simpl; [intros [= <-]|]; lia. Qed.

Lemma bind_fuel {A B : Type} (m : outcome A) (k : A -> outcome B) :
  m <> OutOfFuel -> (forall a, k a <> OutOfFuel) -> bind m k <> OutOfFuel.
Proof. destruct m; simpl; auto. Qed.

Lemma array_get_fuel {A : Type} (a : list A) (i : Z) : array_get a i <> OutOfFuel.
Proof. unfold array_get. destruct (0 <=? i); [|done]. by destruct (a !! Z.to_nat i). Qed.

Lemma array_set_fuel {A : Type} (a : list A) (i : Z) (x : A) : array_set a i x <> OutOfFuel.
Proof. unfold array_set. by destruct (_ && _). Qed.

Lemma store_field_fuel (set : ListenerItem -> ListenerItem) (a : list ListenerItem) (i : Z) :
  store_field set a i <> OutOfFuel.
Proof.
  apply bind_fuel; [apply array_get_fuel|]. intros it. apply array_set_fuel.
Qed.

Lemma shift_down_fuel (steps : nat) (i : Z) (a : list ListenerItem) :
  shift_down steps i a <> OutOfFuel.
Proof.
  revert i a. induction steps as [|steps IH]; intros i a; simpl; [done|].
  apply bind_fuel; [|intros a'; apply IH].
  unfold copy_down.
  apply bind_fuel; [apply array_get_fuel|intros src1].
  apply bind_fuel; [apply store_field_fuel|intros a1].
  apply bind_fuel; [apply array_get_fuel|intros src2].
  apply bind_fuel; [apply store_field_fuel|intros a2].
  apply bind_fuel; [apply array_get_fuel|intros src3].
  apply store_field_fuel.
Qed.

Lemma search_loop_fuel (test : ListenerItem -> bool) (a : list ListenerItem)
    (steps : nat) (i : Z) :
  search_loop test a steps i <> OutOfFuel.
Proof.
  revert i. induction steps as [|steps IH]; intros i; simpl; [done|].
  apply bind_fuel; [apply array_get_fuel|]. intros it. destruct (test it); [done|apply IH].
Qed.

Lemma remove_all_loop_fuel (fuel : nat) (listener : EventListener) (removed : Z) (l : t) :
  (Z.to_nat (mNumListeners l) < fuel)%nat ->
  remove_all_loop fuel listener removed l <> OutOfFuel.
Proof.
  revert removed l. induction fuel as [|fuel IH]; intros removed l Hfuel; [lia|].
  simpl. unfold searchListeners'.
  destruct (search_loop _ _ _ _) as [k| |] eqn:Hsearch; simpl; [|done|].
  - destruct (Z.leb_spec 0 k) as [Hk|_]; [|done].
    apply search_loop_found in Hsearch; [|done].
    apply bind_fuel; [apply shift_down_fuel|].
    intros a. apply IH. simpl. lia.
  - by apply search_loop_fuel in Hsearch.
Qed.

(** In a well-formed table the loop returns and keeps the table well
    formed. *)
Lemma remove_all_loop_ok (fuel : nat) (listener : EventListener) (removed : Z) (l : t) :
  wf l -> (Z.to_nat (mNumListeners l) < fuel)%nat ->
  exists removed' l', remove_all_loop fuel listener removed l = Ok (removed', l') /\ wf l'.
Proof.
  revert removed l. induction fuel as [|fuel IH]; intros removed l Hwf Hfuel; [lia|].
  simpl. rewrite searchListeners'_spec by done. simpl.
  destruct (find_index _ _) as [k|] eqn:Hfind; simpl.
  - apply find_index_lt in Hfind. rewrite live_length in Hfind by done.
    destruct (Z.leb_spec 0 (Z.of_nat k)) as [_|]; [|lia].
    assert (Hc : 0 <= mNumListeners l) by (destruct Hwf; lia).
    rewrite shift_down_compacted by (done || lia). simpl.
    rewrite Nat2Z.id. apply IH.
    + by apply removed_wf.
    + simpl. lia.
  - eauto.
Qed.

Lemma removeListener'_ok (listener : EventListener) (l : t) :
  wf l -> exists removed l', removeListener' listener l = Ok (removed, l') /\ wf l'.
Proof.
  intros Hwf. unfold removeListener'.
  destruct (mNumListeners l =? 0); [eauto|].
  apply remove_all_loop_ok; [done|lia].
Qed.

Lemma enableListener_spec (code : Z) (listener : EventListener) (enable : bool) (l : t) :
  wf l ->
  enableListener code listener enable l =
    match find_index (same_pair code listener) (live l) with
    | Some k =>
        match mListeners l !! k with
        | Some it =>
            Ok (true,
                with_listeners (mNumListeners l)
                  (<[k := set_enabled enable it]> (mListeners l)) l)
        | None => Undefined
        end
    | None => Ok (false, l)
    end.
Proof.
  intros Hwf. unfold enableListener.
  rewrite searchListeners_spec by done. simpl.
  destruct (Z.eqb_spec (mNumListeners l) 0) as [Hz|Hnz].
  { unfold live. rewrite Hz. simpl. done. }
  destruct (find_index _ _) as [k|] eqn:Hfind; simpl; [|done].
  apply find_index_lt in Hfind. rewrite live_length in Hfind by done.
  destruct (Z.ltb_spec (Z.of_nat k) 0) as [|_]; [lia|].
  destruct Hwf as [Hs Hlen Hc Hl].
  destruct (lookup_lt_is_Some_2 (mListeners l) k) as [it Hit]; [lia|].
  rewrite Hit.
  rewrite (store_field_ok _ _ _ it) by (rewrite ?Nat2Z.id; done || lia). simpl.
  by rewrite Nat2Z.id.
Qed.

Lemma enableListener_ok (code : Z) (listener : EventListener) (enable : bool) (l : t) :
  wf l -> exists r l', enableListener code listener enable l = Ok (r, l') /\ wf l'.
Proof.
  intros Hwf. rewrite enableListener_spec by done.
  destruct (find_index _ _) as [k|] eqn:Hfind; [|eauto].
  apply find_index_lt in Hfind. rewrite live_length in Hfind by done.
  destruct Hwf as [Hs Hlen Hc Hl].
  destruct (lookup_lt_is_Some_2 (mListeners l) k) as [it Hit]; [lia|].
  rewrite Hit. eexists _, _. split; [done|].
  constructor; simpl; try lia.
  - by rewrite length_insert.
  - unfold live. simpl. rewrite take_insert_lt by lia.
    apply Forall_insert; [done|]. simpl.
    eapply (Forall_lookup_1 _ _ k it) in Hl; [done|].
    unfold live. by rewrite lookup_take_lt by lia.
Qed.

Lemma ListenerList_ctor_wf (junk : nat -> ListenerItem) (junk_enabled : bool) :
  0 < kMaxListeners -> wf (ListenerList.ListenerList kMaxListeners junk junk_enabled).
Proof.
  intros Hs. constructor; simpl; try lia.
  - rewrite length_map, length_seq. lia.
  - unfold live. simpl. constructor.
Qed.

Lemma setDefaultListener_wf (listener : EventListener) (l : t) :
  wf l -> wf (setDefaultListener listener l).2.
Proof.
  intros [Hs Hlen Hc Hl]. unfold setDefaultListener.
  destruct (listener =? 0); by constructor.
Qed.

Lemma removeDefaultListener_wf (l : t) : wf l -> wf (removeDefaultListener l).
Proof. intros [Hs Hlen Hc Hl]. by constructor. Qed.

Lemma enableDefaultListener_wf (enable : bool) (l : t) :
  wf l -> wf (enableDefaultListener enable l).
Proof. intros [Hs Hlen Hc Hl]. by constructor. Qed.

(** *** Dispatch *)

Section SendEvent.

Variable W : Type.
Variable registry : W -> t.
Variable invoke : EventListener -> Z -> Z -> W -> W.

#[local] Abbreviation sendEvent_loop := (ListenerList.sendEvent_loop W registry invoke).
#[local] Abbreviation sendEvent := (ListenerList.sendEvent kMaxListeners W registry invoke).

#[local] Abbreviation invoke_all := (ListenerList.invoke_all W invoke).

(** Whatever the listeners do, a dispatch that returns has called a
    sequence of non-null listeners and reports how many. *)
Lemma sendEvent_loop_calls (steps : nat) (i code param h : Z) (w w' : W) (n : Z) :
  sendEvent_loop steps i code param h w = Ok (n, w') ->
  exists listeners,
    w' = invoke_all code param w listeners /\
    n = h + Z.of_nat (length listeners) /\
    Forall (fun listener => listener <> 0) listeners.
Proof.
  revert i h w. induction steps as [|steps IH]; intros i h w; simpl.
  - destruct (i <? _); [done|]. intros [= <- <-].
    exists []. split; [done|]. split; [simpl; lia|constructor].
  - destruct (i <? _).
    2: { intros [= <- <-]. exists []. split; [done|]. split; [simpl; lia|constructor]. }
    intros H. apply bind_Ok_inv in H as (it & _ & H).
    destruct (Z.eqb_spec (callback it) 0) as [|Hnz]; simpl in H.
    { apply IH in H. done. }
    destruct ((eventCode it =? code) && enabled it).
    + apply IH in H as (listeners & -> & -> & Hall).
      exists (callback it :: listeners).
      split; [done|]. split; [simpl; lia|by constructor].
    + by apply IH in H.
Qed.

Lemma sendEvent_calls (code param : Z) (w w' : W) (n : Z) :
  sendEvent code param w = Ok (n, w') ->
  exists listeners,
    w' = invoke_all code param w listeners /\
    n = Z.of_nat (length listeners) /\
    Forall (fun listener => listener <> 0) listeners.
Proof.
  unfold ListenerList.sendEvent. intros H.
  apply bind_Ok_inv in H as ([h w1] & Hloop & H).
  apply sendEvent_loop_calls in Hloop as (listeners & -> & -> & Hall).
  destruct (Z.eqb_spec (0 + Z.of_nat (length listeners)) 0) as [Hz|Hnz].
  - assert (listeners = []) as -> by (destruct listeners; [done|simpl in Hz; lia]).
    simpl in H.
    destruct (Z.eqb_spec (mDefaultCallback (registry w)) 0) as [|Hd]; simpl in H.
    { injection H as <- <-. exists []. by repeat split. }
    destruct (mDefaultCallbackEnabled (registry w)).
    + injection H as <- <-. exists [mDefaultCallback (registry w)].
      split; [done|]. split; [done|]. by repeat constructor.
    + injection H as <- <-. exists []. by repeat split.
  - injection H as <- <-. exists listeners. split; [done|]. split; [lia|done].
Qed.

(** Listeners that keep an invariant [P] of the enclosing state, one
    that implies a well-formed table, cannot make the scan fail. *)
Section Preserving.

Variable P : W -> Prop.
Hypothesis P_wf : forall w, P w -> wf (registry w).
Hypothesis P_invoke : forall listener code param w, P w -> P (invoke listener code param w).

Lemma sendEvent_loop_returns (steps i : nat) (code param h : Z) (w : W) :
  P w -> Z.of_nat (i + steps) = kMaxListeners ->
  exists n w', sendEvent_loop steps (Z.of_nat i) code param h w = Ok (n, w') /\ P w'.
Proof.
  revert i h w. induction steps as [|steps IH]; intros i h w HP Hi.
  - simpl. destruct (P_wf w HP) as [Hs Hlen Hc Hl].
    destruct (Z.ltb_spec (Z.of_nat i) (mNumListeners (registry w))); [lia|eauto].
  - simpl. destruct (P_wf w HP) as [Hs Hlen Hc Hl].
    destruct (Z.ltb_spec (Z.of_nat i) (mNumListeners (registry w))); [|eauto].
    destruct (lookup_lt_is_Some_2 (mListeners (registry w)) i) as [it Hit]; [lia|].
    rewrite (array_get_ok _ _ it) by (rewrite ?Nat2Z.id; done || lia). simpl.
    replace (Z.of_nat i + 1) with (Z.of_nat (S i)) by lia.
    destruct (negb (callback it =? 0) && (eventCode it =? code) && enabled it).
    + apply IH; [by apply P_invoke|lia].
    + apply IH; [done|lia].
Qed.

Lemma sendEvent_returns (code param : Z) (w : W) :
  P w -> exists n w', sendEvent code param w = Ok (n, w') /\ P w'.
Proof.
  intros HP. unfold ListenerList.sendEvent.
  destruct (sendEvent_loop_returns (Z.to_nat kMaxListeners) 0 code param 0 w HP)
    as (n & w1 & Hloop & HP1).
  { destruct (P_wf w HP). lia. }
  change (Z.of_nat 0) with 0 in Hloop. rewrite Hloop. simpl.
  destruct (n =? 0); [|eauto].
  destruct (negb _ && _); [|eauto].
  eexists _, _. split; [done|]. by apply P_invoke.
Qed.

End Preserving.

(** Listeners that leave the table as it is: the scan calls exactly the
    listeners that the specification names. *)
Section Fixed.

Hypothesis invoke_registry :
  forall listener code param w, registry (invoke listener code param w) = registry w.

Lemma sendEvent_loop_fixed (steps i : nat) (code param h : Z) (w : W) :
  wf (registry w) -> Z.of_nat (i + steps) = kMaxListeners ->
  let listeners :=
    callback <$>
      List.filter (fun it => (eventCode it =? code) && enabled it)
        (drop i (live (registry w))) in
  sendEvent_loop steps (Z.of_nat i) code param h w
    = Ok (h + Z.of_nat (length listeners), invoke_all code param w listeners).
Proof.
  revert i h w. induction steps as [|steps IH]; intros i h w Hwf Hi listeners.
  - simpl. destruct Hwf as [Hs Hlen Hc Hl].
    destruct (Z.ltb_spec (Z.of_nat i) (mNumListeners (registry w))); [lia|].
    subst listeners. rewrite drop_ge by (unfold live; rewrite length_take; lia).
    simpl. by rewrite Z.add_0_r.
  - simpl. pose proof Hwf as [Hs Hlen Hc Hl].
    destruct (Z.ltb_spec (Z.of_nat i) (mNumListeners (registry w))).
    2: { subst listeners. rewrite drop_ge by (unfold live; rewrite length_take; lia).
         simpl. by rewrite Z.add_0_r. }
    destruct (lookup_lt_is_Some_2 (mListeners (registry w)) i) as [it Hit]; [lia|].
    rewrite (array_get_ok _ _ it) by (rewrite ?Nat2Z.id; done || lia). simpl.
    replace (Z.of_nat i + 1) with (Z.of_nat (S i)) by lia.
    assert (Hlive : live (registry w) !! i = Some it).
    { unfold live. rewrite lookup_take_lt by lia. done. }
    assert (Hcb : callback it <> 0) by (by eapply (Forall_lookup_1 _ _ i it) in Hl).
    subst listeners. rewrite (drop_S _ _ _ Hlive). simpl.
    destruct (Z.eqb_spec (callback it) 0) as [|_]; [done|]. simpl.
    destruct ((eventCode it =? code) && enabled it); simpl.
    + rewrite IH by (rewrite ?invoke_registry; done || lia).
      rewrite invoke_registry. do 2 f_equal.
      rewrite Nat2Z.inj_succ. unfold fmap. lia.
    + by rewrite IH by (done || lia).
Qed.

Lemma sendEvent_fixed (code param : Z) (w : W) :
  wf (registry w) ->
  sendEvent code param w
    = Ok (Z.of_nat (length (spec_dispatch code (registry w))),
          invoke_all code param w (spec_dispatch code (registry w))).
Proof.
  intros Hwf. unfold ListenerList.sendEvent.
  pose proof (sendEvent_loop_fixed (Z.to_nat kMaxListeners) 0 code param 0 w Hwf) as Hloop.
  change (Z.of_nat 0) with 0 in Hloop. cbv zeta in Hloop.
  rewrite Hloop by (destruct Hwf; lia). clear Hloop.
  rewrite drop_0. simpl. fold (spec_matching code (registry w)).
  unfold spec_dispatch, spec_default.
  destruct (spec_matching code (registry w)) as [|x listeners] eqn:Hm.
  - simpl. destruct (negb _ && _); done.
  - destruct (Z.eqb_spec (Z.of_nat (length (x :: listeners))) 0) as [Hz|_]; [|done].
    simpl in Hz. lia.
Qed.

End Fixed.

End SendEvent.

End ListenerListFacts.

(** ** The dispatcher *)

Section EventManagerFacts.

Import EventManager.

Variable kEventQueueSize : Z.
Variable kMaxListeners : Z.
Variable run : ListenerList.EventListener -> Z -> Z -> t -> t.

#[local] Abbreviation invoke := (EventManager.invoke run).
#[local] Abbreviation sendEvent := (EventManager.sendEvent kMaxListeners run).
#[local] Abbreviation popEvent := (EventManager.popEvent kEventQueueSize).
#[local] Abbreviation processEvent :=
  (EventManager.processEvent kEventQueueSize kMaxListeners run).
#[local] Abbreviation invoke_all := (ListenerList.invoke_all world invoke).

Lemma queue_of_with_queue (pri : EventPriority) (q : EventQueue.t) (m : t) :
  queue_of pri (with_queue pri q m) = q.
Proof. by destruct pri. Qed.

Lemma with_queue_same (pri : EventPriority) (m : t) :
  with_queue pri (queue_of pri m) m = m.
Proof. by destruct pri, m. Qed.

Lemma mListeners_with_queue (pri : EventPriority) (q : EventQueue.t) (m : t) :
  mListeners (with_queue pri q m) = mListeners m.
Proof. by destruct pri. Qed.

Lemma trace_invoke_all (code param : Z) (w : world)
    (listeners : list ListenerList.EventListener) :
  trace (invoke_all code param w listeners) = trace w ++ calls code param listeners.
Proof.
  revert w. induction listeners as [|x listeners IH]; intros w; simpl.
  - by rewrite app_nil_r.
  - etrans; [apply (IH (invoke x code param w))|].
    simpl. by rewrite <- app_assoc.
Qed.

(** A dispatch that returns has extended the history by calls of
    non-null listeners, as many as it reports. *)
Lemma sendEvent_trace (code param : Z) (w w' : world) (n : Z) :
  sendEvent code param w = Ok (n, w') ->
  exists listeners,
    trace w' = trace w ++ calls code param listeners /\
    n = Z.of_nat (length listeners) /\
    Forall (fun listener => listener <> 0) listeners.
Proof.
  intros H. apply sendEvent_calls in H as (listeners & -> & -> & Hall).
  exists listeners. split; [apply trace_invoke_all|done].
Qed.

Lemma popEvent_trace (pri : EventPriority) (c p c' p' : int_cell) (r : bool) (w w' : world) :
  popEvent pri c p w = Ok (r, c', p', w') ->
  trace w' = trace w ++ [PopEvent pri (popped r c' p')] /\
  ((r = false /\ popped r c' p' = None /\
    EventQueue.mNumEvents (queue_of pri (manager w)) = 0 /\
    c' = c /\ p' = p /\ manager w' = manager w) \/
   (r = true /\ EventQueue.mNumEvents (queue_of pri (manager w)) <> 0 /\
    exists e,
      EventQueue.mEventQueue (queue_of pri (manager w))
        !! Z.to_nat (EventQueue.mEventQueueHead (queue_of pri (manager w))) = Some e /\
      c' = Some (EventQueue.code e) /\ p' = Some (EventQueue.param e) /\
      popped r c' p' = Some (EventQueue.event_pair e))).
Proof.
  unfold EventManager.popEvent. intros H.
  apply bind_Ok_inv in H as ([[[r1 c1] p1] q1] & Hpop & [= <- <- <- <-]).
  split; [done|].
  apply popEvent_inv in Hpop
    as [(-> & He & -> & -> & ->)|(-> & Hne & _ & e & He & -> & ->)].
  - left. simpl. by rewrite with_queue_same.
  - right. split; [done|]. split; [done|]. exists e. done.
Qed.

(** The [if] that follows each [popEvent] in [processEvent]. *)
Lemma dispatch_popped_trace (pri : EventPriority) (c0 p0 c p : int_cell) (r : bool)
    (w0 w w' : world) (n : Z) :
  popEvent pri c0 p0 w0 = Ok (r, c, p, w) ->
  (if r then
     do code <- read_cell c;
     do param <- read_cell p;
     sendEvent code param w
   else Ok (0, w)) = Ok (n, w') ->
  exists listeners,
    trace w' = trace w0 ++ attempt pri (popped r c p) listeners /\
    n = Z.of_nat (length listeners) /\
    Forall (fun listener => listener <> 0) listeners /\
    (popped r c p = None -> listeners = []).
Proof.
  intros Hpop H. apply popEvent_trace in Hpop as [Htr Hcases].
  destruct Hcases as [(-> & Hnone & _)|(-> & _ & e & _ & -> & -> & Hsome)].
  - injection H as <- <-. exists []. rewrite Htr, Hnone. by repeat split.
  - simpl in H. apply sendEvent_trace in H as (listeners & Htr' & -> & Hall).
    exists listeners. rewrite Htr', Htr. simpl. rewrite <- app_assoc.
    split; [done|]. split; [done|]. split; [done|]. done.
Qed.

(** The shape of the history of one [processEvent]: an attempt on the
    high-priority queue, followed by an attempt on the low-priority
    queue exactly when the first attempt called no listener. *)
Lemma processEvent_shape (w w' : world) (n : Z) :
  processEvent w = Ok (n, w') ->
  exists (popped1 : option (Z * Z)) (listeners1 : list ListenerList.EventListener),
    (popped1 = None <-> EventQueue.mNumEvents (mHighPriorityQueue (manager w)) = 0) /\
    (forall e,
       EventQueue.mNumEvents (mHighPriorityQueue (manager w)) <> 0 ->
       EventQueue.mEventQueue (mHighPriorityQueue (manager w))
         !! Z.to_nat (EventQueue.mEventQueueHead (mHighPriorityQueue (manager w))) = Some e ->
       popped1 = Some (EventQueue.event_pair e)) /\
    (popped1 = None -> listeners1 = []) /\
    Forall (fun listener => listener <> 0) listeners1 /\
    ((listeners1 = [] /\
      exists popped2 listeners2,
        trace w' = trace w ++ attempt kHighPriority popped1 []
                           ++ attempt kLowPriority popped2 listeners2 /\
        n = Z.of_nat (length listeners2) /\
        (popped2 = None -> listeners2 = []) /\
        Forall (fun listener => listener <> 0) listeners2) \/
     (listeners1 <> [] /\
      trace w' = trace w ++ attempt kHighPriority popped1 listeners1 /\
      n = Z.of_nat (length listeners1))).
Proof.
  unfold EventManager.processEvent. intros H.
  apply bind_Ok_inv in H as ([[[r1 c1] p1] w1] & Hpop1 & H).
  apply bind_Ok_inv in H as ([h1 w2] & Hsend1 & H).
  destruct (dispatch_popped_trace _ _ _ _ _ _ _ _ _ _ Hpop1 Hsend1)
    as (listeners1 & Htr1 & -> & Hall1 & Hnone1).
  exists (popped r1 c1 p1), listeners1.
  pose proof (popEvent_trace _ _ _ _ _ _ _ _ Hpop1) as [_ Hcases].
  split; [|split; [|split; [done|split; [done|]]]].
  - destruct Hcases as [(_ & -> & He & _)|(_ & Hne & e & _ & _ & _ & ->)]; simpl in *.
    + done.
    + split; [done|]. intros He. done.
  - intros e Hne He.
    destruct Hcases as [(_ & _ & Hz & _)|(_ & _ & e' & He' & _ & _ & ->)]; simpl in *.
    + done.
    + congruence.
  - destruct listeners1 as [|x listeners1]; simpl in H.
    + left. split; [done|].
      apply bind_Ok_inv in H as ([[[r2 c2] p2] w3] & Hpop2 & H).
      assert (Hsend2 :
        (if r2 then
           do code <- read_cell c2;
           do param <- read_cell p2;
           sendEvent code param w3
         else Ok (0, w3)) = Ok (n, w')).
      { by destruct r2. }
      destruct (dispatch_popped_trace _ _ _ _ _ _ _ _ _ _ Hpop2 Hsend2)
        as (listeners2 & Htr2 & -> & Hall2 & Hnone2).
      exists (popped r2 c2 p2), listeners2.
      rewrite Htr2, Htr1, <- app_assoc. done.
    + right. injection H as <- <-. done.
Qed.

(** *** Listeners that leave the dispatcher alone *)

#[local] Abbreviation drain := (EventManager.drain kEventQueueSize kMaxListeners run).

Section RunIdentity.

Hypothesis run_id : forall listener code param m, run listener code param m = m.

Lemma manager_invoke_all (code param : Z) (w : world)
    (listeners : list ListenerList.EventListener) :
  manager (invoke_all code param w listeners) = manager w.
Proof.
  revert w. induction listeners as [|x listeners IH]; intros w; [done|].
  simpl. etrans; [apply (IH (invoke x code param w))|]. simpl. apply run_id.
Qed.

Lemma sendEvent_run_id (code param : Z) (m : t) (tr : list action) :
  ListenerList.wf kMaxListeners (mListeners m) ->
  sendEvent code param {| manager := m; trace := tr |}
    = Ok (Z.of_nat (length (spec_dispatch code (mListeners m))),
          {| manager := m;
             trace := tr ++ calls code param (spec_dispatch code (mListeners m)) |}).
Proof.
  intros Hwf. unfold EventManager.sendEvent.
  rewrite (sendEvent_fixed kMaxListeners world (fun w => mListeners (manager w)) invoke).
  - simpl. do 2 f_equal.
    pose proof (manager_invoke_all code param {| manager := m; trace := tr |}
                  (spec_dispatch code (mListeners m))) as Hm.
    pose proof (trace_invoke_all code param {| manager := m; trace := tr |}
                  (spec_dispatch code (mListeners m))) as Ht.
    destruct (invoke_all _ _ _ _) as [m' tr']. simpl in *. by subst.
  - intros listener c p w. simpl. by rewrite run_id.
  - done.
Qed.

Lemma with_queue_with_queue (pri : EventPriority) (q1 q2 : EventQueue.t) (m : t) :
  with_queue pri q2 (with_queue pri q1 m) = with_queue pri q2 m.
Proof. by destruct pri. Qed.



End RunIdentity.

(** *** Invariants

    The lemmas of this part hold for every invariant [Q] of a queue that
    implies its bounds and that the constructor establishes and the two
    queue operations keep: for the bounds themselves and for the
    data-model invariant. *)

Section Invariants.

Variable Q : EventQueue.t -> Prop.
Hypothesis Q_bounded : forall q, Q q -> EventQueue.bounded kEventQueueSize q.
Hypothesis Q_ctor :
  forall beSafe, 0 < kEventQueueSize -> Q (EventQueue.EventQueue kEventQueueSize beSafe).
Hypothesis Q_queueEvent :
  forall q q' c p r,
    Q q -> EventQueue.queueEvent kEventQueueSize c p q = Ok (r, q') -> Q q'.
Hypothesis Q_popEvent :
  forall q q' c p c' p' r,
    Q q -> EventQueue.popEvent kEventQueueSize c p q = Ok (r, c', p', q') -> Q q'.

#[local] Abbreviation invariant := (EventManager.invariant_with kMaxListeners Q).
#[local] Abbreviation perform := (EventManager.perform kEventQueueSize kMaxListeners run).

Lemma EventManager_ctor_invariant (safety : SafetyMode)
    (junk : nat -> ListenerList.ListenerItem) (junk_enabled : bool) :
  0 < kEventQueueSize -> 0 < kMaxListeners ->
  invariant (EventManager.EventManager kEventQueueSize kMaxListeners safety junk junk_enabled).
Proof.
  intros Hq Hl. constructor; simpl.
  - by apply Q_ctor.
  - by apply Q_ctor.
  - by apply ListenerList_ctor_wf.
Qed.

Lemma with_queue_invariant (pri : EventPriority) (q : EventQueue.t) (m : t) :
  invariant m -> Q q -> invariant (with_queue pri q m).
Proof. intros [Hh Hl Hr] Hq. by destruct pri; constructor. Qed.

Lemma with_listeners_invariant (l : ListenerList.t) (m : t) :
  invariant m -> ListenerList.wf kMaxListeners l -> invariant (with_listeners l m).
Proof. intros [Hh Hl Hr] Hwf. by constructor. Qed.

Lemma queue_of_invariant (pri : EventPriority) (m : t) :
  invariant m -> Q (queue_of pri m).
Proof. intros [Hh Hl Hr]. by destruct pri. Qed.

Lemma on_listeners_invariant {A : Type}
    (f : ListenerList.t -> outcome (A * ListenerList.t)) (m : t) :
  invariant m ->
  (exists r l, f (mListeners m) = Ok (r, l) /\ ListenerList.wf kMaxListeners l) ->
  exists r m', on_listeners f m = Ok (r, m') /\ invariant m'.
Proof.
  intros Hinv (r & l & Hf & Hwf). unfold on_listeners. rewrite Hf. simpl.
  eexists _, _. split; [done|]. by apply with_listeners_invariant.
Qed.

Lemma queueEvent_invariant (code param : Z) (pri : EventPriority) (m : t) :
  invariant m ->
  exists r m',
    EventManager.queueEvent kEventQueueSize code param pri m = Ok (r, m') /\ invariant m'.
Proof.
  intros Hinv. unfold EventManager.queueEvent.
  pose proof (queue_of_invariant pri m Hinv) as Hq.
  destruct (queueEvent_bounded _ _ code param (Q_bounded _ Hq)) as (r & q' & Hqueue & _).
  rewrite Hqueue. simpl. eexists _, _. split; [done|].
  apply with_queue_invariant; [done|]. by eapply Q_queueEvent.
Qed.

Lemma popEvent_invariant (pri : EventPriority) (c p : int_cell) (w : world) :
  invariant (manager w) ->
  exists r c' p' w', popEvent pri c p w = Ok (r, c', p', w') /\ invariant (manager w').
Proof.
  intros Hinv. unfold EventManager.popEvent.
  pose proof (queue_of_invariant pri _ Hinv) as Hq.
  destruct (popEvent_bounded _ _ c p (Q_bounded _ Hq)) as (r & c' & p' & q' & Hpop & _).
  rewrite Hpop. simpl. eexists _, _, _, _. split; [done|].
  apply with_queue_invariant; [done|]. by eapply Q_popEvent.
Qed.

Section RunPreserves.

Hypothesis run_invariant :
  forall listener code param m, invariant m -> invariant (run listener code param m).

Lemma sendEvent_invariant (code param : Z) (w : world) :
  invariant (manager w) ->
  exists n w', sendEvent code param w = Ok (n, w') /\ invariant (manager w').
Proof.
  intros Hinv.
  apply (sendEvent_returns kMaxListeners world (fun w => mListeners (manager w)) invoke
           (fun w => invariant (manager w))); [| |done].
  - by intros w0 [].
  - intros listener c p w0 H0. by apply run_invariant.
Qed.

(** [popEvent] followed by the dispatch of what it yielded. *)
Lemma pop_dispatch_invariant (pri : EventPriority) (c p : int_cell) (h : Z) (w : world) :
  invariant (manager w) ->
  exists r c' p' w1 n w',
    popEvent pri c p w = Ok (r, c', p', w1) /\
    (if r then
       do code <- read_cell c';
       do param <- read_cell p';
       sendEvent code param w1
     else Ok (h, w1)) = Ok (n, w') /\
    invariant (manager w').
Proof.
  intros Hinv.
  destruct (popEvent_invariant pri c p w Hinv) as (r & c' & p' & w1 & Hpop & Hinv1).
  exists r, c', p', w1. rewrite Hpop.
  apply popEvent_trace in Hpop as [_ [(-> & _)|(-> & _ & e & _ & -> & -> & _)]].
  - eexists _, _. done.
  - simpl. destruct (sendEvent_invariant (EventQueue.code e) (EventQueue.param e) w1 Hinv1)
      as (n & w' & Hsend & Hinv').
    eexists _, _. done.
Qed.

Lemma processEvent_invariant (w : world) :
  invariant (manager w) ->
  exists n w', processEvent w = Ok (n, w') /\ invariant (manager w').
Proof.
  intros Hinv. unfold EventManager.processEvent.
  destruct (pop_dispatch_invariant kHighPriority None None 0 w Hinv)
    as (r1 & c1 & p1 & w1 & h1 & w2 & -> & Hsend1 & Hinv2).
  simpl. rewrite Hsend1. simpl.
  destruct (h1 =? 0) eqn:Hh; [|eauto].
  apply Z.eqb_eq in Hh as ->.
  destruct (pop_dispatch_invariant kLowPriority c1 p1 0 w2 Hinv2)
    as (r2 & c2 & p2 & w3 & h2 & w4 & -> & Hsend2 & Hinv4).
  simpl. destruct r2; eauto.
Qed.

Lemma drain_invariant (pri : EventPriority) (fuel : nat) (c p : int_cell) (h : Z) (w : world) :
  invariant (manager w) ->
  match drain pri fuel c p h w with
  | Ok (_, _, _, w') => invariant (manager w')
  | Undefined => False
  | OutOfFuel => True
  end.
Proof.
  revert c p h w. induction fuel as [|fuel IH]; intros c p h w Hinv; [done|].
  simpl.
  destruct (popEvent_invariant pri c p w Hinv) as (r & c' & p' & w1 & Hpop & Hinv1).
  rewrite Hpop. simpl.
  apply popEvent_trace in Hpop as [_ [(-> & _)|(-> & _ & e & _ & -> & -> & _)]]; [done|].
  simpl. destruct (sendEvent_invariant (EventQueue.code e) (EventQueue.param e) w1 Hinv1)
    as (n & w' & -> & Hinv').
  simpl. by apply IH.
Qed.

Lemma processAllEvents_invariant (fuel : nat) (w : world) :
  invariant (manager w) ->
  match EventManager.processAllEvents kEventQueueSize kMaxListeners run fuel w with
  | Ok (_, w') => invariant (manager w')
  | Undefined => False
  | OutOfFuel => True
  end.
Proof.
  intros Hinv. unfold EventManager.processAllEvents.
  pose proof (drain_invariant kHighPriority fuel None None 0 w Hinv) as H1.
  destruct (drain kHighPriority fuel None None 0 w) as [[[[c1 p1] h1] w1]| |]; [|done..].
  simpl.
  pose proof (drain_invariant kLowPriority fuel c1 p1 h1 w1 H1) as H2.
  destruct (drain kLowPriority fuel c1 p1 h1 w1) as [[[[c2 p2] h2] w2]| |]; done.
Qed.

(** Every public member function keeps the invariant, and none of them
    leaves the defined behaviour; only [processAllEvents] can exhaust a
    bound. *)
Lemma perform_invariant (c : call) (w : world) :
  invariant (manager w) ->
  match perform c w with
  | Ok w' => invariant (manager w')
  | Undefined => False
  | OutOfFuel => exists fuel, c = CallProcessAllEvents fuel
  end.
Proof.
  intros Hinv. pose proof Hinv as [Hh Hl Hr].
  destruct c as [code param pri|code listener|code listener|listener
                |code listener enable|listener| |enable| |fuel]; simpl.
  - destruct (queueEvent_invariant code param pri _ Hinv) as (r & m' & -> & H'). done.
  - destruct (on_listeners_invariant
                (ListenerList.addListener kMaxListeners code listener) _ Hinv)
      as (r & m' & Hm & H').
    { destruct (Z.eq_dec listener 0) as [->|Hn].
      { rewrite addListener_null. eauto. }
      destruct (Z.eq_dec (ListenerList.mNumListeners (mListeners (manager w))) kMaxListeners).
      { rewrite addListener_full by done. eauto. }
      rewrite addListener_ok by done. eexists _, _. split; [done|].
      eapply addListener_wf; [exact Hr|]. by apply addListener_ok. }
    unfold EventManager.addListener. rewrite Hm. done.
  - destruct (on_listeners_invariant (ListenerList.removeListener code listener) _ Hinv)
      as (r & m' & Hm & H').
    { destruct (removeListener_returns kMaxListeners code listener _ Hr) as (r & l' & Hrm).
      exists r, l'. split; [done|]. by eapply removeListener_wf. }
    unfold EventManager.removeListener. rewrite Hm. done.
  - destruct (on_listeners_invariant (ListenerList.removeListener' listener) _ Hinv)
      as (r & m' & Hm & H').
    { by apply removeListener'_ok. }
    unfold EventManager.removeListener'. rewrite Hm. done.
  - destruct (on_listeners_invariant
                (ListenerList.enableListener code listener enable) _ Hinv)
      as (r & m' & Hm & H').
    { by apply enableListener_ok. }
    unfold EventManager.enableListener. rewrite Hm. done.
  - unfold EventManager.setDefaultListener.
    pose proof (setDefaultListener_wf kMaxListeners listener _ Hr) as Hwf.
    destruct (ListenerList.setDefaultListener listener (mListeners (manager w))).
    by apply with_listeners_invariant.
  - apply with_listeners_invariant; [done|]. by apply removeDefaultListener_wf.
  - apply with_listeners_invariant; [done|]. by apply enableDefaultListener_wf.
  - destruct (processEvent_invariant w Hinv) as (n & w' & -> & H'). done.
  - pose proof (processAllEvents_invariant fuel w Hinv) as H.
    destruct (EventManager.processAllEvents _ _ _ _ _) as [[n w']| |]; simpl; eauto.
Qed.

Lemma reachable_invariant (w : world) :
  0 < kEventQueueSize -> 0 < kMaxListeners ->
  EventManager.reachable kEventQueueSize kMaxListeners run w -> invariant (manager w).
Proof.
  intros Hq Hl. induction 1 as [safety junk junk_enabled|w w' c _ IH Hc].
  - by apply EventManager_ctor_invariant.
  - pose proof (perform_invariant c w IH) as H. by rewrite Hc in H.
Qed.

End RunPreserves.

(** With listeners that leave the dispatcher alone, draining ends under
    an invariant as well: every pass of the loop takes one event from
    the queue. *)
Section RunIdentityInvariant.

Hypothesis run_id : forall listener code param m, run listener code param m = m.

Lemma drain_run_id_returns (pri : EventPriority) (fuel : nat) (c p : int_cell) (h : Z)
    (m : t) (tr : list action) :
  invariant m ->
  (Z.to_nat (EventQueue.mNumEvents (queue_of pri m)) < fuel)%nat ->
  exists c' p' h' q' tr',
    drain pri fuel c p h {| manager := m; trace := tr |}
      = Ok (c', p', h', {| manager := with_queue pri q' m; trace := tr' |}) /\
    Q q'.
Proof.
  revert c p h m tr. induction fuel as [|fuel IH]; intros c p h m tr Hinv Hfuel; [lia|].
  pose proof (queue_of_invariant pri m Hinv) as Hq.
  pose proof (Q_bounded _ Hq) as Hb.
  cbn [EventManager.drain]. unfold EventManager.popEvent. cbn [manager trace].
  destruct (Z.eq_dec (EventQueue.mNumEvents (queue_of pri m)) 0) as [Hz|Hnz].
  - rewrite popEvent_empty by done. cbn [bind].
    eexists c, p, h, (queue_of pri m), _. by rewrite with_queue_same.
  - destruct (popEvent_not_empty _ (queue_of pri m) c p Hb Hnz) as (e & _ & Hpop).
    pose proof (Q_popEvent _ _ _ _ _ _ _ Hq Hpop) as Hq1.
    rewrite Hpop. cbn [bind popped read_cell].
    rewrite (sendEvent_run_id run_id) by (rewrite mListeners_with_queue; apply Hinv).
    cbn [bind].
    match goal with
    | |- context [drain pri fuel ?c1 ?p1 ?h1 {| manager := ?m1; trace := ?tr1 |}] =>
        destruct (IH c1 p1 h1 m1 tr1) as (c' & p' & h' & q' & tr' & Hdrain & Hq')
    end.
    + by apply with_queue_invariant.
    + rewrite queue_of_with_queue. simpl. destruct Hb. lia.
    + rewrite Hdrain, with_queue_with_queue. eauto 10.
Qed.

Lemma processAllEvents_run_id_returns (fuel : nat) (w : world) :
  invariant (manager w) ->
  (Z.to_nat (EventQueue.mNumEvents (mHighPriorityQueue (manager w))) < fuel)%nat ->
  (Z.to_nat (EventQueue.mNumEvents (mLowPriorityQueue (manager w))) < fuel)%nat ->
  exists n w',
    EventManager.processAllEvents kEventQueueSize kMaxListeners run fuel w = Ok (n, w') /\
    invariant (manager w').
Proof.
  intros Hinv Hhigh Hlow. destruct w as [m tr]. simpl in *.
  unfold EventManager.processAllEvents.
  destruct (drain_run_id_returns kHighPriority fuel None None 0 m tr Hinv Hhigh)
    as (c1 & p1 & h1 & q1 & tr1 & -> & Hq1).
  cbn [bind].
  destruct (drain_run_id_returns kLowPriority fuel c1 p1 h1
              (with_queue kHighPriority q1 m) tr1)
    as (c2 & p2 & h2 & q2 & tr2 & -> & Hq2).
  - by apply with_queue_invariant.
  - done.
  - cbn [bind]. eexists _, _. split; [done|]. simpl.
    destruct Hinv as [Hh Hl Hr]. by constructor.
Qed.

End RunIdentityInvariant.

End Invariants.

(** *** The two instances: the bounds and the data-model invariant *)

Lemma bounded_queueEvent (q q' : EventQueue.t) (c p : Z) (r : bool) :
  EventQueue.bounded kEventQueueSize q ->
  EventQueue.queueEvent kEventQueueSize c p q = Ok (r, q') ->
  EventQueue.bounded kEventQueueSize q'.
Proof.
  intros Hb Hq. destruct (queueEvent_bounded _ q c p Hb) as (r1 & q1 & Hq1 & Hb1).
  congruence.
Qed.

Lemma bounded_popEvent (q q' : EventQueue.t) (c p c' p' : int_cell) (r : bool) :
  EventQueue.bounded kEventQueueSize q ->
  EventQueue.popEvent kEventQueueSize c p q = Ok (r, c', p', q') ->
  EventQueue.bounded kEventQueueSize q'.
Proof.
  intros Hb Hp.
  destruct (popEvent_bounded _ q c p Hb) as (r1 & c1 & p1 & q1 & Hq1 & Hb1).
  congruence.
Qed.

#[local] Abbreviation invariant := (EventManager.invariant kEventQueueSize kMaxListeners).
#[local] Abbreviation wf := (EventManager.wf kEventQueueSize kMaxListeners).

Lemma perform_keeps_invariant (c : call) (w : world) :
  (forall listener code param m, invariant m -> invariant (run listener code param m)) ->
  invariant (manager w) ->
  match EventManager.perform kEventQueueSize kMaxListeners run c w with
  | Ok w' => invariant (manager w')
  | Undefined => False
  | OutOfFuel => exists fuel, c = CallProcessAllEvents fuel
  end.
Proof.
  intros Hrun. apply perform_invariant; try done.
  - apply bounded_queueEvent.
  - apply bounded_popEvent.
Qed.

Lemma sendEvent_keeps_invariant (code param : Z) (w : world) :
  (forall listener code param m, invariant m -> invariant (run listener code param m)) ->
  invariant (manager w) ->
  exists n w', sendEvent code param w = Ok (n, w') /\ invariant (manager w').
Proof. intros Hrun. by apply sendEvent_invariant. Qed.

Lemma reachable_keeps_invariant (w : world) :
  0 < kEventQueueSize -> 0 < kMaxListeners ->
  (forall listener code param m, invariant m -> invariant (run listener code param m)) ->
  EventManager.reachable kEventQueueSize kMaxListeners run w -> invariant (manager w).
Proof.
  intros Hq Hl Hrun. apply reachable_invariant; try done.
  - intros beSafe _. by apply EventQueue_ctor_wf.
  - apply bounded_queueEvent.
  - apply bounded_popEvent.
Qed.

Lemma processAllEvents_returns (fuel : nat) (w : world) :
  (forall listener code param m, run listener code param m = m) ->
  invariant (manager w) ->
  (Z.to_nat (EventQueue.mNumEvents (mHighPriorityQueue (manager w))) < fuel)%nat ->
  (Z.to_nat (EventQueue.mNumEvents (mLowPriorityQueue (manager w))) < fuel)%nat ->
  exists n w',
    EventManager.processAllEvents kEventQueueSize kMaxListeners run fuel w = Ok (n, w') /\
    invariant (manager w').
Proof.
  intros Hid. apply processAllEvents_run_id_returns; try done.
  apply bounded_popEvent.
Qed.

(** With listeners that leave the dispatcher alone, every reachable
    state satisfies the data-model invariant. *)
Lemma reachable_wf (w : world) :
  0 < kEventQueueSize -> 0 < kMaxListeners ->
  (forall listener code param m, run listener code param m = m) ->
  EventManager.reachable kEventQueueSize kMaxListeners run w -> wf (manager w).
Proof.
  intros Hq Hl Hid. apply reachable_invariant; try done.
  - apply EventQueue.wf_bounded.
  - intros beSafe _. by apply EventQueue_ctor_wf.
  - intros q q' c p r. apply queueEvent_wf.
  - intros q q' c p c' p' r. apply popEvent_wf.
  - intros listener code param m Hm. by rewrite Hid.
Qed.


Lemma consumed_app (pri : EventPriority) (tr1 tr2 : list action) :
  consumed pri (tr1 ++ tr2) = (consumed pri tr1 + consumed pri tr2)%nat.
Proof.
  induction tr1 as [|a tr1 IH]; [done|]. simpl.
  destruct a as [pri' [e|]|]; [|done..].
  destruct (EventPriority_eqb pri pri'); simpl; by rewrite IH.
Qed.

Lemma consumed_calls (pri : EventPriority) (code param : Z)
    (listeners : list ListenerList.EventListener) :
  consumed pri (calls code param listeners) = 0%nat.
Proof. induction listeners; [done|]. done. Qed.

Lemma consumed_attempt (pri pri' : EventPriority) (popped : option (Z * Z))
    (listeners : list ListenerList.EventListener) :
  consumed pri (attempt pri' popped listeners) =
    match popped with
    | Some _ => if EventPriority_eqb pri pri' then 1%nat else 0%nat
    | None => 0%nat
    end.
Proof.
  unfold attempt. destruct popped as [[c p]|]; simpl; [|done].
  rewrite consumed_calls. by destruct (EventPriority_eqb pri pri').
Qed.

End EventManagerFacts.

(** The example states are reachable. *)
Lemma Examples_after_reachable (cs : list EventManager.call) (w : EventManager.world) :
  EventManager.reachable 8 8 Examples.run_id w ->
  EventManager.reachable 8 8 Examples.run_id (Examples.after cs w).
Proof.
  revert w. induction cs as [|c cs IH]; intros w Hw; [done|].
  simpl. apply IH.
  destruct (EventManager.perform 8 8 Examples.run_id c w) as [w'| |] eqn:Hc; [|done..].
  by eapply EventManager.reachable_perform.
Qed.

(** ** The ring buffer: statements of the specification *)

(** C3.  A full queue rejects [queueEvent]: the call returns [false] and
    the queue (count, head, tail and every slot) is as before.  A queue
    that is not full stores [(code, param)] in the slot at the tail,
    advances the tail to [(tail + 1) mod capacity], increments the count
    and returns [true]. *)
Theorem C3_queueEvent_full_or_stored (kEventQueueSize : Z) (q : EventQueue.t) (code param : Z) :
  (EventQueue.mNumEvents q = kEventQueueSize ->
   EventQueue.queueEvent kEventQueueSize code param q = Ok (false, q)) /\
  (EventQueue.bounded kEventQueueSize q ->
   EventQueue.mNumEvents q <> kEventQueueSize ->
   EventQueue.queueEvent kEventQueueSize code param q =
     Ok (true,
         {| EventQueue.mEventQueue :=
              <[Z.to_nat (EventQueue.mEventQueueTail q) :=
                  {| EventQueue.code := code; EventQueue.param := param |}]>
                (EventQueue.mEventQueue q);
            EventQueue.mEventQueueHead := EventQueue.mEventQueueHead q;
            EventQueue.mEventQueueTail :=
              (EventQueue.mEventQueueTail q + 1) mod kEventQueueSize;
            EventQueue.mNumEvents := EventQueue.mNumEvents q + 1;
            EventQueue.mInterruptSafeMode := EventQueue.mInterruptSafeMode q |})).
Proof.
  split.
  - apply queueEvent_full.
  - apply queueEvent_not_full.
Qed.

Lemma C3_witness :
  EventQueue.queueEvent 8 9 90 Examples.queue_full = Ok (false, Examples.queue_full) /\
  EventQueue.queueEvent 8 9 90 Examples.queue0 =
    Ok (true,
        {| EventQueue.mEventQueue :=
             <[0%nat := {| EventQueue.code := 9; EventQueue.param := 90 |}]>
               (EventQueue.mEventQueue Examples.queue0);
           EventQueue.mEventQueueHead := 0;
           EventQueue.mEventQueueTail := 1;
           EventQueue.mNumEvents := 1;
           EventQueue.mInterruptSafeMode := true |}).
Proof.
  split.
  - apply (proj1 (C3_queueEvent_full_or_stored 8 Examples.queue_full 9 90)).
    reflexivity.
  - apply (proj2 (C3_queueEvent_full_or_stored 8 Examples.queue0 9 90)).
    + constructor; simpl; lia.
    + simpl. lia.
Defined.

(** C7.  On an empty queue [popEvent] returns [false], the queue is as
    before and the two output cells keep their contents. *)
Theorem C7_popEvent_empty_no_effect (kEventQueueSize : Z) (q : EventQueue.t)
    (eventCode eventParam : int_cell) :
  EventQueue.mNumEvents q = 0 ->
  EventQueue.popEvent kEventQueueSize eventCode eventParam q
    = Ok (false, eventCode, eventParam, q).
Proof.
  intros Hempty. unfold EventQueue.popEvent, EventQueue.isEmpty.
  rewrite Hempty. reflexivity.
Qed.

Lemma C7_witness :
  EventQueue.popEvent 8 (Some 5) None Examples.queue0
    = Ok (false, Some 5, None, Examples.queue0).
Proof.
  apply (C7_popEvent_empty_no_effect 8 Examples.queue0 (Some 5) None).
  reflexivity.
Defined.

(** C4 as stated fails when the queue already holds events: after
    [(1, 10)] was queued, the single submission [(2, 20)] succeeds, and
    the next [popEvent] returns [(1, 10)], not [(2, 20)]. *)
Lemma C4_counterexample :
  EventQueue.reachable 8 (Examples.queue_after [(1, 10)]) /\
  EventQueue.queueEvents 8 [(2, 20)] (Examples.queue_after [(1, 10)])
    = Ok ([true], Examples.queue_after [(1, 10); (2, 20)]) /\
  (exists q2,
     EventQueue.popEvents 8 1 (Examples.queue_after [(1, 10); (2, 20)])
       = Ok ([Some (1, 10)], q2)) /\
  [Some (1, 10)] <> Some <$> [(2, 20)].
Proof.
  split; [|split; [|split]].
  - eapply EventQueue.reachable_queueEvent with (c := 1) (p := 10);
      [apply (EventQueue.reachable_ctor 8 true)|reflexivity].
  - vm_compute. reflexivity.
  - eexists. vm_compute. reflexivity.
  - discriminate.
Qed.

(** C4, amended.  In a reachable queue holding the events [e1 .. em],
    after [n] successful submissions [S1 .. Sn] with no pop in between,
    the next [m + n] calls of [popEvent] all succeed and return
    [e1 .. em] and then [S1 .. Sn], in that order, after which the queue
    is empty; so from an empty queue the next [n] calls return exactly
    [S1 .. Sn]. *)
Theorem C4_fifo_after_pending (kEventQueueSize : Z) (q q1 : EventQueue.t)
    (events : list (Z * Z)) (rs : list bool) :
  0 < kEventQueueSize ->
  EventQueue.reachable kEventQueueSize q ->
  EventQueue.queueEvents kEventQueueSize events q = Ok (rs, q1) ->
  Forall (eq true) rs ->
  let pending := EventQueue.event_pair <$> EventQueue.contents kEventQueueSize q in
  exists q2,
    EventQueue.popEvents kEventQueueSize (length pending + length events) q1
      = Ok (Some <$> (pending ++ events), q2) /\
    EventQueue.mNumEvents q2 = 0 /\
    (EventQueue.mNumEvents q = 0 ->
     EventQueue.popEvents kEventQueueSize (length events) q1 = Ok (Some <$> events, q2)).
Proof.
  intros Hs Hreach Hq Hall pending.
  pose proof (EventQueue_reachable_wf _ _ Hs Hreach) as Hwf.
  destruct (queueEvents_contents _ _ _ _ _ Hwf Hq Hall) as [Hwf1 Hc].
  destruct (popEvents_contents _ _ Hwf1) as (q2 & Hpop & _ & Hz).
  fold pending in Hc.
  assert (Hlen : length (EventQueue.contents kEventQueueSize q1)
                 = (length pending + length events)%nat).
  { rewrite <- (length_fmap EventQueue.event_pair), Hc, length_app. done. }
  rewrite Hlen, Hc in Hpop.
  exists q2. split; [done|]. split; [done|].
  intros He. subst pending. revert Hpop.
  rewrite (contents_empty _ _ He). done.
Qed.

Lemma C4_witness :
  exists q2,
    EventQueue.popEvents 8 (1 + 2) (Examples.queue_after [(1, 10); (2, 20); (3, 30)])
      = Ok ([Some (1, 10); Some (2, 20); Some (3, 30)], q2) /\
    EventQueue.mNumEvents q2 = 0.
Proof.
  destruct (C4_fifo_after_pending 8 (Examples.queue_after [(1, 10)])
              (Examples.queue_after [(1, 10); (2, 20); (3, 30)])
              [(2, 20); (3, 30)] [true; true]) as (q2 & Hpop & Hz & _).
  - lia.
  - eapply EventQueue.reachable_queueEvent with (c := 1) (p := 10);
      [apply (EventQueue.reachable_ctor 8 true)|reflexivity].
  - vm_compute. reflexivity.
  - repeat constructor.
  - exists q2. split; [exact Hpop|exact Hz].
Defined.

(** ** The dispatcher: statements of the specification *)

(** C1 as stated fails: with one event in each queue and no listener for
    the high-priority one, a single [processEvent] pops both events. *)
Lemma C1_counterexample :
  exists w1 : EventManager.world,
    EventManager.processEvent 8 8 Examples.run_id Examples.world_unheard = Ok (0, w1) /\
    EventManager.trace w1 =
      [EventManager.PopEvent EventManager.kHighPriority (Some (1, 10));
       EventManager.PopEvent EventManager.kLowPriority (Some (2, 20))] /\
    EventManager.getNumEventsInQueue EventManager.kHighPriority
      (EventManager.manager Examples.world_unheard) = 1 /\
    EventManager.getNumEventsInQueue EventManager.kLowPriority
      (EventManager.manager Examples.world_unheard) = 1 /\
    EventManager.getNumEventsInQueue EventManager.kHighPriority (EventManager.manager w1) = 0 /\
    EventManager.getNumEventsInQueue EventManager.kLowPriority (EventManager.manager w1) = 0 /\
    (EventManager.consumed EventManager.kHighPriority (EventManager.trace w1)
     + EventManager.consumed EventManager.kLowPriority (EventManager.trace w1) = 2)%nat.
Proof.
  eexists. split; [vm_compute; reflexivity|].
  repeat split.
Qed.

(** C1, amended.  A single [processEvent] takes at most one event from
    each queue, hence at most two in all, and none from the
    high-priority queue when that queue is empty.  It takes one from
    each only when no listener was called for the high-priority event:
    the history of the call is then the high-priority pop, immediately
    followed by the low-priority pop and the calls for that event. *)
Theorem C1_at_most_one_event_per_queue (kEventQueueSize kMaxListeners : Z)
    (run : ListenerList.EventListener -> Z -> Z -> EventManager.t -> EventManager.t)
    (w w' : EventManager.world) (n : Z) :
  EventManager.processEvent kEventQueueSize kMaxListeners run w = Ok (n, w') ->
  exists new : list EventManager.action,
    EventManager.trace w' = EventManager.trace w ++ new /\
    (EventManager.consumed EventManager.kHighPriority new <= 1)%nat /\
    (EventManager.consumed EventManager.kLowPriority new <= 1)%nat /\
    (EventQueue.mNumEvents (EventManager.mHighPriorityQueue (EventManager.manager w)) = 0 ->
     EventManager.consumed EventManager.kHighPriority new = 0%nat) /\
    (EventManager.consumed EventManager.kHighPriority new = 1%nat ->
     EventManager.consumed EventManager.kLowPriority new = 1%nat ->
     exists e1 e2 listeners2,
       new = EventManager.PopEvent EventManager.kHighPriority (Some e1)
               :: EventManager.attempt EventManager.kLowPriority (Some e2) listeners2 /\
       n = Z.of_nat (length listeners2)).
Proof.
  intros H.
  apply processEvent_shape in H
    as (popped1 & listeners1 & Hempty & _ & Hnone1 & _ & Hcases).
  destruct Hcases as [(-> & popped2 & listeners2 & Htr & -> & Hnone2 & _)|(Hne & Htr & ->)].
  - eexists. split; [exact Htr|].
    rewrite !consumed_app, !consumed_attempt.
    destruct popped1 as [e1|], popped2 as [e2|]; simpl;
      (split; [lia|]); (split; [lia|]);
      (split; [intros Hz; try (by apply Hempty in Hz); done|]);
      intros H1 H2; try done.
    exists e1, e2, listeners2. by destruct e1.
  - eexists. split; [exact Htr|].
    rewrite !consumed_attempt.
    destruct popped1 as [e1|]; simpl.
    + split; [lia|]. split; [lia|].
      split; [intros Hz; by apply Hempty in Hz|]. done.
    + by rewrite Hnone1 in Hne.
Qed.

Lemma C1_witness :
  exists new : list EventManager.action,
    EventManager.trace (Examples.processEvent_result Examples.world_heard).2
      = EventManager.trace Examples.world_heard ++ new /\
    (EventManager.consumed EventManager.kHighPriority new <= 1)%nat /\
    (EventManager.consumed EventManager.kLowPriority new <= 1)%nat.
Proof.
  destruct (C1_at_most_one_event_per_queue 8 8 Examples.run_id Examples.world_heard
              (Examples.processEvent_result Examples.world_heard).2
              (Examples.processEvent_result Examples.world_heard).1)
    as (new & Htr & Hhigh & Hlow & _).
  - vm_compute. reflexivity.
  - exists new. split; [exact Htr|]. split; [exact Hhigh|exact Hlow].
Defined.





(** C9.  Every public member function keeps the structural invariant
    of the dispatcher (both queues have their count between 0 and the
    capacity and their head and tail inside the array; the table has its
    count between 0 and its capacity and a registered listener in each
    of its first [mNumListeners] entries), provided the listeners it
    calls do.  None of them gets outside defined behaviour, and only
    [processAllEvents] can exhaust the bound given for its loops; it
    does return, under any bound above the number of events in either
    queue, when the listeners leave the dispatcher as it is.  The two
    queue operations keep the invariant as well; a successful [queueEvent]
    moves the tail, and a successful [popEvent] the head, to the next
    index modulo the capacity. *)
Theorem C9_public_operations_keep_invariant (kEventQueueSize kMaxListeners : Z)
    (run : ListenerList.EventListener -> Z -> Z -> EventManager.t -> EventManager.t) :
  (forall listener code param m,
     EventManager.invariant kEventQueueSize kMaxListeners m ->
     EventManager.invariant kEventQueueSize kMaxListeners (run listener code param m)) ->
  (forall (c : EventManager.call) (w : EventManager.world),
     EventManager.invariant kEventQueueSize kMaxListeners (EventManager.manager w) ->
     match EventManager.perform kEventQueueSize kMaxListeners run c w with
     | Ok w' => EventManager.invariant kEventQueueSize kMaxListeners (EventManager.manager w')
     | Undefined => False
     | OutOfFuel => exists fuel, c = EventManager.CallProcessAllEvents fuel
     end) /\
  ((forall listener code param m, run listener code param m = m) ->
   forall (w : EventManager.world) (fuel : nat),
     EventManager.invariant kEventQueueSize kMaxListeners (EventManager.manager w) ->
     (Z.to_nat (EventManager.getNumEventsInQueue EventManager.kHighPriority
                  (EventManager.manager w)) < fuel)%nat ->
     (Z.to_nat (EventManager.getNumEventsInQueue EventManager.kLowPriority
                  (EventManager.manager w)) < fuel)%nat ->
     exists n w',
       EventManager.processAllEvents kEventQueueSize kMaxListeners run fuel w = Ok (n, w') /\
       EventManager.invariant kEventQueueSize kMaxListeners (EventManager.manager w')) /\
  (forall (q : EventQueue.t) (code param : Z),
     EventQueue.bounded kEventQueueSize q ->
     exists r q',
       EventQueue.queueEvent kEventQueueSize code param q = Ok (r, q') /\
       EventQueue.bounded kEventQueueSize q' /\
       (r = true ->
        EventQueue.mEventQueueTail q' = (EventQueue.mEventQueueTail q + 1) mod kEventQueueSize /\
        EventQueue.mEventQueueHead q' = EventQueue.mEventQueueHead q /\
        EventQueue.mNumEvents q' = EventQueue.mNumEvents q + 1)) /\
  (forall (q : EventQueue.t) (eventCode eventParam : int_cell),
     EventQueue.bounded kEventQueueSize q ->
     exists r eventCode' eventParam' q',
       EventQueue.popEvent kEventQueueSize eventCode eventParam q
         = Ok (r, eventCode', eventParam', q') /\
       EventQueue.bounded kEventQueueSize q' /\
       (r = true ->
        EventQueue.mEventQueueHead q' = (EventQueue.mEventQueueHead q + 1) mod kEventQueueSize /\
        EventQueue.mEventQueueTail q' = EventQueue.mEventQueueTail q /\
        EventQueue.mNumEvents q' = EventQueue.mNumEvents q - 1)).
Proof.
  intros Hrun. split; [|split; [|split]].
  - intros c w Hinv. by apply perform_keeps_invariant.
  - intros Hid w fuel Hinv Hhigh Hlow. by apply processAllEvents_returns.
  - intros q code param Hb.
    destruct (queueEvent_bounded _ q code param Hb) as (r & q' & Hq & Hb').
    exists r, q'. split; [done|]. split; [done|]. intros ->.
    destruct (Z.eq_dec (EventQueue.mNumEvents q) kEventQueueSize) as [Hf|Hnf].
    + by rewrite queueEvent_full in Hq.
    + rewrite queueEvent_not_full in Hq by done. by injection Hq as <-.
  - intros q c p Hb.
    destruct (popEvent_bounded _ q c p Hb) as (r & c' & p' & q' & Hp & Hb').
    exists r, c', p', q'. split; [done|]. split; [done|]. intros ->.
    destruct (Z.eq_dec (EventQueue.mNumEvents q) 0) as [He|Hne].
    + by rewrite popEvent_empty in Hp.
    + destruct (popEvent_not_empty _ q c p Hb Hne) as (e & _ & Hp').
      rewrite Hp' in Hp. by simplify_eq.
Qed.

Lemma C9_witness :
  EventManager.invariant 8 8 (EventManager.manager Examples.world_heard) /\
  match EventManager.perform 8 8 Examples.run_id EventManager.CallProcessEvent
          Examples.world_heard with
  | Ok w' => EventManager.invariant 8 8 (EventManager.manager w')
  | Undefined => False
  | OutOfFuel => exists fuel, EventManager.CallProcessEvent = EventManager.CallProcessAllEvents fuel
  end.
Proof.
  assert (Hinv : EventManager.invariant 8 8 (EventManager.manager Examples.world_heard)).
  { constructor; constructor; by_computation. }
  split; [exact Hinv|].
  apply (proj1 (C9_public_operations_keep_invariant 8 8 Examples.run_id
                  (fun _ _ _ m H => H))).
  exact Hinv.
Defined.

(** C10.  In every state reachable from a freshly constructed
    dispatcher, whose listeners keep the structural invariant,
    [sendEvent] returns, and every call it has made was through a
    non-null pointer: the number it reports is the number of those
    calls.  In particular, right after construction and
    [enableDefaultListener( true )], whatever the uninitialised
    [mDefaultCallbackEnabled] and array held, [sendEvent] returns 0 and
    calls nothing. *)
Theorem C10_no_null_listener_called (kEventQueueSize kMaxListeners : Z)
    (run : ListenerList.EventListener -> Z -> Z -> EventManager.t -> EventManager.t) :
  0 < kEventQueueSize -> 0 < kMaxListeners ->
  (forall listener code param m,
     EventManager.invariant kEventQueueSize kMaxListeners m ->
     EventManager.invariant kEventQueueSize kMaxListeners (run listener code param m)) ->
  (forall (w : EventManager.world) (code param : Z),
     EventManager.reachable kEventQueueSize kMaxListeners run w ->
     exists n w' listeners,
       EventManager.sendEvent kMaxListeners run code param w = Ok (n, w') /\
       EventManager.trace w' = EventManager.trace w ++ EventManager.calls code param listeners /\
       n = Z.of_nat (length listeners) /\
       Forall (fun listener => listener <> 0) listeners) /\
  (forall (safety : EventManager.SafetyMode) (junk : nat -> ListenerList.ListenerItem)
          (junk_enabled : bool) (tr : list EventManager.action) (code param : Z),
     let w := {| EventManager.manager :=
                   EventManager.enableDefaultListener true
                     (EventManager.EventManager kEventQueueSize kMaxListeners
                        safety junk junk_enabled);
                 EventManager.trace := tr |} in
     EventManager.sendEvent kMaxListeners run code param w = Ok (0, w)).
Proof.
  intros Hq Hl Hrun. split.
  - intros w code param Hreach.
    pose proof (reachable_keeps_invariant _ _ _ w Hq Hl Hrun Hreach) as Hinv.
    destruct (sendEvent_keeps_invariant _ _ _ code param w Hrun Hinv)
      as (n & w' & Hsend & _).
    destruct (sendEvent_trace _ _ _ _ _ _ _ Hsend) as (listeners & Htr & Hn & Hall).
    exists n, w', listeners. done.
  - intros safety junk junk_enabled tr code param w.
    unfold EventManager.sendEvent, ListenerList.sendEvent.
    destruct (Z.to_nat kMaxListeners); reflexivity.
Qed.

Lemma C10_witness :
  exists n w' listeners,
    EventManager.sendEvent 8 Examples.run_id 1 10 Examples.world_heard = Ok (n, w') /\
    EventManager.trace w' =
      EventManager.trace Examples.world_heard ++ EventManager.calls 1 10 listeners /\
    n = Z.of_nat (length listeners) /\
    Forall (fun listener => listener <> 0) listeners.
Proof.
  apply (proj1 (C10_no_null_listener_called 8 8 Examples.run_id
                  ltac:(lia) ltac:(lia) (fun _ _ _ m H => H))).
  do 2 apply Examples_after_reachable.
  apply (EventManager.reachable_ctor 8 8 Examples.run_id
           EventManager.kInterruptSafe Examples.junk false).
Defined.

(** C8.  In a well-formed table, [removeListener( eventCode, listener )]
    finds the first live entry equal to the pair in both fields.  If
    there is one, at position [k], it returns [true]; the count has
    dropped by one and the live entries are the former ones without
    entry [k], the later ones one place down.  If there is none it
    returns [false] and the table is as before.  Hence, when the pair,
    absent so far, is registered twice, two removals return [true] and
    restore the live entries, so no entry for the pair is left, and a
    third removal returns [false]. *)
Theorem C8_removeListener_first_match (kMaxListeners : Z) (l : ListenerList.t)
    (code : Z) (listener : ListenerList.EventListener) :
  ListenerList.wf kMaxListeners l ->
  let is_pair (it : ListenerList.ListenerItem) :=
    ListenerList.eventCode it = code /\ ListenerList.callback it = listener in
  (forall k it,
     ListenerList.live l !! k = Some it -> is_pair it ->
     (forall j it', (j < k)%nat -> ListenerList.live l !! j = Some it' -> ~ is_pair it') ->
     exists l',
       ListenerList.removeListener code listener l = Ok (true, l') /\
       ListenerList.mNumListeners l' = ListenerList.mNumListeners l - 1 /\
       ListenerList.live l' = delete k (ListenerList.live l) /\
       ListenerList.wf kMaxListeners l' /\
       ListenerList.mDefaultCallback l' = ListenerList.mDefaultCallback l /\
       ListenerList.mDefaultCallbackEnabled l' = ListenerList.mDefaultCallbackEnabled l) /\
  (Forall (fun it => ~ is_pair it) (ListenerList.live l) ->
   ListenerList.removeListener code listener l = Ok (false, l)) /\
  (Forall (fun it => ~ is_pair it) (ListenerList.live l) ->
   forall l1 l2,
     ListenerList.addListener kMaxListeners code listener l = Ok (true, l1) ->
     ListenerList.addListener kMaxListeners code listener l1 = Ok (true, l2) ->
     exists l3 l4,
       ListenerList.removeListener code listener l2 = Ok (true, l3) /\
       ListenerList.removeListener code listener l3 = Ok (true, l4) /\
       Forall (fun it => ~ is_pair it) (ListenerList.live l4) /\
       ListenerList.removeListener code listener l4 = Ok (false, l4)).
Proof.
  intros Hwf is_pair.
  assert (Htest : forall it, same_pair code listener it = true <-> is_pair it).
  { intros it. unfold same_pair, is_pair. rewrite andb_true_iff, !Z.eqb_eq. done. }
  assert (Hnone : Forall (fun it => ~ is_pair it) (ListenerList.live l) ->
                  find_index (same_pair code listener) (ListenerList.live l) = None).
  { intros Hall. apply find_index_absent. eapply Forall_impl; [exact Hall|].
    intros it Hit. simpl in Hit. rewrite <- Htest in Hit. by destruct (same_pair _ _ _). }
  split; [|split].
  - intros k it Hk Hit Hbefore.
    destruct (removeListener_found kMaxListeners code listener l k Hwf)
      as (l' & Hrm & Hwf' & Hcount & Hlive & Hd & He).
    { apply (find_index_first _ _ _ it); [done|by apply Htest|].
      intros j it' Hj Hj'. specialize (Hbefore j it' Hj Hj').
      rewrite <- Htest in Hbefore. by destruct (same_pair _ _ _). }
    exists l'. done.
  - intros Hall. apply (removeListener_absent kMaxListeners); [done|by apply Hnone].
  - intros Hall l1 l2 Hadd1 Hadd2.
    destruct (register_twice_remove_twice kMaxListeners code listener l l1 l2 Hwf
                (Hnone Hall) Hadd1 Hadd2) as (l3 & l4 & Hrm3 & Hrm4 & Hlive & Hrm5).
    exists l3, l4. split; [done|]. split; [done|]. split; [|done]. by rewrite Hlive.
Qed.

Lemma C8_witness :
  exists l3 l4,
    ListenerList.removeListener 5 77 (Examples.registered 2 5 77) = Ok (true, l3) /\
    ListenerList.removeListener 5 77 l3 = Ok (true, l4) /\
    Forall (fun it => ~ (ListenerList.eventCode it = 5 /\ ListenerList.callback it = 77))
      (ListenerList.live l4) /\
    ListenerList.removeListener 5 77 l4 = Ok (false, l4).
Proof.
  assert (Hwf : ListenerList.wf 8 Examples.listeners0).
  { constructor; by_computation. }
  apply (proj2 (proj2 (C8_removeListener_first_match 8 Examples.listeners0 5 77 Hwf)))
    with (l1 := Examples.registered 1 5 77).
  - constructor.
  - reflexivity.
  - reflexivity.
Defined.



(** * Further properties of the code *)

(** ** Lists *)

Lemma filter_find_index_Some {A : Type} (test : A -> bool) (l : list A) (k : nat) :
  find_index test l = Some k ->
  List.filter (fun x => negb (test x)) (delete k l) = List.filter (fun x => negb (test x)) l /\
  S (length (List.filter test (delete k l))) = length (List.filter test l).
Proof.
  revert k. induction l as [|x l IH]; intros k; simpl; [done|].
  destruct (test x) eqn:Hx; simpl.
  - intros [= <-]. done.
  - destruct (find_index test l) as [k'|]; [|done]. simpl. intros [= <-].
    destruct (IH k' eq_refl) as [IH1 IH2]. simpl. rewrite Hx. simpl.
    by rewrite IH1, IH2.
Qed.

Lemma filter_find_index_None {A : Type} (test : A -> bool) (l : list A) :
  find_index test l = None ->
  List.filter (fun x => negb (test x)) l = l /\ List.filter test l = [].
Proof.
  induction l as [|x l IH]; simpl; [done|].
  destruct (test x) eqn:Hx; [done|].
  destruct (find_index test l); [done|]. intros _. simpl.
  destruct (IH eq_refl) as [-> ->]. done.
Qed.

Lemma find_index_is_first_match {A : Type} (test : A -> bool) (l : list A) :
  is_first_match test l (index_or_minus1 (find_index test l)).
Proof.
  destruct (find_index test l) as [k|] eqn:Hfind; simpl.
  - right. split; [lia|]. rewrite Nat2Z.id.
    by apply find_index_Some.
  - left. split; [done|]. by apply find_index_None.
Qed.

(** ** The dispatch table *)

Section ListenerListMore.

Import ListenerList.

Variable kMaxListeners : Z.

#[local] Abbreviation wf := (ListenerList.wf kMaxListeners).

Lemma searchEventCode_spec (code : Z) (l : t) :
  wf l ->
  searchEventCode code l
    = Ok (index_or_minus1 (find_index (fun it => eventCode it =? code) (live l))).
Proof.
  intros [Hs Hlen Hc Hl]. unfold searchEventCode.
  change 0 with (Z.of_nat 0).
  rewrite search_loop_spec by lia.
  unfold live. rewrite drop_0. simpl.
  by destruct (find_index _ _).
Qed.

(** The loop of [removeListener( listener )] removes the matches one by
    one, first to last. *)
Lemma remove_all_loop_spec (fuel : nat) (listener : EventListener) (removed : Z) (l : t) :
  wf l -> (Z.to_nat (mNumListeners l) < fuel)%nat ->
  let hits := List.filter (fun it => callback it =? listener) (live l) in
  exists l',
    remove_all_loop fuel listener removed l = Ok (removed + Z.of_nat (length hits), l') /\
    wf l' /\
    live l' = List.filter (fun it => negb (callback it =? listener)) (live l) /\
    mNumListeners l' = mNumListeners l - Z.of_nat (length hits) /\
    mDefaultCallback l' = mDefaultCallback l /\
    mDefaultCallbackEnabled l' = mDefaultCallbackEnabled l.
Proof.
  revert removed l. induction fuel as [|fuel IH]; intros removed l Hwf Hfuel hits; [lia|].
  simpl. rewrite (searchListeners'_spec kMaxListeners) by done. simpl.
  destruct (find_index _ _) as [k|] eqn:Hfind; simpl.
  - pose proof (find_index_lt _ _ _ Hfind) as Hk.
    rewrite (live_length kMaxListeners) in Hk by done.
    destruct (Z.leb_spec 0 (Z.of_nat k)) as [_|]; [|lia].
    assert (Hc : 0 <= mNumListeners l) by (destruct Hwf; lia).
    rewrite (shift_down_compacted kMaxListeners) by (done || lia). simpl.
    rewrite Nat2Z.id.
    destruct (removed_wf kMaxListeners k l Hwf Hk) as [Hwf1 Hlive1].
    destruct (filter_find_index_Some _ _ _ Hfind) as [Hkeep Hhits].
    match goal with
    | |- context [remove_all_loop fuel listener ?r ?l1] =>
        destruct (IH r l1 Hwf1) as (l' & Hloop & Hwf' & Hlive' & Hcount' & Hd & He)
    end.
    { simpl. lia. }
    exists l'. rewrite Hloop, Hlive', Hcount', Hd, He, Hlive1, Hkeep. simpl.
    subst hits. rewrite <- Hhits.
    split; [do 2 f_equal; lia|]. split; [done|]. split; [done|]. split; [lia|done].
  - destruct (filter_find_index_None _ _ Hfind) as [Hkeep Hhits].
    subst hits. rewrite Hhits, Hkeep. simpl. exists l.
    split; [do 2 f_equal; lia|]. split; [done|]. split; [done|]. split; [lia|done].
Qed.

Lemma removeListener'_spec (listener : EventListener) (l : t) :
  wf l ->
  let hits := List.filter (fun it => callback it =? listener) (live l) in
  exists l',
    removeListener' listener l = Ok (Z.of_nat (length hits), l') /\
    wf l' /\
    live l' = List.filter (fun it => negb (callback it =? listener)) (live l) /\
    mNumListeners l' = mNumListeners l - Z.of_nat (length hits) /\
    mDefaultCallback l' = mDefaultCallback l /\
    mDefaultCallbackEnabled l' = mDefaultCallbackEnabled l.
Proof.
  intros Hwf hits. unfold removeListener'.
  destruct (Z.eqb_spec (mNumListeners l) 0) as [Hz|Hnz].
  - exists l. subst hits. unfold live. rewrite Hz. simpl.
    split; [done|]. split; [done|]. split; [done|]. split; [lia|done].
  - destruct (remove_all_loop_spec (S (Z.to_nat (mNumListeners l))) listener 0 l Hwf)
      as (l' & Hloop & H'); [lia|].
    exists l'. by rewrite Hloop.
Qed.

Lemma find_index_insert_same {A : Type} (test : A -> bool) (l : list A) (k : nat) (x y : A) :
  l !! k = Some x -> test y = test x ->
  find_index test (<[k := y]> l) = find_index test l.
Proof.
  revert k. induction l as [|a l IH]; intros k Hk Hxy; [done|].
  destruct k as [|k]; simpl in *.
  - injection Hk as ->. by rewrite Hxy.
  - by rewrite (IH k).
Qed.

Lemma isListenerEnabled_spec (code : Z) (listener : EventListener) (l : t) :
  wf l ->
  isListenerEnabled code listener l =
    match find_index (same_pair code listener) (live l) with
    | Some k =>
        match live l !! k with
        | Some it => Ok (enabled it)
        | None => Undefined
        end
    | None => Ok false
    end.
Proof.
  intros Hwf. unfold isListenerEnabled.
  rewrite (searchListeners_spec kMaxListeners) by done. simpl.
  destruct (Z.eqb_spec (mNumListeners l) 0) as [Hz|Hnz].
  { unfold live. rewrite Hz. simpl. done. }
  destruct (find_index _ _) as [k|] eqn:Hfind; simpl; [|done].
  destruct (find_index_Some _ _ _ Hfind) as (it & Hit & _).
  rewrite Hit.
  destruct (Z.ltb_spec (Z.of_nat k) 0) as [|_]; [lia|].
  unfold live in Hit. apply lookup_take_Some in Hit as [Hit _].
  rewrite (array_get_ok _ _ it) by (rewrite ?Nat2Z.id; done || lia). done.
Qed.

(** The table after [enableListener] found the pair at position [k]. *)
Lemma enableListener_found (code : Z) (listener : EventListener) (enable : bool)
    (l : t) (k : nat) :
  wf l -> find_index (same_pair code listener) (live l) = Some k ->
  exists it l',
    live l !! k = Some it /\
    enableListener code listener enable l = Ok (true, l') /\
    wf l' /\
    live l' = <[k := set_enabled enable it]> (live l) /\
    mNumListeners l' = mNumListeners l /\
    mDefaultCallback l' = mDefaultCallback l /\
    mDefaultCallbackEnabled l' = mDefaultCallbackEnabled l.
Proof.
  intros Hwf Hfind.
  destruct (find_index_Some _ _ _ Hfind) as (it & Hit & _).
  pose proof (find_index_lt _ _ _ Hfind) as Hk.
  rewrite (live_length kMaxListeners) in Hk by done.
  destruct (enableListener_ok kMaxListeners code listener enable l Hwf)
    as (r & l' & Hen & Hwf').
  rewrite (enableListener_spec kMaxListeners), Hfind in Hen by done.
  pose proof Hit as Hit'. unfold live in Hit'. apply lookup_take_Some in Hit' as [Hit' _].
  rewrite Hit' in Hen. injection Hen as <- <-.
  exists it, (with_listeners (mNumListeners l) (<[k := set_enabled enable it]> (mListeners l)) l).
  split; [done|]. split.
  { by rewrite (enableListener_spec kMaxListeners), Hfind, Hit'. }
  split; [done|]. split; [|done].
  unfold live. simpl. by rewrite take_insert_lt.
Qed.

End ListenerListMore.

Section ListenerListStatements.

Import ListenerList.

(** X1.  [addListener] refuses a null listener, and any listener when
    the table is full: it returns [false] and the table is as before.
    Otherwise it returns [true]; the new registration, enabled, is the
    last live entry, the earlier ones and the default listener are as
    before, and the count has grown by one. *)
Theorem X1_addListener_appends_or_rejects (kMaxListeners : Z) (l : t)
    (code : Z) (listener : EventListener) :
  (listener = 0 \/ mNumListeners l = kMaxListeners ->
   addListener kMaxListeners code listener l = Ok (false, l)) /\
  (wf kMaxListeners l -> listener <> 0 -> mNumListeners l <> kMaxListeners ->
   exists l',
     addListener kMaxListeners code listener l = Ok (true, l') /\
     wf kMaxListeners l' /\
     mNumListeners l' = mNumListeners l + 1 /\
     live l' = live l ++ [{| callback := listener; eventCode := code; enabled := true |}] /\
     mDefaultCallback l' = mDefaultCallback l /\
     mDefaultCallbackEnabled l' = mDefaultCallbackEnabled l).
Proof.
  split.
  - intros [->|Hfull].
    + apply addListener_null.
    + by apply addListener_full.
  - intros Hwf Hn Hnf.
    pose proof (addListener_ok kMaxListeners code listener l Hwf Hn Hnf) as Hadd.
    destruct (addListener_inv kMaxListeners _ _ _ _ Hwf Hadd) as [Hwf' Hlive].
    eexists. split; [exact Hadd|]. split; [done|]. split; [done|]. split; [done|]. done.
Qed.

Lemma X1_witness :
  addListener 8 5 77 MoreExamples.table_full = Ok (false, MoreExamples.table_full) /\
  exists l',
    addListener 8 5 77 Examples.listeners0 = Ok (true, l') /\
    mNumListeners l' = 1 /\
    live l' = [{| callback := 77; eventCode := 5; enabled := true |}].
Proof.
  split.
  - apply (proj1 (X1_addListener_appends_or_rejects 8 MoreExamples.table_full 5 77)).
    right. reflexivity.
  - destruct (proj2 (X1_addListener_appends_or_rejects 8 Examples.listeners0 5 77))
      as (l' & Hadd & _ & Hcount & Hlive & _).
    + constructor; by_computation.
    + lia.
    + simpl. lia.
    + exists l'. split; [exact Hadd|]. split; [exact Hcount|exact Hlive].
Defined.

(** X3.  In a well-formed table [removeListener( listener )] returns the
    number of live entries whose callback is [listener]; afterwards the
    live entries are the former ones with another callback, in their
    former order, the count has dropped by the number returned, and the
    default listener is as before. *)
Theorem X3_removeListener_all (kMaxListeners : Z) (l : t) (listener : EventListener) :
  wf kMaxListeners l ->
  let hits := List.filter (fun it => callback it =? listener) (live l) in
  exists l',
    removeListener' listener l = Ok (Z.of_nat (length hits), l') /\
    wf kMaxListeners l' /\
    live l' = List.filter (fun it => negb (callback it =? listener)) (live l) /\
    mNumListeners l' = mNumListeners l - Z.of_nat (length hits) /\
    mDefaultCallback l' = mDefaultCallback l /\
    mDefaultCallbackEnabled l' = mDefaultCallbackEnabled l.
Proof. intros Hwf. by apply removeListener'_spec. Qed.

Lemma X3_witness :
  exists l',
    removeListener' 77 MoreExamples.table_mixed = Ok (2, l') /\
    live l' = [{| callback := 78; eventCode := 5; enabled := true |}].
Proof.
  destruct (X3_removeListener_all 8 MoreExamples.table_mixed 77)
    as (l' & Hrm & _ & Hlive & _).
  - constructor; by_computation.
  - exists l'. split; [exact Hrm|exact Hlive].
Defined.

(** X4.  In a well-formed table [enableListener( eventCode, listener,
    enable )] sets the enabled flag of the first live entry equal to
    the pair and returns [true]; every other entry, the count and the
    default listener are as before.  Without such an entry it returns
    [false] and the table is as before. *)
Theorem X4_enableListener_first_match (kMaxListeners : Z) (l : t)
    (code : Z) (listener : EventListener) (enable : bool) :
  wf kMaxListeners l ->
  let is_pair (it : ListenerItem) := eventCode it = code /\ callback it = listener in
  (forall k it,
     live l !! k = Some it -> is_pair it ->
     (forall j it', (j < k)%nat -> live l !! j = Some it' -> ~ is_pair it') ->
     exists l',
       enableListener code listener enable l = Ok (true, l') /\
       wf kMaxListeners l' /\
       live l' = <[k := {| callback := listener; eventCode := code; enabled := enable |}]> (live l) /\
       mNumListeners l' = mNumListeners l /\
       mDefaultCallback l' = mDefaultCallback l /\
       mDefaultCallbackEnabled l' = mDefaultCallbackEnabled l) /\
  (Forall (fun it => ~ is_pair it) (live l) ->
   enableListener code listener enable l = Ok (false, l)).
Proof.
  intros Hwf is_pair.
  assert (Htest : forall it, same_pair code listener it = true <-> is_pair it).
  { intros it. unfold same_pair, is_pair. rewrite andb_true_iff, !Z.eqb_eq. done. }
  split.
  - intros k it Hk [Hcode Hcb] Hbefore.
    destruct (enableListener_found kMaxListeners code listener enable l k Hwf)
      as (it' & l' & Hit' & Hen & Hwf' & Hlive & Hrest).
    { apply (find_index_first _ _ _ it); [done|by apply Htest|].
      intros j it'' Hj Hj'. specialize (Hbefore j it'' Hj Hj').
      rewrite <- Htest in Hbefore. by destruct (same_pair _ _ _). }
    exists l'. split; [done|]. split; [done|]. split; [|done].
    rewrite Hlive. assert (it' = it) as -> by congruence.
    unfold set_enabled. by rewrite Hcode, Hcb.
  - intros Hall. rewrite (enableListener_spec kMaxListeners) by done.
    rewrite find_index_absent; [done|].
    eapply Forall_impl; [exact Hall|].
    intros it Hit. simpl in Hit. rewrite <- Htest in Hit. by destruct (same_pair _ _ _).
Qed.

Lemma X4_witness :
  exists l',
    enableListener 5 77 false MoreExamples.table_mixed = Ok (true, l') /\
    live l' = [{| callback := 77; eventCode := 5; enabled := false |};
               {| callback := 78; eventCode := 5; enabled := true |};
               {| callback := 77; eventCode := 6; enabled := true |}].
Proof.
  assert (Hwf : wf 8 MoreExamples.table_mixed) by (constructor; by_computation).
  destruct (proj1 (X4_enableListener_first_match 8 MoreExamples.table_mixed 5 77 false Hwf)
              0%nat {| callback := 77; eventCode := 5; enabled := true |})
    as (l' & Hen & _ & Hlive & _).
  - reflexivity.
  - split; reflexivity.
  - intros j it' Hj. lia.
  - exists l'. split; [exact Hen|exact Hlive].
Defined.

(** X5.  In a well-formed table [isListenerEnabled( eventCode, listener )]
    returns the enabled flag of the first live entry equal to the pair,
    and [false] when there is none.  After a successful
    [enableListener( eventCode, listener, enable )] it returns [enable]. *)
Theorem X5_isListenerEnabled_first_match (kMaxListeners : Z) (l : t)
    (code : Z) (listener : EventListener) :
  wf kMaxListeners l ->
  let is_pair (it : ListenerItem) := eventCode it = code /\ callback it = listener in
  (forall k it,
     live l !! k = Some it -> is_pair it ->
     (forall j it', (j < k)%nat -> live l !! j = Some it' -> ~ is_pair it') ->
     isListenerEnabled code listener l = Ok (enabled it)) /\
  (Forall (fun it => ~ is_pair it) (live l) ->
   isListenerEnabled code listener l = Ok false) /\
  (forall enable l',
     enableListener code listener enable l = Ok (true, l') ->
     isListenerEnabled code listener l' = Ok enable).
Proof.
  intros Hwf is_pair.
  assert (Htest : forall it, same_pair code listener it = true <-> is_pair it).
  { intros it. unfold same_pair, is_pair. rewrite andb_true_iff, !Z.eqb_eq. done. }
  split; [|split].
  - intros k it Hk Hit Hbefore.
    rewrite (isListenerEnabled_spec kMaxListeners) by done.
    rewrite (find_index_first _ _ k it), Hk; [done..|by apply Htest|].
    intros j it'' Hj Hj'. specialize (Hbefore j it'' Hj Hj').
    rewrite <- Htest in Hbefore. by destruct (same_pair _ _ _).
  - intros Hall. rewrite (isListenerEnabled_spec kMaxListeners) by done.
    rewrite find_index_absent; [done|].
    eapply Forall_impl; [exact Hall|].
    intros it Hit. simpl in Hit. rewrite <- Htest in Hit. by destruct (same_pair _ _ _).
  - intros enable l' Hen.
    destruct (find_index (same_pair code listener) (live l)) as [k|] eqn:Hfind.
    2: { rewrite (enableListener_spec kMaxListeners), Hfind in Hen by done. done. }
    destruct (enableListener_found kMaxListeners code listener enable l k Hwf Hfind)
      as (it & l1 & Hit & Hen1 & Hwf1 & Hlive1 & _).
    assert (l1 = l') as -> by congruence.
    rewrite (isListenerEnabled_spec kMaxListeners) by done.
    rewrite Hlive1, (find_index_insert_same _ _ _ it) by done.
    rewrite Hfind, list_lookup_insert_eq by (by eapply lookup_lt_Some). done.
Qed.

Lemma X5_witness :
  isListenerEnabled 5 77 MoreExamples.table_disabled = Ok false /\
  isListenerEnabled 6 77 MoreExamples.table_disabled = Ok true.
Proof.
  assert (Hwf : wf 8 MoreExamples.table_disabled) by (constructor; by_computation).
  split.
  - apply (proj1 (X5_isListenerEnabled_first_match 8 MoreExamples.table_disabled 5 77 Hwf)
             0%nat {| callback := 77; eventCode := 5; enabled := false |}).
    + reflexivity.
    + split; reflexivity.
    + intros j it' Hj. lia.
  - apply (proj1 (X5_isListenerEnabled_first_match 8 MoreExamples.table_disabled 6 77 Hwf)
             2%nat {| callback := 77; eventCode := 6; enabled := true |}).
    + reflexivity.
    + split; reflexivity.
    + intros [|[|j]] it' Hj; [| |lia]; intros [= <-]; simpl; intros [H1 H2]; discriminate.
Defined.

(** X8.  In a well-formed table each of the three search loops returns
    [-1] when no live entry passes its test, and otherwise the least
    index of a live entry that does; entries past the live ones are
    never looked at. *)
Theorem X8_search_least_index_or_minus1 (kMaxListeners : Z) (l : t)
    (code : Z) (listener : EventListener) :
  wf kMaxListeners l ->
  (exists k,
     searchListeners code listener l = Ok k /\
     is_first_match (fun it => (eventCode it =? code) && (callback it =? listener)) (live l) k) /\
  (exists k,
     searchListeners' listener l = Ok k /\
     is_first_match (fun it => callback it =? listener) (live l) k) /\
  (exists k,
     searchEventCode code l = Ok k /\
     is_first_match (fun it => eventCode it =? code) (live l) k).
Proof.
  intros Hwf. split; [|split]; eexists; split.
  - by apply (searchListeners_spec kMaxListeners).
  - apply (find_index_is_first_match (same_pair code listener)).
  - by apply (searchListeners'_spec kMaxListeners).
  - apply find_index_is_first_match.
  - by apply (searchEventCode_spec kMaxListeners).
  - apply find_index_is_first_match.
Qed.

Lemma X8_witness :
  exists k,
    searchListeners 6 77 MoreExamples.table_mixed = Ok k /\
    is_first_match (fun it => (eventCode it =? 6) && (callback it =? 77))
      (live MoreExamples.table_mixed) k.
Proof.
  apply (proj1 (X8_search_least_index_or_minus1 8 MoreExamples.table_mixed 6 77
                  ltac:(constructor; by_computation))).
Defined.

End ListenerListStatements.

(** ** The ring buffer *)

Section EventQueueMore.

Import EventQueue.

Variable kEventQueueSize : Z.

#[local] Abbreviation wf := (EventQueue.wf kEventQueueSize).
#[local] Abbreviation contents := (EventQueue.contents kEventQueueSize).

(** Of a list of submissions, as many as there are free slots are
    accepted, in order, and the others are refused. *)
Lemma queueEvents_capacity (events : list (Z * Z)) (q : t) :
  wf q ->
  let free := Z.to_nat (kEventQueueSize - mNumEvents q) in
  exists q',
    EventQueue.queueEvents kEventQueueSize events q
      = Ok (replicate (length events `min` free) true
              ++ replicate (length events - free) false, q') /\
    wf q' /\
    event_pair <$> contents q' = (event_pair <$> contents q) ++ take free events /\
    mNumEvents q' = mNumEvents q + Z.of_nat (length events `min` free).
Proof.
  revert q. induction events as [|[c p] events IH]; intros q Hwf free.
  - exists q. cbn [EventQueue.queueEvents length]. rewrite take_nil, !app_nil_r.
    simpl. split; [done|]. split; [done|]. split; [done|]. lia.
  - pose proof Hwf as [[Hs Hlen Hh Ht Hc] Hr].
    cbn [EventQueue.queueEvents].
    destruct (Z.eq_dec (mNumEvents q) kEventQueueSize) as [Hf|Hnf].
    + rewrite queueEvent_full by done. cbn [bind].
      destruct (IH q Hwf) as (q' & Hrest & Hwf' & Hc' & Hn').
      subst free.
      replace (Z.to_nat (kEventQueueSize - mNumEvents q)) with 0%nat in * by lia.
      rewrite Hrest. cbn [bind]. exists q'.
      rewrite !Nat.min_0_r, !Nat.sub_0_r, ?take_0 in *. simpl in *.
      split; [done|]. split; [done|]. split; [done|]. lia.
    + pose proof (queueEvent_not_full kEventQueueSize q c p (wf_bounded _ _ Hwf) Hnf) as Hq.
      pose proof (queueEvent_wf _ _ _ _ _ _ Hwf Hq) as Hwf1.
      pose proof (contents_queueEvent _ _ _ _ _ Hwf Hq) as Hc1.
      rewrite Hq. cbn [bind].
      match type of Hq with _ = Ok (_, ?q1) => set (q1' := q1) in * end.
      destruct (IH q1' Hwf1) as (q' & Hrest & Hwf' & Hc' & Hn').
      rewrite Hrest. cbn [bind]. exists q'.
      assert (Hfree : free = S (Z.to_nat (kEventQueueSize - mNumEvents q1'))).
      { subst free q1'. simpl. lia. }
      rewrite Hfree. simpl.
      split; [done|]. split; [done|]. split.
      * rewrite Hc', Hc1, fmap_app, <- app_assoc. done.
      * rewrite Hn'. subst q1'. simpl. lia.
Qed.

Lemma reachable_queueEvents (events : list (Z * Z)) (q q' : EventQueue.t) (rs : list bool) :
  EventQueue.reachable kEventQueueSize q ->
  EventQueue.queueEvents kEventQueueSize events q = Ok (rs, q') ->
  EventQueue.reachable kEventQueueSize q'.
Proof.
  revert q rs. induction events as [|[c p] events IH]; intros q rs Hq H.
  - by injection H as _ <-.
  - cbn [EventQueue.queueEvents] in H.
    apply bind_Ok_inv in H as ([r q1] & H1 & H).
    apply bind_Ok_inv in H as ([rs1 q2] & H2 & [= _ <-]).
    eapply IH; [|exact H2]. eapply EventQueue.reachable_queueEvent; [exact Hq|exact H1].
Qed.

Lemma ring_head_eq_tail (q : t) :
  wf q -> (mEventQueueHead q = mEventQueueTail q <-> mNumEvents q = 0 \/ mNumEvents q = kEventQueueSize).
Proof.
  intros [[Hs Hlen Hh Ht Hc] Hr]. split.
  - intros Heq.
    destruct (Z.eq_dec (mNumEvents q) 0) as [|Hnz]; [by left|].
    destruct (Z.eq_dec (mNumEvents q) kEventQueueSize) as [|Hnf]; [by right|].
    exfalso. apply (ring_index_ne kEventQueueSize (mEventQueueHead q) 0 (mNumEvents q));
      [lia..|].
    rewrite Z.add_0_r, Z.mod_small by lia. congruence.
  - intros [Hz|Hf]; rewrite Hr.
    + rewrite Hz, Z.add_0_r, Z.mod_small by lia. done.
    + rewrite Hf. rewrite <- (Z.mul_1_l kEventQueueSize) at 1.
      rewrite Z.mod_add by lia. rewrite Z.mod_small by lia. done.
Qed.

End EventQueueMore.

Section EventQueueStatements.

Import EventQueue.

(** X9.  Of a sequence of [queueEvent] calls on a well-formed queue with
    [free] free slots, the first [free] return [true] and all later ones
    return [false]: the queue then holds its former events followed by
    the first [free] submitted ones, and the others are lost. *)
Theorem X9_queueEvent_keeps_oldest_when_full (kEventQueueSize : Z) (q : t)
    (events : list (Z * Z)) :
  wf kEventQueueSize q ->
  let free := Z.to_nat (kEventQueueSize - mNumEvents q) in
  exists q',
    queueEvents kEventQueueSize events q
      = Ok (replicate (length events `min` free) true
              ++ replicate (length events - free) false, q') /\
    wf kEventQueueSize q' /\
    event_pair <$> contents kEventQueueSize q'
      = (event_pair <$> contents kEventQueueSize q) ++ take free events /\
    mNumEvents q' = mNumEvents q + Z.of_nat (length events `min` free).
Proof. intros Hwf. by apply queueEvents_capacity. Qed.

Lemma X9_witness :
  exists q',
    queueEvents 8 [(9, 90); (10, 100); (11, 110)]
        (Examples.queue_after [(1, 10); (2, 20); (3, 30); (4, 40); (5, 50); (6, 60)])
      = Ok ([true; true; false], q') /\
    event_pair <$> contents 8 q'
      = [(1, 10); (2, 20); (3, 30); (4, 40); (5, 50); (6, 60); (9, 90); (10, 100)].
Proof.
  destruct (X9_queueEvent_keeps_oldest_when_full 8
              (Examples.queue_after [(1, 10); (2, 20); (3, 30); (4, 40); (5, 50); (6, 60)])
              [(9, 90); (10, 100); (11, 110)])
    as (q' & Hq & _ & Hc & _).
  - split; [constructor|]; by_computation.
  - exists q'. split; [exact Hq|exact Hc].
Defined.

(** X10.  A well-formed queue behaves as the list of its queued events,
    oldest first.  [queueEvent] returns [true] exactly when fewer than
    [kEventQueueSize] events are queued, and then appends the event;
    otherwise the list is as before.  [popEvent] returns [false] on the
    empty list and changes nothing; otherwise it returns [true], leaves
    the first event of the list in its two output cells and removes it
    from the list.  The list has [mNumEvents] elements. *)
Theorem X10_queue_is_bounded_fifo_list (kEventQueueSize : Z) (q : t) :
  wf kEventQueueSize q ->
  length (contents kEventQueueSize q) = Z.to_nat (mNumEvents q) /\
  (forall c p,
     exists r q',
       queueEvent kEventQueueSize c p q = Ok (r, q') /\
       wf kEventQueueSize q' /\
       (r = true <-> (length (contents kEventQueueSize q) < Z.to_nat kEventQueueSize)%nat) /\
       contents kEventQueueSize q' =
         if r then contents kEventQueueSize q ++ [{| code := c; param := p |}]
         else contents kEventQueueSize q) /\
  (forall eventCode eventParam,
     exists r eventCode' eventParam' q',
       popEvent kEventQueueSize eventCode eventParam q = Ok (r, eventCode', eventParam', q') /\
       wf kEventQueueSize q' /\
       match contents kEventQueueSize q with
       | [] => r = false /\ eventCode' = eventCode /\ eventParam' = eventParam /\ q' = q
       | e :: rest =>
           r = true /\ eventCode' = Some (code e) /\ eventParam' = Some (param e) /\
           contents kEventQueueSize q' = rest
       end).
Proof.
  intros Hwf. pose proof (contents_length _ _ Hwf) as Hlen.
  pose proof Hwf as [[Hs Hl Hh Ht Hc] Hr].
  split; [done|]. split.
  - intros c p. rewrite Hlen.
    destruct (Z.eq_dec (mNumEvents q) kEventQueueSize) as [Hf|Hnf].
    + rewrite queueEvent_full by done. exists false, q.
      split; [done|]. split; [done|]. split; [|done]. split; [done|lia].
    + pose proof (queueEvent_not_full kEventQueueSize q c p (wf_bounded _ _ Hwf) Hnf) as Hq.
      eexists true, _. split; [exact Hq|].
      split; [by eapply queueEvent_wf|]. split; [split; [lia|done]|].
      by apply contents_queueEvent.
  - intros c p.
    destruct (Z.eq_dec (mNumEvents q) 0) as [Hz|Hnz].
    + rewrite popEvent_empty by done. exists false, c, p, q.
      split; [done|]. split; [done|]. by rewrite contents_empty.
    + destruct (popEvent_not_empty kEventQueueSize q c p (wf_bounded _ _ Hwf) Hnz)
        as (e & _ & Hpop).
      destruct (contents_popEvent _ _ _ _ _ _ _ Hwf Hpop) as (e' & He1 & He2 & Hcont).
      eexists true, _, _, _. split; [exact Hpop|].
      split; [by eapply popEvent_wf|]. rewrite Hcont. done.
Qed.

Lemma X10_witness :
  length (contents 8 (Examples.queue_after [(1, 10); (2, 20)])) = 2%nat /\
  exists r c p q',
    popEvent 8 None None (Examples.queue_after [(1, 10); (2, 20)]) = Ok (r, c, p, q') /\
    wf 8 q'.
Proof.
  destruct (X10_queue_is_bounded_fifo_list 8 (Examples.queue_after [(1, 10); (2, 20)]))
    as (Hlen & _ & Hpop).
  - split; [constructor|]; by_computation.
  - split; [exact Hlen|].
    destruct (Hpop None None) as (r & c & p & q' & Hp & Hwf & _).
    exists r, c, p, q'. split; [exact Hp|exact Hwf].
Defined.

(** X11.  In every queue state that the constructor, [queueEvent] and
    [popEvent] produce, the tail is [mNumEvents] slots past the head,
    circularly, and count and indices are within their bounds; so head
    and tail coincide exactly when the queue is empty or full, which
    only the count tells apart. *)
Theorem X11_reachable_queue_is_a_ring (kEventQueueSize : Z) (q : t) :
  0 < kEventQueueSize ->
  reachable kEventQueueSize q ->
  bounded kEventQueueSize q /\
  mEventQueueTail q = (mEventQueueHead q + mNumEvents q) mod kEventQueueSize /\
  (mEventQueueHead q = mEventQueueTail q <->
   isEmpty q = true \/ isFull kEventQueueSize q = true).
Proof.
  intros Hs Hreach. pose proof (EventQueue_reachable_wf _ _ Hs Hreach) as Hwf.
  split; [apply Hwf|]. split; [apply Hwf|].
  rewrite (ring_head_eq_tail kEventQueueSize) by done.
  unfold isEmpty, isFull. by rewrite !Z.eqb_eq.
Qed.

Lemma X11_witness :
  mEventQueueTail Examples.queue_full = (mEventQueueHead Examples.queue_full + 8) mod 8 /\
  mEventQueueHead Examples.queue_full = mEventQueueTail Examples.queue_full.
Proof.
  destruct (X11_reachable_queue_is_a_ring 8 Examples.queue_full) as (_ & Hring & Hiff).
  - lia.
  - apply (reachable_queueEvents 8
             [(1, 10); (2, 20); (3, 30); (4, 40); (5, 50); (6, 60); (7, 70); (8, 80)]
             (EventQueue 8 true) Examples.queue_full (replicate 8 true));
      [apply reachable_ctor|vm_compute; reflexivity].
  - split; [exact Hring|]. apply Hiff. right. reflexivity.
Defined.

End EventQueueStatements.

(** ** The dispatcher *)


Lemma spec_dispatch_ext (code : Z) (l1 l2 : ListenerList.t) :
  spec_matching code l1 = spec_matching code l2 ->
  ListenerList.mDefaultCallback l1 = ListenerList.mDefaultCallback l2 ->
  ListenerList.mDefaultCallbackEnabled l1 = ListenerList.mDefaultCallbackEnabled l2 ->
  spec_dispatch code l1 = spec_dispatch code l2.
Proof.
  intros Hm Hd He. unfold spec_dispatch, spec_default. by rewrite Hm, Hd, He.
Qed.

Lemma filter_app_bool {A : Type} (f : A -> bool) (l1 l2 : list A) :
  List.filter f (l1 ++ l2) = List.filter f l1 ++ List.filter f l2.
Proof.
  induction l1 as [|x l1 IH]; simpl; [done|]. rewrite IH. by destruct (f x).
Qed.

Section SendEventBound.

Variable W : Type.
Variable registry : W -> ListenerList.t.
Variable invoke : ListenerList.EventListener -> Z -> Z -> W -> W.

(** The scan counts at most one call per iteration. *)
Lemma sendEvent_loop_bound (steps : nat) (i code param h : Z) (w w' : W) (n : Z) :
  ListenerList.sendEvent_loop W registry invoke steps i code param h w = Ok (n, w') ->
  h <= n <= h + Z.of_nat steps.
Proof.
  revert i h w. induction steps as [|steps IH]; intros i h w; simpl.
  - destruct (i <? _); [done|]. intros [= <- <-]. lia.
  - destruct (i <? _); [|intros [= <- <-]; lia].
    intros H. apply bind_Ok_inv in H as (it & _ & H).
    destruct (negb _ && _ && _); apply IH in H; lia.
Qed.

Lemma sendEvent_bound (kMaxListeners : Z) (code param : Z) (w w' : W) (n : Z) :
  ListenerList.sendEvent kMaxListeners W registry invoke code param w = Ok (n, w') ->
  0 <= n <= Z.max 1 kMaxListeners.
Proof.
  unfold ListenerList.sendEvent. intros H.
  apply bind_Ok_inv in H as ([h w1] & Hloop & H).
  apply sendEvent_loop_bound in Hloop.
  destruct (Z.eqb_spec h 0) as [->|Hnz].
  - destruct (negb _ && _); injection H as <- _; lia.
  - injection H as <- _. lia.
Qed.

End SendEventBound.

Section EventManagerMore.

Import EventManager.

Variable kEventQueueSize : Z.
Variable kMaxListeners : Z.
Variable run : ListenerList.EventListener -> Z -> Z -> t -> t.

#[local] Abbreviation sendEvent := (EventManager.sendEvent kMaxListeners run).
#[local] Abbreviation popEvent := (EventManager.popEvent kEventQueueSize).
#[local] Abbreviation processEvent :=
  (EventManager.processEvent kEventQueueSize kMaxListeners run).
#[local] Abbreviation pairs :=
  (fun q => EventQueue.event_pair <$> EventQueue.contents kEventQueueSize q).

(** Dispatch when the listeners leave the table as it is. *)
Lemma sendEvent_spec_dispatch (code param : Z) (w : world) :
  ListenerList.wf kMaxListeners (mListeners (manager w)) ->
  (forall listener c p m, mListeners (run listener c p m) = mListeners m) ->
  exists w',
    sendEvent code param w
      = Ok (Z.of_nat (length (spec_dispatch code (mListeners (manager w)))), w') /\
    trace w' = trace w ++ calls code param (spec_dispatch code (mListeners (manager w))).
Proof.
  intros Hwf Hrun. unfold EventManager.sendEvent.
  rewrite (sendEvent_fixed kMaxListeners world (fun w => mListeners (manager w))
             (EventManager.invoke run)) by (done || (intros; apply Hrun)).
  eexists. split; [done|]. apply trace_invoke_all.
Qed.

Section RunIdentityMore.

Hypothesis run_id : forall listener code param m, run listener code param m = m.

(** One attempt of [processEvent] on a queue: [popEvent] and the [if]
    that follows it. *)
Lemma attempt_run_id (pri : EventPriority) (c p : int_cell) (h : Z) (m : t)
    (tr : list action) :
  EventQueue.wf kEventQueueSize (queue_of pri m) ->
  ListenerList.wf kMaxListeners (mListeners m) ->
  exists r c' p' w1 n q' tr',
    popEvent pri c p {| manager := m; trace := tr |} = Ok (r, c', p', w1) /\
    (if r then
       do code <- read_cell c';
       do param <- read_cell p';
       sendEvent code param w1
     else Ok (h, w1)) = Ok (n, {| manager := with_queue pri q' m; trace := tr' |}) /\
    EventQueue.wf kEventQueueSize q' /\
    match pairs (queue_of pri m) with
    | [] => n = h /\ q' = queue_of pri m
    | e :: rest => n = handled_count (mListeners m) e /\ pairs q' = rest
    end.
Proof.
  intros Hq Hl. unfold EventManager.popEvent. cbn [manager trace].
  destruct (Z.eq_dec (EventQueue.mNumEvents (queue_of pri m)) 0) as [Hz|Hnz].
  - rewrite popEvent_empty by done. cbn [bind].
    eexists false, c, p, _, h, (queue_of pri m), _.
    split; [done|]. rewrite with_queue_same. split; [done|]. split; [done|].
    by rewrite contents_empty.
  - destruct (popEvent_not_empty _ (queue_of pri m) c p (EventQueue.wf_bounded _ _ Hq) Hnz)
      as (e & _ & Hpop).
    pose proof (popEvent_wf _ _ _ _ _ _ _ _ Hq Hpop) as Hq1.
    destruct (contents_popEvent _ _ _ _ _ _ _ Hq Hpop) as (e' & [= He1] & [= He2] & Hc).
    rewrite Hpop. cbn [bind popped read_cell].
    eexists true, _, _, _, _, _, _. split; [done|]. cbn [bind read_cell].
    rewrite (sendEvent_run_id kMaxListeners run run_id)
      by (rewrite mListeners_with_queue; done).
    split; [done|]. split; [exact Hq1|].
    rewrite Hc. simpl. rewrite mListeners_with_queue.
    unfold handled_count, EventQueue.event_pair. simpl. by rewrite He1.
Qed.

End RunIdentityMore.

Lemma spec_dispatch_matching (code : Z) (l : ListenerList.t) :
  spec_matching code l <> [] -> spec_dispatch code l = spec_matching code l.
Proof. unfold spec_dispatch. by destruct (spec_matching code l). Qed.

Lemma addListener_defaults (code : Z) (listener : ListenerList.EventListener)
    (l l' : ListenerList.t) (r : bool) :
  ListenerList.addListener kMaxListeners code listener l = Ok (r, l') ->
  ListenerList.mDefaultCallback l' = ListenerList.mDefaultCallback l /\
  ListenerList.mDefaultCallbackEnabled l' = ListenerList.mDefaultCallbackEnabled l.
Proof.
  unfold ListenerList.addListener.
  destruct (listener =? 0); [by intros [= _ <-]|].
  destruct (ListenerList.isFull _ _); [by intros [= _ <-]|].
  intros H.
  apply bind_Ok_inv in H as (a1 & _ & H).
  apply bind_Ok_inv in H as (a2 & _ & H).
  apply bind_Ok_inv in H as (a3 & _ & [= _ <-]). done.
Qed.

(** Two tables with the same calls for a code dispatch it alike. *)
Lemma sendEvent_same_dispatch (code param : Z) (m1 m2 : t) (tr : list action) :
  ListenerList.wf kMaxListeners (mListeners m1) ->
  ListenerList.wf kMaxListeners (mListeners m2) ->
  (forall listener c p m, mListeners (run listener c p m) = mListeners m) ->
  spec_dispatch code (mListeners m1) = spec_dispatch code (mListeners m2) ->
  exists n w1 w2,
    sendEvent code param {| manager := m1; trace := tr |} = Ok (n, w1) /\
    sendEvent code param {| manager := m2; trace := tr |} = Ok (n, w2) /\
    trace w1 = trace w2.
Proof.
  intros Hwf1 Hwf2 Hrun Heq.
  destruct (sendEvent_spec_dispatch code param {| manager := m1; trace := tr |} Hwf1 Hrun)
    as (w1 & Hs1 & Ht1).
  destruct (sendEvent_spec_dispatch code param {| manager := m2; trace := tr |} Hwf2 Hrun)
    as (w2 & Hs2 & Ht2).
  simpl in *. rewrite Heq in Hs1, Ht1.
  eexists _, w1, w2. split; [exact Hs1|]. split; [exact Hs2|]. by rewrite Ht1, Ht2.
Qed.

Lemma on_listeners_inv {A : Type} (f : ListenerList.t -> outcome (A * ListenerList.t))
    (m m' : t) (r : A) :
  on_listeners f m = Ok (r, m') ->
  exists l', f (mListeners m) = Ok (r, l') /\ m' = with_listeners l' m.
Proof.
  unfold on_listeners. intros H.
  apply bind_Ok_inv in H as ([r1 l1] & Hf & [= <- <-]). eauto.
Qed.

(** The [if] after a [popEvent] returns a handled count within bounds. *)
Lemma dispatch_popped_bound (r : bool) (c p : int_cell) (w w' : world) (n : Z) :
  (if r then
     do code <- read_cell c;
     do param <- read_cell p;
     sendEvent code param w
   else Ok (0, w)) = Ok (n, w') ->
  0 <= n <= Z.max 1 kMaxListeners.
Proof.
  destruct r.
  - intros H. apply bind_Ok_inv in H as (code & _ & H).
    apply bind_Ok_inv in H as (param & _ & H).
    by apply sendEvent_bound in H.
  - intros [= <- _]. lia.
Qed.

End EventManagerMore.

Section EventManagerStatements.

Import EventManager.

(** X2.  After [addListener( eventCode, listener )] returned [true] on a
    well-formed table that the listeners leave as it is, dispatching
    [eventCode] calls the enabled listeners registered for it before, in
    their order, and then the new one, and never the default listener;
    it returns their number.  Dispatching any other code makes the same
    calls and returns the same count as before the registration. *)
Theorem X2_added_listener_is_called_last (kMaxListeners : Z)
    (run : ListenerList.EventListener -> Z -> Z -> t -> t)
    (m m' : t) (code : Z) (listener : ListenerList.EventListener)
    (param : Z) (tr : list action) :
  let matching :=
    ListenerList.callback <$>
      List.filter (fun it => (ListenerList.eventCode it =? code) && ListenerList.enabled it)
        (ListenerList.live (mListeners m)) in
  ListenerList.wf kMaxListeners (mListeners m) ->
  (forall f c p m0, mListeners (run f c p m0) = mListeners m0) ->
  addListener kMaxListeners code listener m = Ok (true, m') ->
  (exists w',
     sendEvent kMaxListeners run code param {| manager := m'; trace := tr |}
       = Ok (Z.of_nat (length matching) + 1, w') /\
     trace w' = tr ++ calls code param (matching ++ [listener])) /\
  (forall code',
     code' <> code ->
     exists n w1 w1',
       sendEvent kMaxListeners run code' param {| manager := m; trace := tr |} = Ok (n, w1) /\
       sendEvent kMaxListeners run code' param {| manager := m'; trace := tr |} = Ok (n, w1') /\
       trace w1' = trace w1).
Proof.
  intros matching Hwf Hrun Hadd.
  apply on_listeners_inv in Hadd as (l' & Hadd & ->).
  destruct (addListener_inv kMaxListeners _ _ _ _ Hwf Hadd) as [Hwf' Hlive].
  destruct (addListener_defaults _ _ _ _ _ _ Hadd) as [Hd He].
  assert (Hmatch : forall code',
            spec_matching code' l' =
              spec_matching code' (mListeners m)
                ++ (if code =? code' then [listener] else [])).
  { intros code'. unfold spec_matching. rewrite Hlive, filter_app_bool, fmap_app.
    f_equal. simpl. rewrite andb_true_r. by destruct (code =? code'). }
  split.
  - destruct (sendEvent_spec_dispatch kMaxListeners run code param
                {| manager := with_listeners l' m; trace := tr |} Hwf' Hrun)
      as (w' & Hsend & Htr).
    simpl in Hsend, Htr.
    assert (Hsome : spec_matching code l' <> []).
    { rewrite Hmatch, Z.eqb_refl. by destruct (spec_matching code (mListeners m)). }
    rewrite (spec_dispatch_matching _ _ Hsome) in Hsend, Htr.
    rewrite Hmatch, Z.eqb_refl in Hsend, Htr.
    exists w'. split; [|exact Htr].
    rewrite Hsend, length_app. do 2 f_equal. simpl. unfold spec_matching. fold matching. lia.
  - intros code' Hne.
    destruct (sendEvent_same_dispatch kMaxListeners run code' param
                m (with_listeners l' m) tr Hwf Hwf' Hrun) as (n & w1 & w1' & H1 & H2 & Ht).
    { simpl. symmetry. apply spec_dispatch_ext; [|done..].
      rewrite Hmatch. destruct (Z.eqb_spec code code'); [congruence|].
      by rewrite app_nil_r. }
    exists n, w1, w1'. done.
Qed.

Lemma X2_witness :
  exists w',
    sendEvent 8 Examples.run_id 1 10
        {| manager := manager (Examples.after [CallAddListener 1 78] Examples.world_heard);
           trace := [] |}
      = Ok (2, w') /\
    trace w' = [Call 77 1 10; Call 78 1 10].
Proof.
  apply (proj1 (X2_added_listener_is_called_last 8 Examples.run_id
                  (manager Examples.world_heard)
                  (manager (Examples.after [CallAddListener 1 78] Examples.world_heard))
                  1 78 10 []
                  ltac:(constructor; by_computation)
                  ltac:(reflexivity)
                  ltac:(vm_compute; reflexivity))).
Defined.



(** X7.  [setDefaultListener] refuses a null listener and changes
    nothing.  With a non-null one it returns [true], and an event code
    without enabled listener of its own is then dispatched to it: one
    call, handled count 1.  After [enableDefaultListener( false )] such
    an event is handled by nobody, and [enableDefaultListener( true )]
    brings the default listener back; after [removeDefaultListener]
    it is handled by nobody even when the default listener is enabled
    again. *)
Theorem X7_default_listener_life_cycle (kMaxListeners : Z)
    (run : ListenerList.EventListener -> Z -> Z -> t -> t)
    (m : t) (listener : ListenerList.EventListener) (code param : Z) (tr : list action) :
  ListenerList.wf kMaxListeners (mListeners m) ->
  (forall f c p m0, mListeners (run f c p m0) = mListeners m0) ->
  List.filter (fun it => (ListenerList.eventCode it =? code) && ListenerList.enabled it)
    (ListenerList.live (mListeners m)) = [] ->
  listener <> 0 ->
  let handled_by_default (m0 : t) :=
    exists w',
      sendEvent kMaxListeners run code param {| manager := m0; trace := tr |} = Ok (1, w') /\
      trace w' = tr ++ [Call listener code param] in
  let handled_by_nobody (m0 : t) :=
    exists w',
      sendEvent kMaxListeners run code param {| manager := m0; trace := tr |} = Ok (0, w') /\
      trace w' = tr in
  let m1 := (setDefaultListener listener m).2 in
  setDefaultListener 0 m = (false, m) /\
  (setDefaultListener listener m).1 = true /\
  handled_by_default m1 /\
  handled_by_nobody (enableDefaultListener false m1) /\
  handled_by_default (enableDefaultListener true (enableDefaultListener false m1)) /\
  handled_by_nobody (removeDefaultListener m1) /\
  handled_by_nobody (enableDefaultListener true (removeDefaultListener m1)).
Proof.
  intros Hwf Hrun Hnone Hn handled_by_default handled_by_nobody m1.
  assert (Hcase : forall m0 : t,
            ListenerList.live (mListeners m0) = ListenerList.live (mListeners m) ->
            ListenerList.wf kMaxListeners (mListeners m0) ->
            exists w',
              sendEvent kMaxListeners run code param {| manager := m0; trace := tr |}
                = Ok (Z.of_nat (length (spec_default (mListeners m0))), w') /\
              trace w' = tr ++ calls code param (spec_default (mListeners m0))).
  { intros m0 Hlive Hwf0.
    destruct (sendEvent_spec_dispatch kMaxListeners run code param
                {| manager := m0; trace := tr |} Hwf0 Hrun) as (w' & Hsend & Htr).
    simpl in Hsend, Htr.
    assert (Hd : spec_dispatch code (mListeners m0) = spec_default (mListeners m0)).
    { unfold spec_dispatch, spec_matching. by rewrite Hlive, Hnone. }
    rewrite Hd in Hsend, Htr. eauto. }
  assert (Hnz : (listener =? 0) = false) by (by apply Z.eqb_neq).
  assert (H0 : setDefaultListener 0 m = (false, m)) by (by destruct m).
  subst m1 handled_by_default handled_by_nobody.
  unfold setDefaultListener, ListenerList.setDefaultListener. rewrite Hnz.
  cbn [fst snd].
  destruct Hwf as [Hs Hlen Hc Hl].
  split; [exact H0|]. split; [done|].
  repeat split_and;
    match goal with
    | |- exists w', sendEvent _ _ _ _ {| manager := ?m0; trace := _ |} = _ /\ _ =>
        destruct (Hcase m0 eq_refl ltac:(by constructor)) as (w' & Hsend & Htr);
        unfold spec_default in Hsend, Htr; simpl in Hsend, Htr;
        rewrite ?Hnz, ?andb_false_r in Hsend, Htr; simpl in Htr;
        rewrite ?app_nil_r in Htr; exists w'; done
    end.
Qed.

Lemma X7_witness :
  exists w',
    sendEvent 8 Examples.run_id 2 20
        {| manager := (setDefaultListener 99 (manager Examples.world_heard)).2; trace := [] |}
      = Ok (1, w') /\
    trace w' = [] ++ [Call 99 2 20].
Proof.
  destruct (X7_default_listener_life_cycle 8 Examples.run_id
              (manager Examples.world_heard) 99 2 20 []) as (_ & _ & Hdefault & _).
  - constructor; by_computation.
  - reflexivity.
  - reflexivity.
  - lia.
  - exact Hdefault.
Defined.

(** X12.  [EventManager::queueEvent( eventCode, eventParam, pri )] acts
    on the queue of priority [pri] alone: it returns [true] exactly when
    that queue was not full and then the queue holds one event more; the
    queue of the other priority and the listener table are as before.
    Submissions to the two queues commute: made in either order they
    return the same results and leave the same dispatcher. *)
Theorem X12_queueEvent_touches_one_queue (kEventQueueSize : Z) (m : t)
    (code param : Z) (pri : EventPriority) :
  EventQueue.bounded kEventQueueSize (queue_of pri m) ->
  exists m',
    queueEvent kEventQueueSize code param pri m
      = Ok (negb (isEventQueueFull kEventQueueSize pri m), m') /\
    getNumEventsInQueue pri m'
      = getNumEventsInQueue pri m
        + (if isEventQueueFull kEventQueueSize pri m then 0 else 1) /\
    queue_of (other_priority pri) m' = queue_of (other_priority pri) m /\
    mListeners m' = mListeners m /\
    forall code2 param2 r2 m2,
      queueEvent kEventQueueSize code2 param2 (other_priority pri) m = Ok (r2, m2) ->
      exists m3,
        queueEvent kEventQueueSize code2 param2 (other_priority pri) m' = Ok (r2, m3) /\
        queueEvent kEventQueueSize code param pri m2
          = Ok (negb (isEventQueueFull kEventQueueSize pri m), m3).
Proof.
  intros Hb.
  assert (Hq : exists q',
             EventQueue.queueEvent kEventQueueSize code param (queue_of pri m)
               = Ok (negb (isEventQueueFull kEventQueueSize pri m), q') /\
             EventQueue.mNumEvents q'
               = EventQueue.mNumEvents (queue_of pri m)
                 + (if isEventQueueFull kEventQueueSize pri m then 0 else 1)).
  { unfold isEventQueueFull, EventQueue.isFull.
    destruct (Z.eqb_spec (EventQueue.mNumEvents (queue_of pri m)) kEventQueueSize)
      as [Hf|Hnf].
    - rewrite queueEvent_full by done. eexists. split; [done|]. lia.
    - rewrite queueEvent_not_full by done. eexists. split; [done|]. done. }
  destruct Hq as (q' & Hq & Hn).
  exists (with_queue pri q' m).
  split; [unfold queueEvent; by rewrite Hq|].
  split; [unfold getNumEventsInQueue, EventQueue.getNumEvents;
          by rewrite queue_of_with_queue|].
  split; [by destruct pri|]. split; [by destruct pri|].
  intros code2 param2 r2 m2 H2. unfold queueEvent in H2.
  apply bind_Ok_inv in H2 as ([r q2] & H2 & [= <- <-]).
  exists (with_queue (other_priority pri) q2 (with_queue pri q' m)).
  unfold queueEvent. split.
  - replace (queue_of (other_priority pri) (with_queue pri q' m))
      with (queue_of (other_priority pri) m) by (by destruct pri).
    by rewrite H2.
  - replace (queue_of pri (with_queue (other_priority pri) q2 m))
      with (queue_of pri m) by (by destruct pri).
    rewrite Hq. cbn [bind]. by destruct pri.
Qed.

Lemma X12_witness :
  exists m',
    queueEvent 8 3 30 kHighPriority (manager Examples.world_heard) = Ok (true, m') /\
    getNumEventsInQueue kHighPriority m' = 2 /\
    queue_of kLowPriority m' = queue_of kLowPriority (manager Examples.world_heard).
Proof.
  destruct (X12_queueEvent_touches_one_queue 8 (manager Examples.world_heard) 3 30
              kHighPriority ltac:(constructor; by_computation))
    as (m' & Hq & Hn & Hother & _).
  exists m'. split; [exact Hq|]. split; [exact Hn|exact Hother].
Defined.

(** X13.  With both queues empty, [processEvent] and [processAllEvents]
    return 0 after one [popEvent] on the high-priority queue and one on
    the low-priority queue: no listener is called, the default listener
    included, and the dispatcher is left as it was, whatever its
    listener table holds. *)
Theorem X13_idle_dispatcher_calls_nobody (kEventQueueSize kMaxListeners : Z)
    (run : ListenerList.EventListener -> Z -> Z -> t -> t) (w : world) :
  isEventQueueEmpty kHighPriority (manager w) = true ->
  isEventQueueEmpty kLowPriority (manager w) = true ->
  let w' :=
    {| manager := manager w;
       trace := trace w ++ [PopEvent kHighPriority None; PopEvent kLowPriority None] |} in
  processEvent kEventQueueSize kMaxListeners run w = Ok (0, w') /\
  forall fuel, processAllEvents kEventQueueSize kMaxListeners run (S fuel) w = Ok (0, w').
Proof.
  intros Hh Hl w'. unfold isEventQueueEmpty, EventQueue.isEmpty in Hh, Hl.
  apply Z.eqb_eq in Hh, Hl. destruct w as [m tr]. cbn [manager trace] in *.
  assert (Hpop : forall pri c p tr0,
            EventQueue.mNumEvents (queue_of pri m) = 0 ->
            popEvent kEventQueueSize pri c p {| manager := m; trace := tr0 |}
              = Ok (false, c, p,
                    {| manager := m; trace := tr0 ++ [PopEvent pri None] |})).
  { intros pri c p tr0 He. unfold popEvent. cbn [manager trace].
    rewrite popEvent_empty by done. cbn [bind popped]. by rewrite with_queue_same. }
  subst w'. split.
  - unfold processEvent. rewrite Hpop by done. cbn [bind Z.eqb].
    rewrite Hpop by done. by rewrite <- app_assoc.
  - intros fuel. unfold processAllEvents. cbn [drain].
    rewrite Hpop by done. cbn [bind]. rewrite Hpop by done. by rewrite <- app_assoc.
Qed.

Lemma X13_witness :
  processEvent 8 8 Examples.run_id Examples.world0
    = Ok (0, {| manager := manager Examples.world0;
                trace := trace Examples.world0
                           ++ [PopEvent kHighPriority None; PopEvent kLowPriority None] |}).
Proof.
  apply (proj1 (X13_idle_dispatcher_calls_nobody 8 8 Examples.run_id Examples.world0
                  ltac:(reflexivity) ltac:(reflexivity))).
Defined.

(** X14.  With listeners that leave the dispatcher alone, [processEvent]
    on a well-formed dispatcher returns, keeps it well formed and its
    listener table unchanged, and does this to the queues: the oldest
    high-priority event, if any, is removed; when that event was handled
    by at least one listener its handled count is returned and the
    low-priority queue is untouched; when it was handled by nobody, or
    there was none, the oldest low-priority event, if any, is removed as
    well and its handled count is returned, and 0 when there is none. *)
Theorem X14_processEvent_consumes_heads (kEventQueueSize kMaxListeners : Z)
    (run : ListenerList.EventListener -> Z -> Z -> t -> t) (w : world) :
  (forall listener code param m, run listener code param m = m) ->
  wf kEventQueueSize kMaxListeners (manager w) ->
  let pairs q := EventQueue.event_pair <$> EventQueue.contents kEventQueueSize q in
  let handled := handled_count (mListeners (manager w)) in
  exists n w',
    processEvent kEventQueueSize kMaxListeners run w = Ok (n, w') /\
    wf kEventQueueSize kMaxListeners (manager w') /\
    mListeners (manager w') = mListeners (manager w) /\
    let low_attempted :=
      match pairs (mLowPriorityQueue (manager w)) with
      | [] => n = 0 /\ pairs (mLowPriorityQueue (manager w')) = []
      | e :: rest => n = handled e /\ pairs (mLowPriorityQueue (manager w')) = rest
      end in
    match pairs (mHighPriorityQueue (manager w)) with
    | [] => pairs (mHighPriorityQueue (manager w')) = [] /\ low_attempted
    | e :: rest =>
        pairs (mHighPriorityQueue (manager w')) = rest /\
        if handled e =? 0 then low_attempted
        else n = handled e /\
             mLowPriorityQueue (manager w') = mLowPriorityQueue (manager w)
    end.
Proof.
  intros run_id [Hh Hlo Hl] pairs handled. destruct w as [m tr]. cbn [manager trace] in *.
  destruct (attempt_run_id kEventQueueSize kMaxListeners run run_id
              kHighPriority None None 0 m tr Hh Hl)
    as (r1 & c1 & p1 & w1 & n1 & q1 & tr1 & Hpop1 & Hif1 & Hq1 & Hcase1).
  cbn [queue_of] in Hcase1. fold (pairs (mHighPriorityQueue m)) in Hcase1.
  fold (pairs q1) in Hcase1.
  unfold processEvent. rewrite Hpop1. cbn [bind]. rewrite Hif1. cbn [bind].
  destruct (Z.eqb_spec n1 0) as [Hz|Hnz].
  - destruct (attempt_run_id kEventQueueSize kMaxListeners run run_id
                kLowPriority c1 p1 n1 (with_queue kHighPriority q1 m) tr1 Hlo Hl)
      as (r2 & c2 & p2 & w2 & n2 & q2 & tr2 & Hpop2 & Hif2 & Hq2 & Hcase2).
    cbn [queue_of with_queue mLowPriorityQueue mListeners] in Hcase2.
    fold (pairs (mLowPriorityQueue m)) in Hcase2. fold (pairs q2) in Hcase2.
    fold handled in Hcase2.
    rewrite Hpop2. cbn [bind]. rewrite Hif2.
    eexists _, _. split; [done|]. cbn [manager with_queue mHighPriorityQueue
                                     mLowPriorityQueue mListeners].
    split; [by constructor|]. split; [done|].
    assert (Hlow : match pairs (mLowPriorityQueue m) with
                   | [] => n2 = 0 /\ pairs q2 = []
                   | e :: rest => n2 = handled e /\ pairs q2 = rest
                   end).
    { destruct (pairs (mLowPriorityQueue m)) as [|e rest] eqn:Hp.
      - destruct Hcase2 as [-> ->]. by rewrite Hp.
      - done. }
    destruct (pairs (mHighPriorityQueue m)) as [|e rest] eqn:Hp.
    + destruct Hcase1 as [_ ->]. by rewrite Hp.
    + destruct Hcase1 as [Hn1 Hrest]. split; [done|].
      fold handled in Hn1. rewrite <- Hn1, Hz. done.
  - eexists _, _. split; [done|]. cbn [manager with_queue mHighPriorityQueue
                                     mLowPriorityQueue mListeners].
    split; [by constructor|]. split; [done|].
    destruct (pairs (mHighPriorityQueue m)) as [|e rest] eqn:Hp.
    + by destruct Hcase1 as [-> _].
    + destruct Hcase1 as [Hn1 Hrest]. split; [done|].
      fold handled in Hn1. rewrite <- Hn1.
      destruct (Z.eqb_spec n1 0); done.
Qed.

Lemma X14_witness :
  exists n w',
    processEvent 8 8 Examples.run_id Examples.world_heard = Ok (n, w') /\
    wf 8 8 (manager w') /\
    mListeners (manager w') = mListeners (manager Examples.world_heard).
Proof.
  destruct (X14_processEvent_consumes_heads 8 8 Examples.run_id Examples.world_heard)
    as (n & w' & Hp & Hwf & Hl & _).
  - reflexivity.
  - constructor;
      first [constructor; [constructor|]; by_computation | constructor; by_computation].
  - exists n, w'. split; [exact Hp|]. split; [exact Hwf|exact Hl].
Defined.

(** X15.  Whatever the listeners do and whatever state the dispatcher is
    in, a [sendEvent] or a [processEvent] that returns yields a handled
    count between 0 and [kMaxListeners]. *)
Theorem X15_handled_count_within_table_size (kEventQueueSize kMaxListeners : Z)
    (run : ListenerList.EventListener -> Z -> Z -> t -> t) (w w' : world) (n : Z) :
  0 < kMaxListeners ->
  processEvent kEventQueueSize kMaxListeners run w = Ok (n, w') \/
  (exists code param, sendEvent kMaxListeners run code param w = Ok (n, w')) ->
  0 <= n <= kMaxListeners.
Proof.
  intros Hs H. cut (0 <= n <= Z.max 1 kMaxListeners); [lia|].
  destruct H as [H|(code & param & H)].
  2: { by apply sendEvent_bound in H. }
  unfold processEvent in H.
  apply bind_Ok_inv in H as ([[[r1 c1] p1] w1] & _ & H).
  apply bind_Ok_inv in H as ([h1 w2] & Hif & H).
  apply dispatch_popped_bound in Hif.
  destruct (Z.eqb_spec h1 0) as [->|Hnz].
  - apply bind_Ok_inv in H as ([[[r2 c2] p2] w3] & _ & H).
    by apply dispatch_popped_bound in H.
  - by injection H as <- _.
Qed.

Lemma X15_witness :
  0 <= (Examples.processEvent_result Examples.world_busy).1 <= 8.
Proof.
  apply (X15_handled_count_within_table_size 8 8 Examples.run_id Examples.world_busy
           (Examples.processEvent_result Examples.world_busy).2).
  - lia.
  - left. vm_compute. reflexivity.
Defined.

(** X16.  A freshly constructed dispatcher with positive sizes is well
    formed; both queues are empty and not full; the listener table is
    empty and not full; no pair is registered or enabled; and
    [sendEvent] calls nobody and returns 0 for every event, whatever the
    uninitialised entries and default-listener flag hold. *)
Theorem X16_fresh_dispatcher_is_idle (kEventQueueSize kMaxListeners : Z)
    (run : ListenerList.EventListener -> Z -> Z -> t -> t)
    (safety : SafetyMode) (junk : nat -> ListenerList.ListenerItem) (junk_enabled : bool) :
  0 < kEventQueueSize ->
  0 < kMaxListeners ->
  let m := EventManager kEventQueueSize kMaxListeners safety junk junk_enabled in
  wf kEventQueueSize kMaxListeners m /\
  (forall pri,
     getNumEventsInQueue pri m = 0 /\
     isEventQueueEmpty pri m = true /\
     isEventQueueFull kEventQueueSize pri m = false) /\
  numListeners m = 0 /\
  isListenerListEmpty m = true /\
  isListenerListFull kMaxListeners m = false /\
  (forall code listener, isListenerEnabled code listener m = Ok false) /\
  (forall code param tr,
     sendEvent kMaxListeners run code param {| manager := m; trace := tr |}
       = Ok (0, {| manager := m; trace := tr |})).
Proof.
  intros Hq Hl m.
  assert (Hwf : wf kEventQueueSize kMaxListeners m).
  { constructor; [by apply EventQueue_ctor_wf..|by apply ListenerList_ctor_wf]. }
  split; [exact Hwf|].
  split.
  { intros pri. unfold getNumEventsInQueue, isEventQueueEmpty, isEventQueueFull,
      EventQueue.getNumEvents, EventQueue.isEmpty, EventQueue.isFull.
    destruct pri; (split; [done|]); (split; [done|]); apply Z.eqb_neq; cbn; lia. }
  split; [done|]. split; [done|].
  split.
  { unfold isListenerListFull, ListenerList.isFull. apply Z.eqb_neq. cbn. lia. }
  split.
  - intros code listener. unfold isListenerEnabled.
    rewrite (isListenerEnabled_spec kMaxListeners) by apply Hwf. done.
  - intros code param tr. unfold sendEvent, ListenerList.sendEvent.
    by destruct (Z.to_nat kMaxListeners).
Qed.

Lemma X16_witness :
  wf 8 8 (manager Examples.world0) /\
  sendEvent 8 Examples.run_id 1 10 Examples.world0 = Ok (0, Examples.world0).
Proof.
  destruct (X16_fresh_dispatcher_is_idle 8 8 Examples.run_id kInterruptSafe
              Examples.junk false ltac:(lia) ltac:(lia))
    as (Hwf & _ & _ & _ & _ & _ & Hsend).
  split; [exact Hwf|]. exact (Hsend 1 10 []).
Defined.

End EventManagerStatements.

(** ** Round trips on the table *)

Section ListenerListRoundTrips.

Import ListenerList.

(** X17.  Registering a pair that the table does not hold yet and
    removing it again gives back the registrations there were: when
    [addListener( eventCode, listener )] returns [true],
    [removeListener( eventCode, listener )] on the result returns [true]
    and leaves the same entries in the same order, the same count and
    the same default listener as before the two calls. *)
Theorem X17_addListener_removeListener_round_trip (kMaxListeners : Z) (l l1 : t)
    (code : Z) (listener : EventListener) :
  wf kMaxListeners l ->
  Forall (fun it => ~ (eventCode it = code /\ callback it = listener)) (live l) ->
  addListener kMaxListeners code listener l = Ok (true, l1) ->
  exists l2,
    removeListener code listener l1 = Ok (true, l2) /\
    wf kMaxListeners l2 /\
    live l2 = live l /\
    mNumListeners l2 = mNumListeners l /\
    mDefaultCallback l2 = mDefaultCallback l /\
    mDefaultCallbackEnabled l2 = mDefaultCallbackEnabled l.
Proof.
  intros Hwf Hnew Hadd.
  destruct (addListener_live kMaxListeners _ _ _ _ Hwf Hadd) as (_ & Hn1 & Hlive1).
  destruct (addListener_inv kMaxListeners _ _ _ _ Hwf Hadd) as [Hwf1 _].
  destruct (addListener_defaults _ _ _ _ _ _ Hadd) as [Hd1 He1].
  assert (Hfind : find_index (same_pair code listener) (live l1) = Some (length (live l))).
  { rewrite Hlive1. apply find_index_app_hit.
    - apply find_index_absent. eapply Forall_impl; [exact Hnew|].
      intros it Hit. simpl in Hit. unfold same_pair.
      destruct (Z.eqb_spec (eventCode it) code), (Z.eqb_spec (callback it) listener);
        try done. by destruct Hit.
    - unfold same_pair. simpl. by rewrite !Z.eqb_refl. }
  destruct (removeListener_found kMaxListeners code listener l1 _ Hwf1 Hfind)
    as (l2 & Hrm & Hwf2 & Hn2 & Hlive2 & Hd2 & He2).
  exists l2. split; [done|]. split; [done|].
  split; [|split; [lia|split; congruence]].
  rewrite Hlive2, Hlive1.
  rewrite delete_middle. by rewrite app_nil_r.
Qed.

Lemma X17_witness :
  exists l2,
    removeListener 7 80
        (MoreExamples.table_after
           [EventManager.CallAddListener 5 77; EventManager.CallAddListener 5 78;
            EventManager.CallAddListener 6 77; EventManager.CallAddListener 7 80])
      = Ok (true, l2) /\
    live l2 = live MoreExamples.table_mixed.
Proof.
  destruct (X17_addListener_removeListener_round_trip 8 MoreExamples.table_mixed
              (MoreExamples.table_after
                 [EventManager.CallAddListener 5 77; EventManager.CallAddListener 5 78;
                  EventManager.CallAddListener 6 77; EventManager.CallAddListener 7 80])
              7 80) as (l2 & Hrm & _ & Hlive & _).
  - constructor; by_computation.
  - vm_compute. repeat constructor; intros [H _]; discriminate H.
  - vm_compute. reflexivity.
  - exists l2. split; [exact Hrm|exact Hlive].
Defined.

End ListenerListRoundTrips.
